(** * copilot-api: the protocol translation layer

    The development follows the TypeScript sources:
    - [non-stream-translation.ts]: [translateModelName], [mapContent],
      [handleUserMessage], [handleAssistantMessage], [translateToAnthropic];
    - [create-chat-completions.ts]: [resolveExternalImages],
      [createChatCompletions];
    - [routes/messages/handler.ts]: the streaming loop of [handleCompletion].

    JavaScript strings are sequences of UTF-16 code units; they are modelled
    as lists of code units (numbers), so that the regular expressions of the
    model-name normalizer see exactly the classes the engine sees. Code that
    may throw returns a sum, code that keeps state passes it along, and
    what the code obtains from its environment (the network, [JSON.parse],
    the token and the headers of the session) is a section variable. *)

From Stdlib Require Import List NArith ZArith Lia Bool String Ascii.
From stdpp Require Import base option list gmap.
Import ListNotations.

(* ===================================================================== *)
(** * Part I: definitions                                                 *)
(* ===================================================================== *)

(** ** JavaScript strings *)

Module JsString.

Abbreviation code_unit := N (only parsing).
Abbreviation str := (list N) (only parsing).

(** An ASCII literal as a JavaScript string. *)
Definition lit (s : string) : str :=
  map N_of_ascii (list_ascii_of_string s).

(** [\d] without the [u] flag: the ten ASCII digits. *)
Definition is_digit (c : code_unit) : bool :=
  ((48 <=? c) && (c <=? 57))%N.

(** LineTerminator of ECMA-262: LF, CR, LS and PS. The dot of a regular
    expression without the [s] flag matches everything else. *)
Definition is_line_terminator (c : code_unit) : bool :=
  ((c =? 10) || (c =? 13) || (c =? 8232) || (c =? 8233))%N.

Definition str_eqb (a b : str) : bool := bool_decide (a = b).

(** [s.startsWith(prefix)] *)
Fixpoint startsWith (s prefix : str) : bool :=
  match prefix, s with
  | [], _ => true
  | p :: prefix', c :: s' => (c =? p)%N && startsWith s' prefix'
  | _ :: _, [] => false
  end.

(** [parts.join(sep)] *)
Fixpoint join (sep : str) (parts : list str) : str :=
  match parts with
  | [] => []
  | [x] => x
  | x :: rest => x ++ sep ++ join sep rest
  end.

(** A string is falsy exactly when it is empty. *)
Definition truthy (s : str) : bool :=
  match s with [] => false | _ :: _ => true end.

End JsString.
Import JsString.

(** ** JavaScript numbers

  A number is an IEEE 754 double. The numbers this code computes with are
  token counts: integral values, modelled by their value in [Z]. *)

Module JsNumber.

(** The double nearest to the integer [x], ties going to the even
    significand: [x] itself while 53 bits hold it, a multiple of a power
    of two beyond. (From 2^1024 on a double is infinite; counts of that
    size are outside the model.) *)
Definition toDouble (x : Z) : Z :=
  let m := Z.abs x in
  if (m <? 2 ^ 53)%Z then x
  else
    let e := (Z.log2 m - 52)%Z in
    let q := Z.shiftr m e in
    let r := (m - Z.shiftl q e)%Z in
    let half := Z.shiftl 1 (e - 1) in
    let q' :=
      if (half <? r)%Z || ((r =? half)%Z && Z.odd q) then (q + 1)%Z else q in
    (Z.sgn x * Z.shiftl q' e)%Z.

(** [a - b] on integral doubles: the exact difference, rounded. *)
Definition subtract (a b : Z) : Z := toDouble (a - b).

(** [Number.isSafeInteger] on an integral value. *)
Definition isSafeInteger (x : Z) : bool := (Z.abs x <? 2 ^ 53)%Z.

End JsNumber.
Import JsNumber.

(** ** Regular expressions

  A backtracking matcher in continuation-passing style for the fragment
  of the ECMAScript pattern language the sources use: literal characters,
  [.], [\d], concatenation, the greedy star, numbered capturing groups and
  the assertions [^] and [$] (no [m] flag, so they mean start and end of
  input). A continuation receives the position reached, the input that is
  left and the captures so far; returning [None] makes the matcher
  backtrack. *)

Module RegExp.

Inductive regex : Type :=
| Eps
| Chr (c : code_unit)
| Dot
| Digit
| Cat (r1 r2 : regex)
| Star (r : regex)
| Group (n : nat) (r : regex)
| Bol
| Eol.

Abbreviation captures := (gmap nat (list N)) (only parsing).
Abbreviation outcome := (option (nat * gmap nat (list N))) (only parsing).
Abbreviation cont := (nat -> list N -> gmap nat (list N) -> option (nat * gmap nat (list N)))
  (only parsing).

(** One character of a class. *)
Definition one (P : code_unit -> bool) (i : nat) (s : str)
    (caps : captures) (k : cont) : outcome :=
  match s with
  | c :: s' => if P c then k (S i) s' caps else None
  | [] => None
  end.

(** Greedy iteration: try one more round of [step] first, fall back to the
    continuation. A round that consumes nothing is rejected, as in
    RepeatMatcher of ECMA-262. Every round consumes input, so the length
    of the input bounds the number of rounds. *)
Fixpoint star (step : nat -> str -> captures -> cont -> outcome)
    (fuel : nat) (i : nat) (s : str) (caps : captures) (k : cont) : outcome :=
  match fuel with
  | O => k i s caps
  | S fuel' =>
      match step i s caps
              (fun i' s' caps' =>
                 if (i' =? i)%nat then None
                 else star step fuel' i' s' caps' k) with
      | Some r => Some r
      | None => k i s caps
      end
  end.

Fixpoint matcher (r : regex) (i : nat) (s : str) (caps : captures)
    (k : cont) {struct r} : outcome :=
  match r with
  | Eps => k i s caps
  | Chr c => one (N.eqb c) i s caps k
  | Dot => one (fun c => negb (is_line_terminator c)) i s caps k
  | Digit => one is_digit i s caps k
  | Cat r1 r2 =>
      matcher r1 i s caps (fun i' s' caps' => matcher r2 i' s' caps' k)
  | Star r' => star (matcher r') (length s) i s caps k
  | Group n r' =>
      matcher r' i s caps
        (fun i' s' caps' => k i' s' (<[n := firstn (i' - i) s]> caps'))
  | Bol => if (i =? 0)%nat then k i s caps else None
  | Eol => match s with [] => k i s caps | _ :: _ => None end
  end.

(** The result of [RegExp.prototype.exec]: where the match starts and
    ends, and what the groups captured. *)
Record MatchResult : Type := mkMatch {
  index : nat;
  endIndex : nat;
  groups : gmap nat (list N)
}.

(** Start positions are tried from the left. *)
Fixpoint exec_from (r : regex) (i : nat) (s : str) : option MatchResult :=
  match matcher r i s ∅ (fun e _ caps => Some (e, caps)) with
  | Some (e, caps) => Some (mkMatch i e caps)
  | None =>
      match s with
      | [] => None
      | _ :: s' => exec_from r (S i) s'
      end
  end.

Definition exec (r : regex) (s : str) : option MatchResult :=
  exec_from r 0 s.

Definition test (r : regex) (s : str) : bool :=
  match exec r s with Some _ => true | None => false end.

(** [match[n]] for a group that took part in the match. *)
Definition group (m : MatchResult) (n : nat) : str :=
  default [] (groups m !! n).

(** [s.replace(r, by)] for a pattern without the [g] flag and a
    replacement without [$] patterns. *)
Definition replace (r : regex) (s : str) (by_ : str) : str :=
  match exec r s with
  | Some m => firstn (index m) s ++ by_ ++ skipn (endIndex m) s
  | None => s
  end.

(** [r+] and [r{n}] *)
Definition Plus (r : regex) : regex := Cat r (Star r).

Fixpoint Rep (n : nat) (r : regex) : regex :=
  match n with
  | O => Eps
  | S n' => Cat r (Rep n' r)
  end.

End RegExp.
Import RegExp.

(** ** [translateModelName] *)

Module ModelName.

(** [/\[.*\]$/] *)
Definition bracketSuffixPattern : regex :=
  Cat (Chr 91) (Cat (Star Dot) (Cat (Chr 93) Eol)).

(** [/-\d{8}$/] *)
Definition dateSuffixPattern : regex :=
  Cat (Chr 45) (Cat (Rep 8 Digit) Eol).

(** [/^(.*-\d+)-(\d+)$/] *)
Definition hyphenMinorVersionPattern : regex :=
  Cat Bol
    (Cat (Group 1 (Cat (Star Dot) (Cat (Chr 45) (Plus Digit))))
       (Cat (Chr 45) (Cat (Group 2 (Plus Digit)) Eol))).

(** The three rewriting steps of [translateModelName], in source order. *)
Definition stripBracketSuffix (result : str) : str :=
  if test bracketSuffixPattern result
  then replace bracketSuffixPattern result []
  else result.

Definition stripDateSuffix (result : str) : str :=
  if test dateSuffixPattern result
  then replace dateSuffixPattern result []
  else result.

Definition convertHyphenMinor (result : str) : str :=
  match exec hyphenMinorVersionPattern result with
  | Some m => group m 1 ++ [46%N] ++ group m 2
  | None => result
  end.

Definition translateModelName (model : str) : str :=
  let result := model in
  let result := stripBracketSuffix result in
  let result := stripDateSuffix result in
  convertHyphenMinor result.

End ModelName.
Import ModelName.


(** ** Exceptions

    Code that may throw returns [Exn + A]; [inl] is a thrown exception. *)

Module Exceptions.

Inductive Exn : Type :=
| Error (message : str)
| SyntaxError (input : str)
| HTTPError (message : str) (body : str)
| NetworkError.

Abbreviation result A := (Exn + A)%type (only parsing).

Definition ret {A} (a : A) : result A := inr a.

Definition throw {A} (e : Exn) : result A := inl e.

Definition bind {A B} (m : result A) (f : A -> result B) : result B :=
  match m with
  | inl e => inl e
  | inr a => f a
  end.

(** [try { body } catch (err) { handler }] *)
Definition try_catch {A} (body : result A) (handler : Exn -> result A)
    : result A :=
  match body with
  | inl e => handler e
  | inr a => inr a
  end.

(** A loop whose body may throw: the first exception ends it. This is also
    the outcome of [Promise.all] over an array of promises, which rejects
    as soon as one of them rejects. *)
Fixpoint mapM {A B} (f : A -> result B) (l : list A) : result (list B) :=
  match l with
  | [] => ret []
  | x :: l' =>
      bind (f x) (fun y => bind (mapM f l') (fun ys => ret (y :: ys)))
  end.

Fixpoint foldM {A S} (f : S -> A -> result S) (l : list A) (s : S)
    : result S :=
  match l with
  | [] => ret s
  | x :: l' => bind (f s x) (fun s' => foldM f l' s')
  end.

End Exceptions.
Import Exceptions.

Notation "'let*' x ':=' m 'in' k" := (bind m (fun x => k))
  (at level 10, x name, m at level 100, k at level 200).

(** ** The upstream (OpenAI-shaped) protocol: types of
    [create-chat-completions.ts] *)

Module OpenAI.

Inductive Role : Type :=
| RoleUser | RoleAssistant | RoleSystem | RoleTool | RoleDeveloper.

Inductive ImageDetail : Type := DetailLow | DetailHigh | DetailAuto.

Record ImageUrl : Type := mkImageUrl {
  url : str;
  detail : option ImageDetail
}.

Inductive ContentPart : Type :=
| TextPart (text : str)
| ImagePart (image_url : ImageUrl).

(** [string | Array<ContentPart> | null]. A response message declares
    [string | null] only, but is read through the same type. *)
Inductive MessageContent : Type :=
| ContentString (s : str)
| ContentParts (parts : list ContentPart)
| ContentNull.

Record ToolCall : Type := mkToolCall {
  tc_id : str;
  tc_name : str;        (* function.name *)
  tc_arguments : str    (* function.arguments *)
}.

(** The optional [name] of a message is neither set nor read by the code
    modelled here and is left out. *)
Record Message : Type := mkMessage {
  msg_role : Role;
  msg_content : MessageContent;
  msg_tool_calls : option (list ToolCall);
  msg_tool_call_id : option str
}.

Inductive FinishReason : Type :=
| FinishStop | FinishLength | FinishToolCalls | FinishContentFilter.

Record ResponseMessage : Type := mkResponseMessage {
  rm_content : MessageContent;
  rm_tool_calls : option (list ToolCall)
}.

Record ChoiceNonStreaming : Type := mkChoice {
  choice_index : nat;
  choice_message : ResponseMessage;
  choice_finish_reason : FinishReason
}.

Record PromptTokensDetails : Type := mkDetails {
  cached_tokens : Z
}.

(** Token counts are integral doubles, modelled by their value in [Z];
    what the code computes with them goes through [JsNumber]. *)
Record Usage : Type := mkUsage {
  prompt_tokens : Z;
  completion_tokens : Z;
  total_tokens : Z;
  prompt_tokens_details : option PromptTokensDetails
}.

Record ChatCompletionResponse : Type := mkResponse {
  resp_id : str;
  resp_model : str;
  resp_choices : list ChoiceNonStreaming;
  resp_usage : option Usage
}.

(** The sampling parameters and the tool declarations of a payload travel
    through the code modelled here untouched and are left out. *)
Record ChatCompletionsPayload : Type := mkPayload {
  pl_messages : list Message;
  pl_model : str;
  pl_stream : option bool
}.

(** Streaming types *)

Record ToolCallDelta : Type := mkToolCallDelta {
  tcd_index : nat;
  tcd_id : option str;
  tcd_name : option str;        (* function?.name *)
  tcd_arguments : option str    (* function?.arguments *)
}.

Record Delta : Type := mkDelta {
  delta_content : option str;
  delta_role : option Role;
  delta_tool_calls : option (list ToolCallDelta)
}.

Record Choice : Type := mkStreamChoice {
  sc_index : nat;
  sc_delta : Delta;
  sc_finish_reason : option FinishReason
}.

Record ChatCompletionChunk : Type := mkChunk {
  chunk_id : str;
  chunk_model : str;
  chunk_choices : list Choice;
  chunk_usage : option Usage
}.

Definition role_eqb (a b : Role) : bool :=
  match a, b with
  | RoleUser, RoleUser | RoleAssistant, RoleAssistant
  | RoleSystem, RoleSystem | RoleTool, RoleTool
  | RoleDeveloper, RoleDeveloper => true
  | _, _ => false
  end.

End OpenAI.
Import OpenAI.

(** ** The source (Anthropic-shaped) protocol: the types of
    [anthropic-types.ts] as the translation uses them *)

Module Anthropic.

Section Blocks.

(** The structured [input] of a tool call: a JSON value. *)
Variable json : Type.

Inductive ToolResultPart : Type :=
| ResultText (text : str)
| ResultImage (media_type data : str).

Inductive ToolResultContent : Type :=
| ResultString (s : str)
| ResultParts (parts : list ToolResultPart).

Inductive AnthropicBlock : Type :=
| TextBlock (text : str)
| ThinkingBlock (thinking : str)
| ImageBlock (media_type data : str)
| ToolUseBlock (id name : str) (input : json)
| ToolResultBlock (tool_use_id : str) (content : ToolResultContent).

(** [string | Array<block>] *)
Inductive AnthropicContent : Type :=
| PlainText (s : str)
| BlockList (blocks : list AnthropicBlock).

Inductive AnthropicMessage : Type :=
| UserMessage (content : AnthropicContent)
| AssistantMessage (content : AnthropicContent).

Inductive StopReason : Type :=
| EndTurn | MaxTokens | ToolUse | StopSequence.

Record AnthropicUsage : Type := mkAnthropicUsage {
  input_tokens : Z;
  output_tokens : Z;
  cache_read_input_tokens : option Z
}.

Record AnthropicResponse : Type := mkAnthropicResponse {
  ar_id : str;
  ar_model : str;
  ar_content : list AnthropicBlock;
  ar_stop_reason : option StopReason;
  ar_stop_sequence : option str;
  ar_usage : AnthropicUsage
}.

End Blocks.

Arguments TextBlock {json} text.
Arguments ThinkingBlock {json} thinking.
Arguments ImageBlock {json} media_type data.
Arguments ToolUseBlock {json} id name input.
Arguments ToolResultBlock {json} tool_use_id content.
Arguments PlainText {json} s.
Arguments BlockList {json} blocks.
Arguments UserMessage {json} content.
Arguments AssistantMessage {json} content.
Arguments mkAnthropicResponse {json}.
Arguments ar_id {json}.
Arguments ar_model {json}.
Arguments ar_content {json}.
Arguments ar_stop_reason {json}.
Arguments ar_stop_sequence {json}.
Arguments ar_usage {json}.

End Anthropic.
Import Anthropic.

(** ** [non-stream-translation.ts] *)

Module NonStreamTranslation.

(** Modelled from the spec: [mapOpenAIStopReasonToAnthropic] lives in
    [utils.ts], outside the files embedded here. Section 4.3, step 4 gives
    its table: stop to end_turn, length to max_tokens, tool_calls to
    tool_use, content_filter to stop_sequence, anything else left unset. *)
Definition mapOpenAIStopReasonToAnthropic (finishReason : option FinishReason)
    : option StopReason :=
  match finishReason with
  | Some FinishStop => Some EndTurn
  | Some FinishLength => Some MaxTokens
  | Some FinishToolCalls => Some ToolUse
  | Some FinishContentFilter => Some StopSequence
  | None => None
  end.

Section Translation.

Variable json : Type.

(** [JSON.stringify] on a tool input, and [JSON.parse], which throws a
    [SyntaxError] on malformed text ([None]). *)
Variable JSON_stringify : json -> str.
Variable JSON_parse : str -> option json.

Abbreviation Block := (AnthropicBlock json) (only parsing).

(** *** Payload translation *)

Definition isImage (block : Block) : bool :=
  match block with ImageBlock _ _ => true | _ => false end.

Definition isToolResult (block : Block) : bool :=
  match block with ToolResultBlock _ _ => true | _ => false end.

Definition isTextOrThinking (block : Block) : bool :=
  match block with
  | TextBlock _ | ThinkingBlock _ => true
  | _ => false
  end.

(** [block.type === "text" ? block.text : block.thinking]; the filter in
    front of it lets only text and thinking blocks through (on any other
    block the expression is [undefined], which [join] prints as the empty
    string). *)
Definition textOrThinking (block : Block) : str :=
  match block with
  | TextBlock text => text
  | ThinkingBlock thinking => thinking
  | _ => []
  end.

(** [`data:${media_type};base64,${data}`] *)
Definition dataUri (media_type data : str) : str :=
  lit "data:" ++ media_type ++ lit ";base64," ++ data.

(** The separator ["\n\n"]. *)
Definition blank_line : str := [10%N; 10%N].

Definition mapToolResultContent (content : ToolResultContent)
    : MessageContent :=
  match content with
  | ResultString s => ContentString s
  | ResultParts parts =>
      let hasImage :=
        existsb (fun block =>
                   match block with ResultImage _ _ => true | _ => false end)
          parts in
      if negb hasImage then
        ContentString
          (join blank_line
             (flat_map (fun block =>
                          match block with
                          | ResultText text => [text]
                          | ResultImage _ _ => []
                          end) parts))
      else
        ContentParts
          (map (fun block =>
                  match block with
                  | ResultText text => TextPart text
                  | ResultImage media_type data =>
                      ImagePart (mkImageUrl (dataUri media_type data) None)
                  end) parts)
  end.

Definition mapContent (content : AnthropicContent json) : MessageContent :=
  match content with
  | PlainText s => ContentString s
  | BlockList content =>
      let hasImage := existsb isImage content in
      if negb hasImage then
        ContentString
          (join blank_line
             (map textOrThinking (List.filter isTextOrThinking content)))
      else
        let contentParts :=
          fold_left
            (fun contentParts block =>
               match block with
               | TextBlock text => contentParts ++ [TextPart text]
               | ThinkingBlock thinking => contentParts ++ [TextPart thinking]
               | ImageBlock media_type data =>
                   contentParts
                     ++ [ImagePart (mkImageUrl (dataUri media_type data) None)]
               | _ => contentParts
               end)
            content [] in
        ContentParts contentParts
  end.

(** The filters with a type guard return the blocks at their narrowed
    type: the fields the rest of the function reads. *)
Definition toolResultBlocksOf (content : list Block)
    : list (str * ToolResultContent) :=
  flat_map (fun block =>
              match block with
              | ToolResultBlock tool_use_id c => [(tool_use_id, c)]
              | _ => []
              end) content.

Definition toolUseBlocksOf (content : list Block) : list (str * str * json) :=
  flat_map (fun block =>
              match block with
              | ToolUseBlock id name input => [(id, name, input)]
              | _ => []
              end) content.

Definition textBlocksOf (content : list Block) : list str :=
  flat_map (fun block =>
              match block with TextBlock text => [text] | _ => [] end)
    content.

Definition thinkingBlocksOf (content : list Block) : list str :=
  flat_map (fun block =>
              match block with
              | ThinkingBlock thinking => [thinking]
              | _ => []
              end) content.

Definition handleUserMessage (content : AnthropicContent json)
    : list Message :=
  let newMessages : list Message := [] in
  match content with
  | BlockList blocks =>
      let toolResultBlocks := toolResultBlocksOf blocks in
      let otherBlocks :=
        List.filter (fun block => negb (isToolResult block)) blocks in
      (* Tool results must come first *)
      let newMessages :=
        fold_left
          (fun newMessages '(tool_use_id, c) =>
             newMessages
               ++ [mkMessage RoleTool (mapToolResultContent c) None
                     (Some tool_use_id)])
          toolResultBlocks newMessages in
      if (0 <? length otherBlocks)%nat then
        newMessages
          ++ [mkMessage RoleUser (mapContent (BlockList otherBlocks))
                None None]
      else newMessages
  | PlainText _ =>
      newMessages ++ [mkMessage RoleUser (mapContent content) None None]
  end.

Definition handleAssistantMessage (content : AnthropicContent json)
    : list Message :=
  match content with
  | PlainText _ =>
      [mkMessage RoleAssistant (mapContent content) None None]
  | BlockList blocks =>
      let toolUseBlocks := toolUseBlocksOf blocks in
      let textBlocks := textBlocksOf blocks in
      let thinkingBlocks := thinkingBlocksOf blocks in
      let allTextContent :=
        join blank_line (textBlocks ++ thinkingBlocks) in
      if (0 <? length toolUseBlocks)%nat then
        [mkMessage RoleAssistant
           (if truthy allTextContent then ContentString allTextContent
            else ContentNull)
           (Some (map (fun '(id, name, input) =>
                         mkToolCall id name (JSON_stringify input))
                    toolUseBlocks))
           None]
      else
        [mkMessage RoleAssistant (mapContent content) None None]
  end.

(** The callback of [flatMap] in [translateAnthropicMessagesToOpenAI]. *)
Definition translateMessage (message : AnthropicMessage json)
    : list Message :=
  match message with
  | UserMessage content => handleUserMessage content
  | AssistantMessage content => handleAssistantMessage content
  end.

(** *** Response translation *)

Definition getAnthropicTextBlocks (messageContent : MessageContent)
    : list Block :=
  match messageContent with
  | ContentString s => [TextBlock s]
  | ContentParts parts =>
      flat_map (fun part =>
                  match part with
                  | TextPart text => [TextBlock text]
                  | ImagePart _ => []
                  end) parts
  | ContentNull => []
  end.

Definition getAnthropicToolUseBlocks (toolCalls : option (list ToolCall))
    : result (list Block) :=
  match toolCalls with
  | None => ret []
  | Some toolCalls =>
      mapM (fun toolCall =>
              match JSON_parse (tc_arguments toolCall) with
              | Some input =>
                  ret (ToolUseBlock (tc_id toolCall) (tc_name toolCall) input)
              | None => throw (SyntaxError (tc_arguments toolCall))
              end) toolCalls
  end.

(** The variables the loop over the choices updates. *)
Record Merged : Type := mkMerged {
  allTextBlocks : list Block;
  allToolUseBlocks : list Block;
  stopReason : option FinishReason
}.

Definition isToolCalls (r : FinishReason) : bool :=
  match r with FinishToolCalls => true | _ => false end.

Definition isStop (r : option FinishReason) : bool :=
  match r with Some FinishStop => true | _ => false end.

(** The body of [for (const choice of response.choices)]. *)
Definition mergeChoice (acc : Merged) (choice : ChoiceNonStreaming)
    : result Merged :=
  let textBlocks := getAnthropicTextBlocks (rm_content (choice_message choice)) in
  let* toolUseBlocks :=
    getAnthropicToolUseBlocks (rm_tool_calls (choice_message choice)) in
  ret (mkMerged
         (allTextBlocks acc ++ textBlocks)
         (allToolUseBlocks acc ++ toolUseBlocks)
         (if isToolCalls (choice_finish_reason choice) || isStop (stopReason acc)
          then Some (choice_finish_reason choice)
          else stopReason acc)).

(** The state of the variables when the loop ends. *)
Definition mergeChoices (response : ChatCompletionResponse) : result Merged :=
  let stopReason : option FinishReason := None in
  let stopReason :=
    match resp_choices response with
    | choice :: _ => Some (choice_finish_reason choice)
    | [] => stopReason
    end in
  foldM mergeChoice (resp_choices response) (mkMerged [] [] stopReason).

Definition translateToAnthropic (response : ChatCompletionResponse)
    : result (AnthropicResponse json) :=
  let* merged := mergeChoices response in
  ret (mkAnthropicResponse
         (resp_id response)
         (resp_model response)
         (allTextBlocks merged ++ allToolUseBlocks merged)
         (mapOpenAIStopReasonToAnthropic (stopReason merged))
         None
         (mkAnthropicUsage
            (subtract
               (default 0%Z (prompt_tokens <$> resp_usage response))
               (default 0%Z
                  (cached_tokens
                     <$> (resp_usage response ≫= prompt_tokens_details))))
            (default 0%Z (completion_tokens <$> resp_usage response))
            (cached_tokens
               <$> (resp_usage response ≫= prompt_tokens_details)))).

End Translation.

Arguments isImage {json} block.
Arguments isToolResult {json} block.
Arguments isTextOrThinking {json} block.
Arguments textOrThinking {json} block.
Arguments mapContent {json} content.
Arguments toolResultBlocksOf {json} content.
Arguments toolUseBlocksOf {json} content.
Arguments textBlocksOf {json} content.
Arguments thinkingBlocksOf {json} content.
Arguments handleUserMessage {json} content.
Arguments handleAssistantMessage {json} JSON_stringify content.
Arguments translateMessage {json} JSON_stringify message.
Arguments getAnthropicTextBlocks {json} messageContent.
Arguments getAnthropicToolUseBlocks {json} JSON_parse toolCalls.
Arguments mkMerged {json}.
Arguments allTextBlocks {json}.
Arguments allToolUseBlocks {json}.
Arguments stopReason {json}.
Arguments mergeChoice {json} JSON_parse acc choice.
Arguments mergeChoices {json} JSON_parse response.
Arguments translateToAnthropic {json} JSON_parse response.

End NonStreamTranslation.
Import NonStreamTranslation.

(** ** [create-chat-completions.ts] *)

Module CreateChatCompletions.

(** A response of [fetch]. Reading its body may fail, whichever way it is
    read: a connection that breaks, or for [json()] a body that is not
    JSON. *)
Record HttpResponse : Type := mkHttpResponse {
  ok : bool;
  content_type : option str;      (* headers.get("content-type") *)
  arrayBuffer : result str;       (* response.arrayBuffer() *)
  response_text : result str;     (* response.text() *)
  response_json : result ChatCompletionResponse   (* response.json() *)
}.

Record Request : Type := mkRequest {
  req_url : str;
  req_headers : gmap (list N) (list N);
  req_body : ChatCompletionsPayload   (* before JSON.stringify *)
}.

(** What [createChatCompletions] returns: the events of the response,
    which are read later, or the body of the response read as JSON. *)
Inductive Completion : Type :=
| EventStream (response : HttpResponse)
| Json (body : ChatCompletionResponse).

Definition X_Initiator : str := lit "X-Initiator".

Section Network.

(** [fetch(url)]: the network either rejects or answers. *)
Variable fetch : str -> result HttpResponse.

(** [Buffer.from(buffer).toString("base64")] *)
Variable base64 : str -> str.

Definition fetchImageAsBase64 (url : str) : result str :=
  let* response := fetch url in
  if negb (ok response) then
    throw (Error (lit "Failed to fetch image from URL: " ++ url))
  else
    let contentType := default (lit "image/jpeg") (content_type response) in
    let* buffer := arrayBuffer response in
    ret (lit "data:" ++ contentType ++ lit ";base64," ++ base64 buffer).

(** [part.type === "image_url" && !part.image_url.url.startsWith("data:")] *)
Definition isExternalImage (part : ContentPart) : bool :=
  match part with
  | ImagePart image_url => negb (startsWith (url image_url) (lit "data:"))
  | TextPart _ => false
  end.

(** The callback of the inner [map]; the warning the [catch] branch logs is
    not part of the model. *)
Definition resolvePart (part : ContentPart) : result ContentPart :=
  match part with
  | TextPart _ => ret part
  | ImagePart image_url =>
      if startsWith (url image_url) (lit "data:") then ret part
      else
        try_catch
          (let* base64Url := fetchImageAsBase64 (url image_url) in
           ret (ImagePart (mkImageUrl base64Url (detail image_url))))
          (fun err => ret part)
  end.

(** The callback of the outer [map]. *)
Definition resolveMessage (msg : Message) : result Message :=
  match msg_content msg with
  | ContentParts parts =>
      let* resolvedContent := mapM resolvePart parts in
      ret (mkMessage (msg_role msg) (ContentParts resolvedContent)
             (msg_tool_calls msg) (msg_tool_call_id msg))
  | _ => ret msg
  end.

Definition resolveExternalImages (payload : ChatCompletionsPayload)
    : result ChatCompletionsPayload :=
  let hasExternalUrls :=
    existsb (fun msg =>
               match msg_content msg with
               | ContentParts parts => existsb isExternalImage parts
               | _ => false
               end) (pl_messages payload) in
  if negb hasExternalUrls then ret payload
  else
    let* resolvedMessages := mapM resolveMessage (pl_messages payload) in
    ret (mkPayload resolvedMessages (pl_model payload) (pl_stream payload)).

(** The parts of [~/lib/state] and [~/lib/api-config] the function reads. *)
Variable State : Type.
Variable copilotToken : State -> option str.
Variable copilotHeaders : State -> bool -> gmap (list N) (list N).
Variable copilotBaseUrl : State -> str.

(** [fetch(url, { method: "POST", headers, body })] *)
Variable post : Request -> result HttpResponse.

Definition isAgentRole (role : Role) : bool :=
  existsb (role_eqb role) [RoleAssistant; RoleTool].

(** [createChatCompletions] up to the request it sends upstream. *)
Definition upstreamRequest (state : State) (payload : ChatCompletionsPayload)
    : result Request :=
  if negb (from_option truthy false (copilotToken state)) then
    throw (Error (lit "Copilot token not found"))
  else
    let* resolvedPayload := resolveExternalImages payload in
    let enableVision :=
      existsb (fun x =>
                 match msg_content x with
                 | ContentParts parts =>
                     existsb (fun x =>
                                match x with
                                | ImagePart _ => true
                                | TextPart _ => false
                                end) parts
                 | _ => false
                 end) (pl_messages resolvedPayload) in
    let isAgentCall :=
      existsb (fun msg => isAgentRole (msg_role msg))
        (pl_messages resolvedPayload) in
    let headers :=
      <[X_Initiator := if isAgentCall then lit "agent" else lit "user"]>
        (copilotHeaders state enableVision) in
    ret (mkRequest (copilotBaseUrl state ++ lit "/chat/completions")
           headers resolvedPayload).

Definition createChatCompletions (state : State)
    (payload : ChatCompletionsPayload) : result Completion :=
  let* request := upstreamRequest state payload in
  let* response := post request in
  if negb (ok response) then
    let* body := response_text response in
    throw (HTTPError (lit "Failed to create chat completions") body)
  else if from_option id false (pl_stream (req_body request)) then
    ret (EventStream response)
  else
    let* body := response_json response in
    ret (Json body).

End Network.

End CreateChatCompletions.
Import CreateChatCompletions.

(** ** The streaming translator *)

Module StreamTranslation.

Inductive BlockStart : Type :=
| TextStart
| ToolUseStart (id name : str).

Inductive BlockDelta : Type :=
| TextDelta (text : str)
| InputJsonDelta (partial_json : str).

(** The events of the source protocol's stream. *)
Inductive AnthropicStreamEvent : Type :=
| Ping
| MessageStart (id model : str)
| ContentBlockStart (index : nat) (content_block : BlockStart)
| ContentBlockDelta (index : nat) (delta : BlockDelta)
| ContentBlockStop (index : nat)
| MessageDelta (stop_reason : option StopReason) (usage : option Usage)
| MessageStop
| ErrorEvent.

Record ToolCallInfo : Type := mkToolCallInfo {
  source_id : str;
  tool_name : str;
  block_index : nat;
  arguments_emitted_so_far : str
}.

(** [AnthropicStreamState], with the fields [handleCompletion] initialises. *)
Record AnthropicStreamState : Type := mkStreamState {
  messageStartSent : bool;
  contentBlockIndex : nat;
  contentBlockOpen : bool;
  toolCalls : gmap nat ToolCallInfo
}.

Abbreviation emitted := (list AnthropicStreamEvent * AnthropicStreamState)%type
  (only parsing).

(** Modelled from the spec: [translateChunkToAnthropicEvents] and its
    helpers live in [stream-translation.ts], outside the files embedded
    here. What follows is section 4.3, steps 1 to 4, applied to one
    fragment; a fragment's delta and finish reason are those of its first
    choice. Closing a block emits its stop event and moves the index on. *)
Definition closeBlock (st : AnthropicStreamState) : emitted :=
  if contentBlockOpen st then
    ([ContentBlockStop (contentBlockIndex st)],
     mkStreamState (messageStartSent st) (S (contentBlockIndex st)) false
       (toolCalls st))
  else ([], st).

(** Modelled from the spec: whether the open block is a tool-use block
    (section 4.3, step 2). *)
Definition isToolBlockOpen (st : AnthropicStreamState) : bool :=
  contentBlockOpen st
  && bool_decide
       (map_Exists (fun _ info => block_index info = contentBlockIndex st)
          (toolCalls st)).

(** Modelled from the spec: section 4.3, step 1. *)
Definition stepMessageStart (chunk : ChatCompletionChunk)
    (st : AnthropicStreamState) : emitted :=
  if negb (messageStartSent st) then
    ([MessageStart (chunk_id chunk) (chunk_model chunk)],
     mkStreamState true (contentBlockIndex st) (contentBlockOpen st)
       (toolCalls st))
  else ([], st).

(** Modelled from the spec: section 4.3, step 2. *)
Definition stepContent (delta : Delta) (st : AnthropicStreamState) : emitted :=
  match delta_content delta with
  | Some (c :: text) =>
      let '(opening, st1) :=
        if negb (contentBlockOpen st) || isToolBlockOpen st then
          let '(closing, st0) := closeBlock st in
          (closing ++ [ContentBlockStart (contentBlockIndex st0) TextStart],
           mkStreamState (messageStartSent st0) (contentBlockIndex st0) true
             (toolCalls st0))
        else ([], st) in
      (opening
         ++ [ContentBlockDelta (contentBlockIndex st1) (TextDelta (c :: text))],
       st1)
  | _ => ([], st)
  end.

(** Modelled from the spec: section 4.3, step 3, for one entry of
    [delta.tool_calls]. An entry that opens a call without [id] or [name]
    is malformed and fails (section 7). *)
Definition stepToolCall (acc : emitted) (toolCall : ToolCallDelta)
    : result emitted :=
  let '(events, st) := acc in
  let* opened :=
    match toolCalls st !! tcd_index toolCall with
    | Some _ => ret (events, st)
    | None =>
        let '(closing, st0) := closeBlock st in
        match tcd_id toolCall, tcd_name toolCall with
        | Some id, Some name =>
            ret (events ++ closing
                   ++ [ContentBlockStart (contentBlockIndex st0)
                         (ToolUseStart id name)],
                 mkStreamState (messageStartSent st0) (contentBlockIndex st0)
                   true
                   (<[tcd_index toolCall :=
                        mkToolCallInfo id name (contentBlockIndex st0) []]>
                      (toolCalls st0)))
        | _, _ => throw (Error (lit "malformed tool call"))
        end
    end in
  let '(events, st) := opened in
  match tcd_arguments toolCall, toolCalls st !! tcd_index toolCall with
  | Some arguments, Some info =>
      ret (events
             ++ [ContentBlockDelta (block_index info)
                   (InputJsonDelta arguments)],
           mkStreamState (messageStartSent st) (contentBlockIndex st)
             (contentBlockOpen st)
             (<[tcd_index toolCall :=
                  mkToolCallInfo (source_id info) (tool_name info)
                    (block_index info)
                    (arguments_emitted_so_far info ++ arguments)]>
                (toolCalls st)))
  | _, _ => ret (events, st)
  end.

(** Modelled from the spec: section 4.3, step 4. *)
Definition stepFinish (finish_reason : option FinishReason)
    (usage : option Usage) (st : AnthropicStreamState) : emitted :=
  match finish_reason with
  | Some reason =>
      let '(closing, st0) := closeBlock st in
      (closing
         ++ [MessageDelta (mapOpenAIStopReasonToAnthropic (Some reason)) usage;
             MessageStop],
       st0)
  | None => ([], st)
  end.

(** Modelled from the spec: steps 2 to 4 of section 4.3 on the delta and
    the finish reason of one choice. *)
Definition stepChoice (chunk : ChatCompletionChunk) (choice : Choice)
    (st : AnthropicStreamState) : result emitted :=
  let '(events2, st2) := stepContent (sc_delta choice) st in
  let* calls :=
    foldM stepToolCall
      (default [] (delta_tool_calls (sc_delta choice))) ([], st2) in
  let '(events3, st3) := calls in
  let '(events4, st4) :=
    stepFinish (sc_finish_reason choice) (chunk_usage chunk) st3 in
  ret (events2 ++ events3 ++ events4, st4).

(** Modelled from the spec: [translateChunkToAnthropicEvents], the four
    steps in order. It returns the events of the fragment and the updated
    accumulator, or throws. *)
Definition translateChunkToAnthropicEvents (chunk : ChatCompletionChunk)
    (st : AnthropicStreamState) : result emitted :=
  let '(events1, st1) := stepMessageStart chunk st in
  match chunk_choices chunk with
  | [] => ret (events1, st1)
  | choice :: _ =>
      let* steps := stepChoice chunk choice st1 in
      let '(events, st') := steps in
      ret (events1 ++ events, st')
  end.

(** Modelled from the spec: [translateErrorToAnthropicErrorEvent], the
    single terminal error event of section 7. *)
Definition translateErrorToAnthropicErrorEvent : AnthropicStreamEvent :=
  ErrorEvent.

End StreamTranslation.
Import StreamTranslation.

(** ** [routes/messages/handler.ts]: the streaming branch of
    [handleCompletion] *)

Module Handler.

(** One event of the upstream server-sent stream. *)
Record RawEvent : Type := mkRawEvent {
  data : option str
}.

Definition DONE : str := lit "[DONE]".

Section Stream.

(** [JSON.parse(rawEvent.data) as ChatCompletionChunk]; [None] when it
    throws. *)
Variable JSON_parse : str -> option ChatCompletionChunk.

(** What the [try] block computes before it writes anything. *)
Definition translateRaw (rawData : str) (streamState : AnthropicStreamState)
    : result (list AnthropicStreamEvent * AnthropicStreamState) :=
  match JSON_parse rawData with
  | Some chunk => translateChunkToAnthropicEvents chunk streamState
  | None => throw (SyntaxError rawData)
  end.

(** [for await (const rawEvent of response)]: the events written for the
    raw events that are left, from the current stream state. *)
Fixpoint streamLoop (response : list RawEvent)
    (streamState : AnthropicStreamState) : list AnthropicStreamEvent :=
  match response with
  | [] => []
  | rawEvent :: rest =>
      if bool_decide (data rawEvent = Some DONE) then []          (* break *)
      else
        match data rawEvent with
        | None | Some [] => streamLoop rest streamState         (* continue *)
        | Some rawData =>
            match translateRaw rawData streamState with
            | inr (events, streamState') =>
                events ++ streamLoop rest streamState'
            | inl err =>
                [translateErrorToAnthropicErrorEvent]             (* break *)
            end
        end
  end.

(** The callback of [streamSSE]: everything written to the stream. An
    event is written as its type and its JSON text; the model keeps the
    event. The loop ends at the terminator without writing anything. *)
Definition streamCompletion (response : list RawEvent)
    : list AnthropicStreamEvent :=
  let streamState := mkStreamState false 0 false ∅ in
  Ping :: streamLoop response streamState.

End Stream.

End Handler.
Import Handler.

(** ** Notions the statements use *)

Module Semantics.

(** What it means for a pattern to match: [Matches r i a b caps caps'] says
    that [r], started at position [i] with captures [caps], consumes [a]
    in front of the remaining input [b] and leaves the captures [caps']. *)
Inductive Matches : regex -> nat -> str -> str ->
    gmap nat (list N) -> gmap nat (list N) -> Prop :=
| M_Eps i b c : Matches Eps i [] b c c
| M_Chr x i b c : Matches (Chr x) i [x] b c c
| M_Dot x i b c :
    is_line_terminator x = false -> Matches Dot i [x] b c c
| M_Digit x i b c :
    is_digit x = true -> Matches Digit i [x] b c c
| M_Cat r1 r2 i a1 a2 b c c1 c2 :
    Matches r1 i a1 (a2 ++ b) c c1 ->
    Matches r2 (i + length a1) a2 b c1 c2 ->
    Matches (Cat r1 r2) i (a1 ++ a2) b c c2
| M_Star_nil r i b c : Matches (Star r) i [] b c c
| M_Star_cons r i a1 a2 b c c1 c2 :
    a1 <> [] ->
    Matches r i a1 (a2 ++ b) c c1 ->
    Matches (Star r) (i + length a1) a2 b c1 c2 ->
    Matches (Star r) i (a1 ++ a2) b c c2
| M_Group n r i a b c c1 :
    Matches r i a b c c1 ->
    Matches (Group n r) i a b c (<[n := a]> c1)
| M_Bol b c : Matches Bol 0 [] b c c
| M_Eol i c : Matches Eol i [] [] c c.

(** [<digits>]: one digit or more. *)
Definition digits (d : str) : Prop :=
  d <> [] /\ forallb is_digit d = true.

(** No line terminator: what [.*] can run over. *)
Definition one_line (p : str) : Prop :=
  forallb (fun c => negb (is_line_terminator c)) p = true.

Definition hyphen : N := 45%N.
Definition dot : N := 46%N.

(** The string ends in [-<digits>-<digits>], after the prefix [p]. *)
Definition hyphen_pair (t p d1 d2 : str) : Prop :=
  t = p ++ hyphen :: d1 ++ hyphen :: d2 /\ digits d1 /\ digits d2.

(** The prefix holds a [-<digits>] segment of its own. *)
Definition has_hyphen_digits (p : str) : Prop :=
  exists u d v, p = u ++ hyphen :: d :: v /\ is_digit d = true.

(** A decision procedure for [has_hyphen_digits]. *)
Fixpoint has_hyphen_digitsb (p : str) : bool :=
  match p with
  | c :: p' =>
      match p' with
      | d :: _ => ((c =? hyphen)%N && is_digit d) || has_hyphen_digitsb p'
      | [] => false
      end
  | [] => false
  end.

(** The string the hyphen-to-dot step of [translateModelName] receives:
    the model name after the two stripping steps. *)
Definition stripped (model : str) : str :=
  stripDateSuffix (stripBracketSuffix model).

(** How one choice updates [stopReason] in the loop of
    [translateToAnthropic]. *)
Definition nextStopReason (stopReason : option FinishReason)
    (finish_reason : FinishReason) : option FinishReason :=
  if isToolCalls finish_reason || isStop stopReason
  then Some finish_reason
  else stopReason.

(** Every tool call of the response carries arguments that parse. *)
Definition arguments_parse {json} (JSON_parse : str -> option json)
    (response : ChatCompletionResponse) : Prop :=
  Forall (fun choice =>
            Forall (fun toolCall => is_Some (JSON_parse (tc_arguments toolCall)))
              (default [] (rm_tool_calls (choice_message choice))))
    (resp_choices response).

(** The text of the text and thinking blocks, in the blocks' original
    order: what the spec asks the content mapping to join. *)
Fixpoint texts_in_order {json} (blocks : list (AnthropicBlock json))
    : list str :=
  match blocks with
  | [] => []
  | TextBlock text :: rest => text :: texts_in_order rest
  | ThinkingBlock thinking :: rest => thinking :: texts_in_order rest
  | _ :: rest => texts_in_order rest
  end.

Definition collapsed {json} (blocks : list (AnthropicBlock json)) : str :=
  join blank_line (texts_in_order blocks).

(** No thinking block comes before a text block. *)
Definition text_before_thinking {json} (blocks : list (AnthropicBlock json))
    : Prop :=
  forall i j thinking text,
    blocks !! i = Some (ThinkingBlock thinking) ->
    blocks !! j = Some (TextBlock text) ->
    j < i.

(** Kinds of stream events. *)
Definition isMessageStart (event : AnthropicStreamEvent) : bool :=
  match event with MessageStart _ _ => true | _ => false end.

Definition isContentBlockEvent (event : AnthropicStreamEvent) : bool :=
  match event with
  | ContentBlockStart _ _ | ContentBlockDelta _ _ | ContentBlockStop _ => true
  | _ => false
  end.

(** The first fragment of an upstream stream: the data of the first event
    that brings any, unless the terminator comes before it. *)
Fixpoint firstFragment (response : list RawEvent) : option str :=
  match response with
  | [] => None
  | rawEvent :: rest =>
      match data rawEvent with
      | None | Some [] => firstFragment rest
      | Some rawData =>
          if bool_decide (rawData = DONE) then None else Some rawData
      end
  end.

(** The first fragment as a chunk, when it can be read and is translated
    without error from the state the stream starts in. *)
Definition firstTranslated (JSON_parse : str -> option ChatCompletionChunk)
    (response : list RawEvent) : option ChatCompletionChunk :=
  match firstFragment response with
  | None => None
  | Some rawData =>
      match translateRaw JSON_parse rawData (mkStreamState false 0 false ∅) with
      | inr _ => JSON_parse rawData
      | inl _ => None
      end
  end.

(** The cached tokens a usage reports, none when the detail is absent. *)
Definition cached_or_zero (usage : Usage) : Z :=
  match prompt_tokens_details usage with
  | Some details => cached_tokens details
  | None => 0%Z
  end.

(** The counts of a usage are safe integers, and so is the difference the
    translator computes: two safe integers may differ by a number that
    takes 54 bits. *)
Definition safe_counts (usage : Usage) : Prop :=
  isSafeInteger (prompt_tokens usage) = true
  /\ isSafeInteger (completion_tokens usage) = true
  /\ isSafeInteger (cached_or_zero usage) = true
  /\ isSafeInteger (prompt_tokens usage - cached_or_zero usage) = true.

End Semantics.
Import Semantics.

(** ** Sample inputs *)

Module Samples.

(** Tool inputs are opaque here: one value, printed as the empty object. *)
Definition sample_stringify (input : unit) : str := lit "{}".

(** An assistant turn that only calls a tool, and one that thinks, speaks
    and then calls the tool. *)
Definition weather_call : AnthropicBlock unit :=
  ToolUseBlock (lit "toolu_1") (lit "get_weather") tt.

Definition call_only : list (AnthropicBlock unit) := [weather_call].

Definition think_speak_call : list (AnthropicBlock unit) :=
  [ThinkingBlock (lit "T"); TextBlock (lit "A"); weather_call].

Definition speak_think_call : list (AnthropicBlock unit) :=
  [TextBlock (lit "A"); ThinkingBlock (lit "T"); weather_call].

(** A network on which every request fails, and a payload whose user turn
    shows one image that lives on a web server. *)
Definition unreachable (url : str) : Exn + HttpResponse := inl NetworkError.

Definition remote_image : ContentPart :=
  ImagePart (mkImageUrl (lit "https://example.com/cat.png") None).

Definition remote_image_payload : ChatCompletionsPayload :=
  mkPayload
    [mkMessage RoleUser
       (ContentParts [TextPart (lit "what is this?"); remote_image])
       None None]
    (lit "claude-sonnet-4") None.

(** A conversation that has already seen an assistant turn and a tool
    result. *)
Definition agent_payload : ChatCompletionsPayload :=
  mkPayload
    [mkMessage RoleUser (ContentString (lit "weather?")) None None;
     mkMessage RoleAssistant ContentNull
       (Some [mkToolCall (lit "toolu_1") (lit "get_weather") (lit "{}")]) None;
     mkMessage RoleTool (ContentString (lit "sunny")) None (Some (lit "toolu_1"))]
    (lit "claude-sonnet-4") None.

(** A state with a token, no headers of its own and the public endpoint. *)
Definition sample_token (state : unit) : option str := Some (lit "token").

Definition sample_headers (state : unit) (vision : bool)
    : gmap (list N) (list N) := ∅.

Definition sample_base_url (state : unit) : str :=
  lit "https://api.githubcopilot.com".

(** A parser that rejects everything, and one that reads every fragment
    as the same text delta. *)
Definition never_parses (rawData : str) : option ChatCompletionChunk := None.

Definition hello_chunk : ChatCompletionChunk :=
  mkChunk (lit "chatcmpl-3") (lit "claude-sonnet-4")
    [mkStreamChoice 0 (mkDelta (Some (lit "Hel")) None None) None] None.

Definition parses_hello (rawData : str) : option ChatCompletionChunk :=
  Some hello_chunk.

(** A choice that carries text only. *)
Definition textChoice (index : nat) (text : str) (reason : FinishReason)
    : ChoiceNonStreaming :=
  mkChoice index (mkResponseMessage (ContentString text) None) reason.

(** A response of two choices: the first one stopped by itself, the second
    one ran into the token limit. *)
Definition stop_then_length : ChatCompletionResponse :=
  mkResponse (lit "chatcmpl-1") (lit "claude-sonnet-4")
    [textChoice 0 (lit "a") FinishStop; textChoice 1 (lit "b") FinishLength]
    None.

(** A response with usage: 100 prompt tokens, 30 of them read from the
    cache, and 20 completion tokens. *)
Definition cached_response : ChatCompletionResponse :=
  mkResponse (lit "chatcmpl-2") (lit "claude-sonnet-4")
    [textChoice 0 (lit "hello") FinishStop]
    (Some (mkUsage 100 20 120 (Some (mkDetails 30)))).

(** The three fragments of a short answer, and a parser that reads the
    raw data "1", "2" and "3" as these fragments. *)
Definition fragments : list ChatCompletionChunk :=
  [mkChunk (lit "chatcmpl-4") (lit "claude-sonnet-4")
     [mkStreamChoice 0 (mkDelta (Some (lit "Hel")) None None) None] None;
   mkChunk (lit "chatcmpl-4") (lit "claude-sonnet-4")
     [mkStreamChoice 0 (mkDelta (Some (lit "lo")) None None) None] None;
   mkChunk (lit "chatcmpl-4") (lit "claude-sonnet-4")
     [mkStreamChoice 0 (mkDelta None None None) (Some FinishStop)] None].

Definition parses_fragments (rawData : str) : option ChatCompletionChunk :=
  match rawData with
  | [c] => fragments !! (N.to_nat c - 49)
  | _ => None
  end.

End Samples.
Import Samples.

(** ** [non-stream-translation.ts]: the system prompt, the tools and the
    whole request *)

Module RequestPayload.

(** [s.split("\n")] *)
Fixpoint split_lines (s : str) : list str :=
  match s with
  | [] => [[]]
  | c :: s' =>
      if (c =? 10)%N then [] :: split_lines s'
      else
        match split_lines s' with
        | line :: lines => (c :: line) :: lines
        | [] => [[c]]
        end
  end.

(** [s.includes(sub)] *)
Fixpoint includes (s sub : str) : bool :=
  startsWith s sub
  || match s with
     | [] => false
     | _ :: s' => includes s' sub
     end.

(** WhiteSpace and LineTerminator of ECMA-262: what [trim] removes. *)
Definition is_whitespace (c : code_unit) : bool :=
  ((9 <=? c) && (c <=? 13) || (c =? 32) || (c =? 160) || (c =? 5760)
   || (8192 <=? c) && (c <=? 8202) || (c =? 8232) || (c =? 8233)
   || (c =? 8239) || (c =? 8287) || (c =? 12288) || (c =? 65279))%N.

Fixpoint trimStart (s : str) : str :=
  match s with
  | c :: s' => if is_whitespace c then trimStart s' else s
  | [] => []
  end.

Definition trimEnd (s : str) : str := rev (trimStart (rev s)).

(** [s.trim()] *)
Definition trim (s : str) : str := trimEnd (trimStart s).

Definition COPILOT_RESERVED_KEYWORDS : list str :=
  [lit "<x-anthropic-billing-header>"; lit "x-anthropic-billing-header"].

(** [system]: a string or an array of text blocks. *)
Record AnthropicTextBlock : Type := mkTextBlock {
  tb_text : str
}.

Inductive SystemPrompt : Type :=
| SystemString (s : str)
| SystemBlocks (blocks : list AnthropicTextBlock).

(** [tool_choice] of the source protocol and of the upstream protocol. *)
Inductive AnthropicToolChoiceType : Type :=
| ChoiceAuto | ChoiceAny | ChoiceTool | ChoiceNone
| ChoiceOther (type : str).

Record AnthropicToolChoice : Type := mkToolChoice {
  atc_type : AnthropicToolChoiceType;
  atc_name : option str
}.

Inductive ToolChoice : Type :=
| ToolChoiceNone
| ToolChoiceAuto
| ToolChoiceRequired
| ToolChoiceFunction (name : str).

Definition translateAnthropicToolChoiceToOpenAI
    (anthropicToolChoice : option AnthropicToolChoice) : option ToolChoice :=
  match anthropicToolChoice with
  | None => None
  | Some anthropicToolChoice =>
      match atc_type anthropicToolChoice with
      | ChoiceAuto => Some ToolChoiceAuto
      | ChoiceAny => Some ToolChoiceRequired
      | ChoiceTool =>
          if from_option truthy false (atc_name anthropicToolChoice)
          then Some (ToolChoiceFunction
                       (default [] (atc_name anthropicToolChoice)))
          else None
      | ChoiceNone => Some ToolChoiceNone
      | ChoiceOther _ => None
      end
  end.

Section Request.

Variable json : Type.
Variable JSON_stringify : json -> str.

(** [String.prototype.toLowerCase], with the case tables of Unicode. *)
Variable toLowerCase : str -> str.

(** Numbers that are handed on without being looked at. *)
Variable number : Type.

(** The predicate of the [filter] in [sanitizeSystemPrompt], before its
    negation: the line names a reserved keyword. *)
Definition isReservedLine (line : str) : bool :=
  existsb (fun kw => includes (toLowerCase line) (toLowerCase kw))
    COPILOT_RESERVED_KEYWORDS.

Definition sanitizeSystemPrompt (text : str) : str :=
  let lines := split_lines text in
  let filtered := List.filter (fun line => negb (isReservedLine line)) lines in
  trim (join [10%N] filtered).

Definition handleSystemPrompt (system : option SystemPrompt) : list Message :=
  match system with
  | None => []
  | Some (SystemString s) =>
      if negb (truthy s) then []
      else
        let content := sanitizeSystemPrompt s in
        if negb (truthy content) then []
        else [mkMessage RoleSystem (ContentString content) None None]
  | Some (SystemBlocks blocks) =>
      let systemText := join blank_line (map tb_text blocks) in
      let content := sanitizeSystemPrompt systemText in
      if negb (truthy content) then []
      else [mkMessage RoleSystem (ContentString content) None None]
  end.

Definition translateAnthropicMessagesToOpenAI
    (anthropicMessages : list (AnthropicMessage json))
    (system : option SystemPrompt) : list Message :=
  let systemMessages := handleSystemPrompt system in
  let otherMessages :=
    flat_map (translateMessage JSON_stringify) anthropicMessages in
  systemMessages ++ otherMessages.

Record AnthropicTool : Type := mkAnthropicTool {
  at_name : str;
  at_description : option str;
  at_input_schema : json
}.

Record Tool : Type := mkTool {
  fn_name : str;
  fn_description : option str;
  fn_parameters : json
}.

Definition translateAnthropicToolsToOpenAI
    (anthropicTools : option (list AnthropicTool)) : option (list Tool) :=
  match anthropicTools with
  | None => None
  | Some anthropicTools =>
      Some (map (fun tool =>
                   mkTool (at_name tool) (at_description tool)
                     (at_input_schema tool)) anthropicTools)
  end.

Record AnthropicMessagesPayload : Type := mkAnthropicPayload {
  amp_model : str;
  amp_messages : list (AnthropicMessage json);
  amp_system : option SystemPrompt;
  amp_max_tokens : option number;
  amp_stop_sequences : option (list str);
  amp_stream : option bool;
  amp_temperature : option number;
  amp_top_p : option number;
  amp_user_id : option str;          (* metadata?.user_id *)
  amp_tools : option (list AnthropicTool);
  amp_tool_choice : option AnthropicToolChoice
}.

(** The fields of an upstream payload that [ChatCompletionsPayload] above
    leaves out. *)
Record PayloadOptions : Type := mkOptions {
  opt_max_tokens : option number;
  opt_stop : option (list str);
  opt_temperature : option number;
  opt_top_p : option number;
  opt_user : option str;
  opt_tools : option (list Tool);
  opt_tool_choice : option ToolChoice
}.

(** The payload [translateToOpenAI] builds, as the record the upstream call
    reads and the record of the fields it hands on. *)
Definition translateToOpenAI (payload : AnthropicMessagesPayload)
    : ChatCompletionsPayload * PayloadOptions :=
  (mkPayload
     (translateAnthropicMessagesToOpenAI (amp_messages payload)
        (amp_system payload))
     (translateModelName (amp_model payload))
     (amp_stream payload),
   mkOptions
     (amp_max_tokens payload)
     (amp_stop_sequences payload)
     (amp_temperature payload)
     (amp_top_p payload)
     (amp_user_id payload)
     (translateAnthropicToolsToOpenAI (amp_tools payload))
     (translateAnthropicToolChoiceToOpenAI (amp_tool_choice payload))).

End Request.

Arguments translateAnthropicMessagesToOpenAI {json} JSON_stringify toLowerCase
  anthropicMessages system.
Arguments mkAnthropicTool {json}.
Arguments at_name {json}.
Arguments at_description {json}.
Arguments at_input_schema {json}.
Arguments mkTool {json}.
Arguments fn_name {json}.
Arguments fn_description {json}.
Arguments fn_parameters {json}.
Arguments translateAnthropicToolsToOpenAI {json} anthropicTools.
Arguments mkAnthropicPayload {json number}.
Arguments amp_model {json number}.
Arguments amp_messages {json number}.
Arguments amp_system {json number}.
Arguments amp_max_tokens {json number}.
Arguments amp_stop_sequences {json number}.
Arguments amp_stream {json number}.
Arguments amp_temperature {json number}.
Arguments amp_top_p {json number}.
Arguments amp_user_id {json number}.
Arguments amp_tools {json number}.
Arguments amp_tool_choice {json number}.
Arguments mkOptions {json number}.
Arguments opt_max_tokens {json number}.
Arguments opt_stop {json number}.
Arguments opt_temperature {json number}.
Arguments opt_top_p {json number}.
Arguments opt_user {json number}.
Arguments opt_tools {json number}.
Arguments opt_tool_choice {json number}.
Arguments translateToOpenAI {json} JSON_stringify toLowerCase {number} payload.

End RequestPayload.
Import RequestPayload.

(** ** More notions for the statements *)

Module Notions.

Definition isToolUse {json} (block : AnthropicBlock json) : bool :=
  match block with ToolUseBlock _ _ _ => true | _ => false end.

(** The blocks [mapContent] turns into content parts. *)
Definition isPartBlock {json} (block : AnthropicBlock json) : bool :=
  match block with
  | TextBlock _ | ThinkingBlock _ | ImageBlock _ _ => true
  | _ => false
  end.

(** The content part that stands for a block. *)
Definition part_for {json} (part : ContentPart) (block : AnthropicBlock json)
    : Prop :=
  match block with
  | TextBlock text => part = TextPart text
  | ThinkingBlock thinking => part = TextPart thinking
  | ImageBlock media_type data =>
      part = ImagePart
               (mkImageUrl
                  (lit "data:" ++ media_type ++ lit ";base64," ++ data) None)
  | _ => False
  end.

Definition part_for_result (part : ContentPart) (block : ToolResultPart)
    : Prop :=
  match block with
  | ResultText text => part = TextPart text
  | ResultImage media_type data =>
      part = ImagePart
               (mkImageUrl
                  (lit "data:" ++ media_type ++ lit ";base64," ++ data) None)
  end.

(** The texts of the text parts of a content, in order. *)
Definition part_texts (parts : list ContentPart) : list str :=
  flat_map (fun part =>
              match part with TextPart text => [text] | ImagePart _ => [] end)
    parts.

Definition result_texts (parts : list ToolResultPart) : list str :=
  flat_map (fun part =>
              match part with
              | ResultText text => [text]
              | ResultImage _ _ => []
              end) parts.

Definition isResultImage (part : ToolResultPart) : bool :=
  match part with ResultImage _ _ => true | ResultText _ => false end.

(** The upstream tool call that stands for a [tool_use] block. *)
Definition call_for {json} (JSON_stringify : json -> str) (call : ToolCall)
    (block : AnthropicBlock json) : Prop :=
  match block with
  | ToolUseBlock id name input =>
      call = mkToolCall id name (JSON_stringify input)
  | _ => False
  end.

(** The [tool_use] block that stands for an upstream tool call. *)
Definition block_for {json} (JSON_parse : str -> option json)
    (block : AnthropicBlock json) (call : ToolCall) : Prop :=
  exists input,
    JSON_parse (tc_arguments call) = Some input
    /\ block = ToolUseBlock (tc_id call) (tc_name call) input.

(** All the tool calls of a response, choice after choice. *)
Definition all_tool_calls (response : ChatCompletionResponse) : list ToolCall :=
  flat_map (fun choice => default [] (rm_tool_calls (choice_message choice)))
    (resp_choices response).

(** No content part of the message is an image that lives elsewhere. *)
Definition no_external_image (msg : Message) : Prop :=
  match msg_content msg with
  | ContentParts parts => existsb isExternalImage parts = false
  | _ => True
  end.

(** The [tool_use_id]s of the tool results of a conversation, in order. *)
Definition tool_result_ids {json} (messages : list (AnthropicMessage json))
    : list str :=
  flat_map (fun message =>
              match message with
              | UserMessage (BlockList blocks) =>
                  flat_map (fun block =>
                              match block with
                              | ToolResultBlock tool_use_id _ => [tool_use_id]
                              | _ => []
                              end) blocks
              | _ => []
              end) messages.

Definition isAssistantTurn {json} (message : AnthropicMessage json) : bool :=
  match message with AssistantMessage _ => true | UserMessage _ => false end.

(** A user turn that brings a tool result. *)
Definition hasToolResult {json} (message : AnthropicMessage json) : bool :=
  match message with
  | UserMessage (BlockList blocks) => existsb isToolResult blocks
  | _ => false
  end.

(** The [tool_call_id]s the messages of a payload carry, in order. *)
Definition tool_call_ids (messages : list Message) : list str :=
  flat_map (fun msg =>
              match msg_tool_call_id msg with
              | Some id => [id]
              | None => []
              end) messages.

Definition hasRole (role : Role) (msg : Message) : bool :=
  role_eqb (msg_role msg) role.

(** A raw event that brings data. *)
Definition hasData (rawEvent : RawEvent) : bool :=
  from_option truthy false (data rawEvent).

(** A turn that makes the call an agent call. *)
Definition isAgentTurn {json} (message : AnthropicMessage json) : bool :=
  isAssistantTurn message || hasToolResult message.

Definition isImagePart (part : ContentPart) : bool :=
  match part with ImagePart _ => true | TextPart _ => false end.

(** Some message shows an image. *)
Definition hasImage (messages : list Message) : bool :=
  existsb (fun msg =>
             match msg_content msg with
             | ContentParts parts => existsb isImagePart parts
             | _ => false
             end) messages.

(** A content part after its image has been fetched: an external image
    whose fetch succeeds is replaced by the data URI, with its detail; every
    other part stays. *)
Definition resolved_part (fetch : str -> result HttpResponse)
    (base64 : str -> str) (part : ContentPart) : ContentPart :=
  match part with
  | TextPart _ => part
  | ImagePart image_url =>
      if isExternalImage part then
        match fetchImageAsBase64 fetch base64 (url image_url) with
        | inr base64Url => ImagePart (mkImageUrl base64Url (detail image_url))
        | inl _ => part
        end
      else part
  end.

Definition resolved_message (fetch : str -> result HttpResponse)
    (base64 : str -> str) (msg : Message) : Message :=
  match msg_content msg with
  | ContentParts parts =>
      mkMessage (msg_role msg)
        (ContentParts (map (resolved_part fetch base64) parts))
        (msg_tool_calls msg) (msg_tool_call_id msg)
  | _ => msg
  end.

End Notions.
Import Notions.

(** ** More sample inputs *)

Module MoreSamples.

Definition sample_parse (text : str) : option unit := Some tt.

(** Lower case for the letters A to Z; every other code unit stays. *)
Definition ascii_lower (s : str) : str :=
  map (fun c => if ((65 <=? c) && (c <=? 90))%N then (c + 32)%N else c) s.

(** A network on which every request is answered with the same picture. *)
Definition reachable (url : str) : Exn + HttpResponse :=
  inr (mkHttpResponse true (Some (lit "image/png")) (inr (lit "abc"))
         (inr (lit "abc")) (inl (SyntaxError (lit "abc")))).

(** An upstream that answers every request with the same completion, one
    that rejects every request with the same text, and one whose answer is
    ok but is a page of HTML. *)
Definition accepts (request : Request) : Exn + HttpResponse :=
  inr (mkHttpResponse true (Some (lit "application/json")) (inr (lit "{}"))
         (inr (lit "{}")) (inr cached_response)).

Definition rejects (request : Request) : Exn + HttpResponse :=
  inr (mkHttpResponse false None (inr (lit "quota exceeded"))
         (inr (lit "quota exceeded"))
         (inl (SyntaxError (lit "quota exceeded")))).

Definition answers_html (request : Request) : Exn + HttpResponse :=
  inr (mkHttpResponse true (Some (lit "text/html")) (inr (lit "<html>"))
         (inr (lit "<html>")) (inl (SyntaxError (lit "<html>")))).

(** A conversation: a question, a tool call and its result. *)
Definition weather_conversation : list (AnthropicMessage unit) :=
  [UserMessage (PlainText (lit "weather?"));
   AssistantMessage (BlockList call_only);
   UserMessage
     (BlockList [ToolResultBlock (lit "toolu_1") (ResultString (lit "sunny"))])].

Definition weather_request : AnthropicMessagesPayload unit N :=
  mkAnthropicPayload (lit "claude-sonnet-4-5") weather_conversation
    (Some (SystemString (lit "Be brief."))) None None None None None None
    None None.

End MoreSamples.
Import MoreSamples.

(* ===================================================================== *)
(** * Part II: theorems                                                   *)
(* ===================================================================== *)

(** ** Scenarios

    The examples the sources and the spec give, run on the model. *)

Example normalize_bracket :
  translateModelName (lit "claude-opus-4.6[1m]") = lit "claude-opus-4.6".
Proof. vm_compute. reflexivity. Qed.

Example normalize_date :
  translateModelName (lit "claude-sonnet-4-20250514") = lit "claude-sonnet-4".
Proof. vm_compute. reflexivity. Qed.

Example normalize_minor :
  translateModelName (lit "claude-haiku-4-5") = lit "claude-haiku-4.5".
Proof. vm_compute. reflexivity. Qed.

Example normalize_all_three :
  translateModelName (lit "claude-haiku-4-5-20251001[1m]")
  = lit "claude-haiku-4.5".
Proof. vm_compute. reflexivity. Qed.

Example normalize_unmatched :
  translateModelName (lit "gpt-4o") = lit "gpt-4o".
Proof. vm_compute. reflexivity. Qed.

Example user_turn_with_tool_result :
  translateMessage sample_stringify
    (UserMessage
       (BlockList
          [ToolResultBlock (lit "t1") (ResultString (lit "42"));
           TextBlock (lit "thanks")]))
  = [mkMessage RoleTool (ContentString (lit "42")) None (Some (lit "t1"));
     mkMessage RoleUser (ContentString (lit "thanks")) None None].
Proof. reflexivity. Qed.

Example image_turn :
  mapContent
    (BlockList
       [TextBlock (lit "look"); ImageBlock (lit "image/png") (lit "AAAA");
        weather_call])
  = ContentParts
      [TextPart (lit "look");
       ImagePart (mkImageUrl (lit "data:image/png;base64,AAAA") None)].
Proof. reflexivity. Qed.

Example short_answer_stream :
  streamCompletion parses_fragments
    [mkRawEvent (Some (lit "1")); mkRawEvent None; mkRawEvent (Some (lit "2"));
     mkRawEvent (Some (lit "3")); mkRawEvent (Some DONE)]
  = [Ping;
     MessageStart (lit "chatcmpl-4") (lit "claude-sonnet-4");
     ContentBlockStart 0 TextStart;
     ContentBlockDelta 0 (TextDelta (lit "Hel"));
     ContentBlockDelta 0 (TextDelta (lit "lo"));
     ContentBlockStop 0;
     MessageDelta (Some EndTurn) None;
     MessageStop].
Proof. reflexivity. Qed.

(** ** The matcher against the meaning of patterns *)

Section MatcherCorrect.

Implicit Types (r : regex) (i : nat) (s a b : list N).

Lemma one_sound P i s caps k res :
  one P i s caps k = Some res ->
  exists x s', s = x :: s' /\ P x = true /\ k (S i) s' caps = Some res.
Proof.
  unfold one. destruct s as [|x s']; [discriminate|].
  destruct (P x) eqn:HP; [|discriminate]. eauto.
Qed.

Lemma star_sound r step :
  (forall i s caps k res, step i s caps k = Some res ->
     exists a b caps', s = a ++ b /\ Matches r i a b caps caps'
                       /\ k (i + length a) b caps' = Some res) ->
  forall fuel i s caps k res, star step fuel i s caps k = Some res ->
    exists a b caps', s = a ++ b /\ Matches (Star r) i a b caps caps'
                      /\ k (i + length a) b caps' = Some res.
Proof.
  intros Hstep. induction fuel as [|fuel IH]; intros i s caps k res H; simpl in H.
  - exists [], s, caps. rewrite Nat.add_0_r. split; [done|]. split; [constructor|done].
  - match type of H with
    | match ?e with _ => _ end = _ => destruct e as [res'|] eqn:E
    end.
    + inversion H; subst res'; clear H.
      apply Hstep in E. destruct E as (a1 & b1 & c1 & -> & Hm & Hk).
      destruct (Nat.eqb_spec (i + length a1) i) as [Heq|Hne]; [discriminate|].
      apply IH in Hk. destruct Hk as (a2 & b & c2 & -> & Hm2 & Hk).
      exists (a1 ++ a2), b, c2. rewrite <- app_assoc. split; [done|]. split.
      * apply M_Star_cons with (c1 := c1); [|done..].
        intros ->. simpl in Hne. lia.
      * rewrite length_app, Nat.add_assoc. done.
    + exists [], s, caps. rewrite Nat.add_0_r. split; [done|]. split; [constructor|done].
Qed.

Lemma matcher_sound r : forall i s caps k res,
  matcher r i s caps k = Some res ->
  exists a b caps', s = a ++ b /\ Matches r i a b caps caps'
                    /\ k (i + length a) b caps' = Some res.
Proof.
  induction r as [|c| | |r1 IH1 r2 IH2|r IH|n r IH| |]; intros i s caps k res H; simpl in H.
  - exists [], s, caps. rewrite Nat.add_0_r. repeat split; [constructor|done].
  - apply one_sound in H. destruct H as (x & s' & -> & Hx & Hk).
    apply N.eqb_eq in Hx. subst x. exists [c], s', caps.
    rewrite Nat.add_1_r. repeat split; [constructor|done].
  - apply one_sound in H. destruct H as (x & s' & -> & Hx & Hk).
    apply negb_true_iff in Hx. exists [x], s', caps.
    rewrite Nat.add_1_r. repeat split; [by constructor|done].
  - apply one_sound in H. destruct H as (x & s' & -> & Hx & Hk).
    exists [x], s', caps.
    rewrite Nat.add_1_r. repeat split; [by constructor|done].
  - apply IH1 in H. destruct H as (a1 & b1 & c1 & -> & Hm1 & H).
    apply IH2 in H. destruct H as (a2 & b & c2 & -> & Hm2 & H).
    exists (a1 ++ a2), b, c2. rewrite <- app_assoc. split; [done|]. split.
    + by apply M_Cat with (c1 := c1).
    + rewrite length_app, Nat.add_assoc. done.
  - eapply star_sound; [|exact H]. exact IH.
  - apply IH in H. destruct H as (a & b & c1 & -> & Hm & H).
    exists a, b, (<[n := a]> c1). split; [done|]. split; [by constructor|].
    replace (i + length a - i) with (length a) in H by lia.
    rewrite firstn_app, Nat.sub_diag, firstn_all in H. simpl in H.
    rewrite app_nil_r in H. done.
  - destruct (Nat.eqb_spec i 0) as [->|]; [|discriminate].
    exists [], s, caps. repeat split; [constructor|done].
  - destruct s; [|discriminate].
    exists [], [], caps. rewrite Nat.add_0_r. repeat split; [constructor|done].
Qed.

Lemma star_fallback step fuel i s caps k :
  is_Some (k i s caps) -> is_Some (star step fuel i s caps k).
Proof.
  intros Hk. destruct fuel as [|fuel]; simpl; [done|].
  match goal with |- is_Some (match ?e with _ => _ end) => destruct e end; eauto.
Qed.

Lemma firstn_consumed i a b : firstn (i + length a - i) (a ++ b) = a.
Proof.
  replace (i + length a - i) with (length a) by lia.
  rewrite firstn_app, Nat.sub_diag, firstn_all. simpl. apply app_nil_r.
Qed.

Lemma matcher_complete_aux r i a b c c' :
  Matches r i a b c c' ->
  (forall k, is_Some (k (i + length a) b c') ->
     is_Some (matcher r i (a ++ b) c k))
  /\ (forall r' fuel k, r = Star r' -> length (a ++ b) <= fuel ->
        is_Some (k (i + length a) b c') ->
        is_Some (star (matcher r') fuel i (a ++ b) c k)).
Proof.
  induction 1 as [i b c|x i b c|x i b c Hx|x i b c Hx
                 |r1 r2 i a1 a2 b c c1 c2 _ [IH1 _] _ [IH2 _]
                 |r i b c
                 |r i a1 a2 b c c1 c2 Hne _ [IH1 _] _ [_ IH2]
                 |n r i a b c c1 _ [IH _]
                 |b c|i c];
    (split; [intros k Hk|intros r' fuel k Hr Hfuel Hk; try discriminate Hr]);
    simpl in *; rewrite ?Nat.add_0_r, ?Nat.add_1_r in Hk.
  - done.
  - by rewrite N.eqb_refl.
  - by rewrite Hx.
  - by rewrite Hx.
  - rewrite <- app_assoc. apply IH1. apply IH2.
    by rewrite length_app, Nat.add_assoc in Hk.
  - by apply star_fallback.
  - by apply star_fallback.
  - rewrite <- app_assoc.
    assert (Hlen : length a1 <> 0) by (destruct a1; simpl; [done|lia]).
    rewrite !length_app. destruct (length a1 + (length a2 + length b)) as [|fuel] eqn:Hf; [lia|].
    simpl.
    match goal with |- is_Some (match ?e with _ => _ end) =>
      assert (Hs : is_Some e); [|destruct Hs as [x ->]; eauto] end.
    apply IH1.
    destruct (Nat.eqb_spec (i + length a1) i); [lia|].
    apply (IH2 r); [done|rewrite length_app; lia|].
    by rewrite length_app, Nat.add_assoc in Hk.
  - injection Hr as ->. rewrite <- app_assoc.
    assert (Hlen : length a1 <> 0) by (destruct a1; simpl; [done|lia]).
    rewrite <- app_assoc, !length_app in Hfuel.
    destruct fuel as [|fuel]; [lia|]. simpl.
    match goal with |- is_Some (match ?e with _ => _ end) =>
      assert (Hs : is_Some e); [|destruct Hs as [x ->]; eauto] end.
    apply IH1.
    destruct (Nat.eqb_spec (i + length a1) i); [lia|].
    apply (IH2 r'); [done|rewrite length_app; lia|].
    by rewrite length_app, Nat.add_assoc in Hk.
  - apply IH. by rewrite firstn_consumed.
  - done.
  - done.
Qed.

Lemma matcher_complete r i a b c c' k :
  Matches r i a b c c' ->
  is_Some (k (i + length a) b c') ->
  is_Some (matcher r i (a ++ b) c k).
Proof. intros Hm. by apply (matcher_complete_aux _ _ _ _ _ _ Hm). Qed.

End MatcherCorrect.

(** ** [exec]: the leftmost start position that matches *)

Section ExecCorrect.

Implicit Types (r : regex) (i : nat) (s a b : list N).

Lemma exec_from_unfold r i s :
  exec_from r i s =
  match matcher r i s ∅ (fun e _ caps => Some (e, caps)) with
  | Some (e, caps) => Some (mkMatch i e caps)
  | None => match s with [] => None | _ :: s' => exec_from r (S i) s' end
  end.
Proof. by destruct s. Qed.

Lemma exec_from_sound r : forall s i m,
  exec_from r i s = Some m ->
  exists pre a b, s = pre ++ a ++ b
    /\ index m = i + length pre
    /\ endIndex m = index m + length a
    /\ Matches r (index m) a b ∅ (groups m).
Proof.
  induction s as [|x s IH]; intros i m H; rewrite exec_from_unfold in H.
  - destruct (matcher r i [] ∅ _) as [[e caps]|] eqn:E; [|discriminate].
    injection H as <-. apply matcher_sound in E.
    destruct E as (a & b & caps' & Hs & Hm & [= <- <-]).
    exists [], a, b. simpl. rewrite Nat.add_0_r. done.
  - destruct (matcher r i (x :: s) ∅ _) as [[e caps]|] eqn:E.
    + injection H as <-. apply matcher_sound in E.
      destruct E as (a & b & caps' & Hs & Hm & [= <- <-]).
      exists [], a, b. simpl. rewrite Nat.add_0_r. done.
    + apply IH in H. destruct H as (pre & a & b & -> & Hi & He & Hm).
      exists (x :: pre), a, b. simpl. split_and!; [done|lia|done|done].
Qed.

Lemma exec_from_complete r : forall pre i a b c,
  Matches r (i + length pre) a b ∅ c ->
  is_Some (exec_from r i (pre ++ a ++ b)).
Proof.
  induction pre as [|x pre IH]; intros i a b c Hm; rewrite exec_from_unfold.
  - simpl in *. rewrite Nat.add_0_r in Hm.
    destruct (matcher_complete r i a b ∅ c (fun e _ caps => Some (e, caps)) Hm)
      as [[e caps] ->]; eauto.
  - destruct (matcher r i _ ∅ _) as [[e caps]|]; [eauto|].
    simpl. apply IH with (c := c).
    by replace (S i + length pre) with (i + length (x :: pre)) by (simpl; lia).
Qed.

(** A pattern that starts with [^] matches at position 0 or not at all. *)
Lemma exec_from_Bol r s i : exec_from (Cat Bol r) (S i) s = None.
Proof.
  revert i. induction s as [|x s IH]; intros i; rewrite exec_from_unfold; simpl; [done|].
  apply IH.
Qed.

Lemma exec_sound r s m :
  exec r s = Some m ->
  exists pre a b, s = pre ++ a ++ b
    /\ index m = length pre
    /\ endIndex m = length pre + length a
    /\ Matches r (length pre) a b ∅ (groups m).
Proof.
  intros H. apply exec_from_sound in H.
  destruct H as (pre & a & b & Hs & Hi & He & Hm). simpl in Hi.
  exists pre, a, b. rewrite <- Hi. done.
Qed.

Lemma exec_complete r pre a b c :
  Matches r (length pre) a b ∅ c -> is_Some (exec r (pre ++ a ++ b)).
Proof. intros Hm. by apply exec_from_complete with (c := c). Qed.

End ExecCorrect.

(** ** Runs of one character class *)

Section Runs.

Variable r : regex.
Variable P : N -> bool.
Hypothesis r_inv : forall i a b c c',
  Matches r i a b c c' -> exists x, a = [x] /\ P x = true /\ c' = c.
Hypothesis r_intro : forall x i b c, P x = true -> Matches r i [x] b c c.

Lemma Matches_star_inv i a b c c' :
  Matches (Star r) i a b c c' -> forallb P a = true /\ c' = c.
Proof.
  remember (Star r) as sr eqn:Hsr. intros H. revert Hsr.
  induction H; intros Hsr; try discriminate Hsr; [done|].
  injection Hsr as ->.
  apply r_inv in H0. destruct H0 as (x & -> & Hx & ->).
  destruct (IHMatches2 eq_refl) as [Hall ->].
  simpl. by rewrite Hx, Hall.
Qed.

Lemma Matches_star_intro a : forall i b c,
  forallb P a = true -> Matches (Star r) i a b c c.
Proof.
  induction a as [|x a IH]; intros i b c H; [constructor|].
  simpl in H. apply andb_true_iff in H. destruct H as [Hx Ha].
  change (x :: a) with ([x] ++ a).
  apply M_Star_cons with (c1 := c); [done|by apply r_intro|by apply IH].
Qed.

Lemma Matches_plus_inv i a b c c' :
  Matches (Plus r) i a b c c' ->
  a <> [] /\ forallb P a = true /\ c' = c.
Proof.
  intros H. inversion H; subst; clear H.
  match goal with H : Matches r _ _ _ _ _ |- _ =>
    apply r_inv in H; destruct H as (x & -> & Hx & ->) end.
  match goal with H : Matches (Star r) _ _ _ _ _ |- _ =>
    apply Matches_star_inv in H; destruct H as [Hall ->] end.
  simpl. by rewrite Hx, Hall.
Qed.

Lemma Matches_plus_intro a i b c :
  a <> [] -> forallb P a = true -> Matches (Plus r) i a b c c.
Proof.
  destruct a as [|x a]; [done|]. intros _ H. simpl in H.
  apply andb_true_iff in H. destruct H as [Hx Ha].
  change (x :: a) with ([x] ++ a).
  apply M_Cat with (c1 := c); [by apply r_intro|by apply Matches_star_intro].
Qed.

End Runs.

(** ** The pattern of the hyphenated minor version *)

Section HyphenMinor.

Lemma Dot_inv i a b c c' :
  Matches Dot i a b c c' ->
  exists x, a = [x] /\ negb (is_line_terminator x) = true /\ c' = c.
Proof.
  intros H. inversion H; subst. eexists. split_and!; [done| |done].
  by apply negb_true_iff.
Qed.

Lemma Dot_intro x i b c :
  negb (is_line_terminator x) = true -> Matches Dot i [x] b c c.
Proof. intros H. constructor. by apply negb_true_iff. Qed.

Lemma Digit_inv i a b c c' :
  Matches Digit i a b c c' ->
  exists x, a = [x] /\ is_digit x = true /\ c' = c.
Proof. intros H. inversion H; subst. eauto. Qed.

Lemma Digit_intro x i b c :
  is_digit x = true -> Matches Digit i [x] b c c.
Proof. by constructor. Qed.

Ltac inv_matches :=
  repeat match goal with
  | H : Matches (Plus Digit) _ _ _ _ _ |- _ =>
      apply (Matches_plus_inv Digit is_digit Digit_inv) in H;
      destruct H as (? & ? & ->)
  | H : Matches (Star Dot) _ _ _ _ _ |- _ =>
      apply (Matches_star_inv Dot _ Dot_inv) in H; destruct H as (? & ->)
  | H : Matches (Cat _ _) _ _ _ _ _ |- _ => inversion H; subst; clear H
  | H : Matches (Group _ _) _ _ _ _ _ |- _ => inversion H; subst; clear H
  | H : Matches (Chr _) _ _ _ _ _ |- _ => inversion H; subst; clear H
  | H : Matches Bol _ _ _ _ _ |- _ => inversion H; subst; clear H
  | H : Matches Eol _ _ _ _ _ |- _ => inversion H; subst; clear H
  end.

Lemma hyphenMinor_inv i a b c c' :
  Matches hyphenMinorVersionPattern i a b c c' ->
  i = 0 /\ b = [] /\
  exists p d1 d2,
    hyphen_pair a p d1 d2 /\ one_line p
    /\ c' = <[2 := d2]> (<[1 := p ++ hyphen :: d1]> c).
Proof.
  unfold hyphenMinorVersionPattern. intros H. inv_matches.
  split_and!; [done..|].
  match goal with
  | |- context [hyphen_pair (_ ++ (?p ++ _ ++ ?d1) ++ _ ++ ?d2 ++ _)] =>
      exists p, d1, d2
  end.
  unfold hyphen_pair, digits, one_line, hyphen.
  cbn [app]. rewrite ?app_nil_r, <- ?app_assoc. cbn [app].
  split_and!; done.
Qed.

Lemma M_Cat_eq r1 r2 i j a a1 a2 b c c1 c2 :
  a = a1 ++ a2 -> j = i + length a1 ->
  Matches r1 i a1 (a2 ++ b) c c1 ->
  Matches r2 j a2 b c1 c2 ->
  Matches (Cat r1 r2) i a b c c2.
Proof. intros -> ->. apply M_Cat. Qed.

Lemma hyphenMinor_intro a p d1 d2 c :
  hyphen_pair a p d1 d2 -> one_line p ->
  Matches hyphenMinorVersionPattern 0 a [] c
    (<[2 := d2]> (<[1 := p ++ hyphen :: d1]> c)).
Proof.
  intros (-> & [Hd1 Hd1'] & [Hd2 Hd2']) Hp. unfold hyphenMinorVersionPattern.
  eapply (M_Cat_eq _ _ _ _ _ [] _); [reflexivity|reflexivity|constructor|].
  eapply (M_Cat_eq _ _ _ _ _ (p ++ hyphen :: d1) (hyphen :: d2));
    [by rewrite <- app_assoc|reflexivity|..].
  - constructor.
    eapply (M_Cat_eq _ _ _ _ _ p (hyphen :: d1)); [reflexivity..| |].
    + by apply (Matches_star_intro Dot _ Dot_intro).
    + eapply (M_Cat_eq _ _ _ _ _ [hyphen] d1); [reflexivity..|constructor|].
      by apply (Matches_plus_intro Digit _ Digit_intro).
  - eapply (M_Cat_eq _ _ _ _ _ [hyphen] d2); [reflexivity..|constructor|].
    eapply (M_Cat_eq _ _ _ _ _ d2 []); [by rewrite app_nil_r|reflexivity| |constructor].
    constructor. by apply (Matches_plus_intro Digit _ Digit_intro).
Qed.

End HyphenMinor.

(** ** Where a trailing run of digits starts *)

Section TrailingRun.

Variable P : N -> bool.

Lemma first_outside_unique (u1 u2 : list N) c1 c2 v1 v2 :
  u1 ++ c1 :: v1 = u2 ++ c2 :: v2 ->
  forallb P u1 = true -> forallb P u2 = true ->
  P c1 = false -> P c2 = false ->
  u1 = u2 /\ c1 = c2 /\ v1 = v2.
Proof.
  revert u2. induction u1 as [|x u1 IH]; intros [|y u2] H H1 H2 Hc1 Hc2;
    simpl in *.
  - by injection H as -> ->.
  - injection H as -> _. apply andb_true_iff in H2. destruct H2; congruence.
  - injection H as -> _. apply andb_true_iff in H1. destruct H1; congruence.
  - injection H as -> H.
    apply andb_true_iff in H1. apply andb_true_iff in H2.
    destruct (IH u2 H) as (-> & -> & ->); tauto.
Qed.

Lemma last_outside_unique (u1 u2 : list N) c1 c2 v1 v2 :
  u1 ++ c1 :: v1 = u2 ++ c2 :: v2 ->
  forallb P v1 = true -> forallb P v2 = true ->
  P c1 = false -> P c2 = false ->
  u1 = u2 /\ c1 = c2 /\ v1 = v2.
Proof.
  intros H H1 H2 Hc1 Hc2. apply (f_equal (@rev N)) in H.
  rewrite !rev_app_distr in H. simpl in H. rewrite <- !app_assoc in H.
  simpl in H.
  apply first_outside_unique in H; try done.
  - destruct H as (Hv & -> & Hu).
    apply (f_equal (@rev N)) in Hv, Hu. rewrite !rev_involutive in Hv, Hu.
    done.
  - rewrite forallb_forall in *. intros x Hx. apply H1. by apply in_rev.
  - rewrite forallb_forall in *. intros x Hx. apply H2. by apply in_rev.
Qed.

End TrailingRun.

(** ** The three steps of the normalizer *)

Section Normalizer.

Lemma exec_hyphenMinor_inv t m :
  exec hyphenMinorVersionPattern t = Some m ->
  exists p d1 d2,
    hyphen_pair t p d1 d2 /\ one_line p
    /\ group m 1 = p ++ hyphen :: d1 /\ group m 2 = d2.
Proof.
  intros H. apply exec_sound in H.
  destruct H as (pre & a & b & -> & _ & _ & Hm).
  apply hyphenMinor_inv in Hm.
  destruct Hm as (Hpre & -> & p & d1 & d2 & Hpair & Hp & Hg).
  destruct pre; [|discriminate Hpre]. rewrite app_nil_r. cbn [app].
  exists p, d1, d2. unfold group. rewrite Hg.
  rewrite lookup_insert_ne, !lookup_insert_eq by done. done.
Qed.

Lemma exec_hyphenMinor_intro t p d1 d2 :
  hyphen_pair t p d1 d2 -> one_line p ->
  is_Some (exec hyphenMinorVersionPattern t).
Proof.
  intros Hpair Hp.
  pose proof (hyphenMinor_intro t p d1 d2 ∅ Hpair Hp) as Hm.
  apply (exec_complete _ [] t []) in Hm. by rewrite app_nil_r in Hm.
Qed.

Lemma hyphen_pair_unique t p d1 d2 p' d1' d2' :
  hyphen_pair t p d1 d2 -> hyphen_pair t p' d1' d2' ->
  p = p' /\ d1 = d1' /\ d2 = d2'.
Proof.
  intros (-> & [_ Hd1] & [_ Hd2]) (H & [_ Hd1'] & [_ Hd2']).
  change (p ++ hyphen :: d1 ++ hyphen :: d2)
    with (p ++ (hyphen :: d1) ++ hyphen :: d2) in H.
  change (p' ++ hyphen :: d1' ++ hyphen :: d2')
    with (p' ++ (hyphen :: d1') ++ hyphen :: d2') in H.
  rewrite !app_assoc in H.
  apply (last_outside_unique is_digit) in H; try done.
  destruct H as (H & _ & ->).
  apply (last_outside_unique is_digit) in H; try done.
  destruct H as (-> & _ & ->). done.
Qed.

(** The hyphen-to-dot step, on strings that end in [-<digits>-<digits>]. *)
Lemma convertHyphenMinor_pair t p d1 d2 :
  hyphen_pair t p d1 d2 -> one_line p ->
  convertHyphenMinor t = p ++ hyphen :: d1 ++ dot :: d2.
Proof.
  intros Hpair Hp. unfold convertHyphenMinor.
  destruct (exec_hyphenMinor_intro t p d1 d2 Hpair Hp) as [m Hm]. rewrite Hm.
  apply exec_hyphenMinor_inv in Hm.
  destruct Hm as (p' & d1' & d2' & Hpair' & _ & -> & ->).
  destruct (hyphen_pair_unique _ _ _ _ _ _ _ Hpair Hpair') as (<- & <- & <-).
  by rewrite <- app_assoc.
Qed.

(** ... and on all the others. *)
Lemma convertHyphenMinor_other t :
  ~ (exists p d1 d2, hyphen_pair t p d1 d2 /\ one_line p) ->
  convertHyphenMinor t = t.
Proof.
  intros Hno. unfold convertHyphenMinor.
  destruct (exec hyphenMinorVersionPattern t) as [m|] eqn:Hm; [|done].
  apply exec_hyphenMinor_inv in Hm.
  destruct Hm as (p & d1 & d2 & Hpair & Hp & _). destruct Hno. eauto.
Qed.

Lemma convertHyphenMinor_cases t :
  convertHyphenMinor t = t
  \/ exists p d1 d2, hyphen_pair t p d1 d2 /\ one_line p
       /\ convertHyphenMinor t = p ++ hyphen :: d1 ++ dot :: d2.
Proof.
  unfold convertHyphenMinor.
  destruct (exec hyphenMinorVersionPattern t) as [m|] eqn:Hm; [|by left].
  right. apply exec_hyphenMinor_inv in Hm.
  destruct Hm as (p & d1 & d2 & Hpair & Hp & -> & ->).
  exists p, d1, d2. by rewrite <- app_assoc.
Qed.

(** What the step produces does not end in [-<digits>-<digits>] any more. *)
Lemma convertHyphenMinor_idempotent t :
  convertHyphenMinor (convertHyphenMinor t) = convertHyphenMinor t.
Proof.
  destruct (convertHyphenMinor_cases t) as [H|(p & d1 & d2 & Hpair & Hp & ->)];
    [by rewrite !H|].
  apply convertHyphenMinor_other.
  intros (p' & d1' & d2' & (H & _ & [_ Hd2']) & _).
  destruct Hpair as (_ & _ & [_ Hd2]).
  change (p ++ hyphen :: d1 ++ dot :: d2)
    with (p ++ (hyphen :: d1) ++ dot :: d2) in H.
  change (p' ++ hyphen :: d1' ++ hyphen :: d2')
    with (p' ++ (hyphen :: d1') ++ hyphen :: d2') in H.
  rewrite !app_assoc in H.
  apply (last_outside_unique is_digit) in H; try done.
  by destruct H as (_ & ? & _).
Qed.

End Normalizer.

(** ** The two stripping steps *)

Section Stripping.

Lemma Matches_rep_inv r P n :
  (forall i a b c c',
     Matches r i a b c c' -> exists x, a = [x] /\ P x = true /\ c' = c) ->
  forall i a b c c',
    Matches (Rep n r) i a b c c' ->
    length a = n /\ forallb P a = true /\ c' = c.
Proof.
  intros r_inv. induction n as [|n IH]; intros i a b c c' H; simpl in H.
  - by inversion H.
  - inversion H; subst; clear H.
    match goal with H : Matches r _ _ _ _ _ |- _ =>
      apply r_inv in H; destruct H as (x & -> & Hx & ->) end.
    match goal with H : Matches (Rep n r) _ _ _ _ _ |- _ =>
      apply IH in H; destruct H as (<- & Hall & ->) end.
    simpl. by rewrite Hx, Hall.
Qed.

Lemma Matches_rep_intro r P :
  (forall x i b c, P x = true -> Matches r i [x] b c c) ->
  forall a i b c,
    forallb P a = true -> Matches (Rep (length a) r) i a b c c.
Proof.
  intros r_intro. induction a as [|x a IH]; intros i b c H; simpl in *;
    [constructor|].
  apply andb_true_iff in H. destruct H as [Hx Ha].
  change (x :: a) with ([x] ++ a).
  apply M_Cat with (c1 := c); [by apply r_intro|by apply IH].
Qed.

(** What [replace] with the empty string leaves: the input without the
    leftmost match. *)
Lemma replace_exec r s m :
  exec r s = Some m ->
  exists pre a b,
    s = pre ++ a ++ b /\ replace r s [] = pre ++ b
    /\ Matches r (length pre) a b ∅ (groups m).
Proof.
  intros H. unfold replace. rewrite H. apply exec_sound in H.
  destruct H as (pre & a & b & -> & -> & -> & Hm).
  exists pre, a, b. split_and!; [done| |done]. cbn [app].
  rewrite firstn_app, firstn_all, Nat.sub_diag. cbn [firstn].
  rewrite app_nil_r. f_equal.
  rewrite skipn_app, skipn_all2 by lia. cbn [app].
  replace (length pre + length a - length pre) with (length a) by lia.
  rewrite skipn_app, skipn_all, Nat.sub_diag. reflexivity.
Qed.

Lemma test_exec r s : test r s = true <-> is_Some (exec r s).
Proof.
  unfold test. destruct (exec r s); split; try done; try eauto.
Qed.

Lemma bracketSuffix_inv i a b c c' :
  Matches bracketSuffixPattern i a b c c' ->
  b = [] /\ exists q, a = 91%N :: q ++ [93%N] /\ one_line q.
Proof.
  unfold bracketSuffixPattern. intros H.
  repeat match goal with
  | H : Matches (Star Dot) _ _ _ _ _ |- _ =>
      apply (Matches_star_inv Dot _ Dot_inv) in H; destruct H as (? & ->)
  | H : Matches (Cat _ _) _ _ _ _ _ |- _ => inversion H; subst; clear H
  | H : Matches (Chr _) _ _ _ _ _ |- _ => inversion H; subst; clear H
  | H : Matches Eol _ _ _ _ _ |- _ => inversion H; subst; clear H
  end.
  split; [done|]. eexists. split; [reflexivity|eassumption].
Qed.

Lemma bracketSuffix_intro i q c :
  one_line q -> Matches bracketSuffixPattern i (91%N :: q ++ [93%N]) [] c c.
Proof.
  intros Hq. unfold bracketSuffixPattern.
  eapply (M_Cat_eq _ _ _ _ _ [91%N] (q ++ [93%N])); [reflexivity..|constructor|].
  eapply (M_Cat_eq _ _ _ _ _ q [93%N]); [reflexivity..| |].
  - by apply (Matches_star_intro Dot _ Dot_intro).
  - eapply (M_Cat_eq _ _ _ _ _ [93%N] []); [reflexivity..|constructor|constructor].
Qed.

Lemma M_Cat_inv r1 r2 i a b c c2 :
  Matches (Cat r1 r2) i a b c c2 ->
  exists a1 a2 c1,
    a = a1 ++ a2 /\ Matches r1 i a1 (a2 ++ b) c c1
    /\ Matches r2 (i + length a1) a2 b c1 c2.
Proof. intros H. inversion H; subst. by eexists _, _, _. Qed.

Lemma dateSuffix_inv i a b c c' :
  Matches dateSuffixPattern i a b c c' ->
  b = [] /\ exists d, a = hyphen :: d /\ length d = 8
                      /\ forallb is_digit d = true.
Proof.
  unfold dateSuffixPattern. intros H.
  apply M_Cat_inv in H. destruct H as (a1 & a2 & c1 & -> & H1 & H).
  apply M_Cat_inv in H. destruct H as (d & a3 & c2 & -> & H2 & H3).
  inversion H1; subst; clear H1. inversion H3; subst; clear H3.
  apply (Matches_rep_inv Digit is_digit 8 Digit_inv) in H2.
  destruct H2 as (Hlen & Hall & ->).
  split; [done|]. exists d. cbn [app]. by rewrite app_nil_r.
Qed.

Lemma dateSuffix_intro i d c :
  length d = 8 -> forallb is_digit d = true ->
  Matches dateSuffixPattern i (hyphen :: d) [] c c.
Proof.
  intros Hlen Hd. unfold dateSuffixPattern.
  eapply (M_Cat_eq _ _ _ _ _ [hyphen] d); [reflexivity..|constructor|].
  eapply (M_Cat_eq _ _ _ _ _ d []); [by rewrite app_nil_r|reflexivity| |constructor].
  rewrite <- Hlen. by apply (Matches_rep_intro Digit is_digit Digit_intro).
Qed.

(** A trailing bracket annotation: [[], then anything on one line, then
    []] at the very end. *)
Lemma test_bracketSuffix s :
  test bracketSuffixPattern s = true
  <-> exists p q, s = p ++ 91%N :: q ++ [93%N] /\ one_line q.
Proof.
  rewrite test_exec. split.
  - intros [m Hm]. apply exec_sound in Hm.
    destruct Hm as (pre & a & b & -> & _ & _ & Hm).
    apply bracketSuffix_inv in Hm. destruct Hm as (-> & q & -> & Hq).
    exists pre, q. by rewrite app_nil_r.
  - intros (p & q & -> & Hq).
    pose proof (exec_complete _ p _ [] _ (bracketSuffix_intro (length p) q ∅ Hq))
      as H.
    by rewrite app_nil_r in H.
Qed.

(** A trailing date suffix: a hyphen and eight digits at the very end. *)
Lemma test_dateSuffix s :
  test dateSuffixPattern s = true
  <-> exists p d, s = p ++ hyphen :: d /\ length d = 8
                  /\ forallb is_digit d = true.
Proof.
  rewrite test_exec. split.
  - intros [m Hm]. apply exec_sound in Hm.
    destruct Hm as (pre & a & b & -> & _ & _ & Hm).
    apply dateSuffix_inv in Hm. destruct Hm as (-> & d & -> & Hlen & Hd).
    exists pre, d. by rewrite app_nil_r.
  - intros (p & d & -> & Hlen & Hd).
    pose proof (exec_complete _ p _ [] _
                  (dateSuffix_intro (length p) d ∅ Hlen Hd)) as H.
    by rewrite app_nil_r in H.
Qed.

(** The first step cuts the string at a bracket that opens a trailing
    annotation, or leaves it alone. *)
Lemma stripBracketSuffix_cases s :
  (test bracketSuffixPattern s = false /\ stripBracketSuffix s = s)
  \/ (exists p q, s = p ++ 91%N :: q ++ [93%N] /\ one_line q
                  /\ stripBracketSuffix s = p).
Proof.
  unfold stripBracketSuffix, test.
  destruct (exec bracketSuffixPattern s) as [m|] eqn:Hm; [right|by left].
  apply replace_exec in Hm. destruct Hm as (pre & a & b & -> & -> & Hm).
  apply bracketSuffix_inv in Hm. destruct Hm as (-> & q & -> & Hq).
  exists pre, q. by rewrite !app_nil_r.
Qed.

(** The second step removes a trailing hyphen with eight digits, or leaves
    the string alone. *)
Lemma stripDateSuffix_cases s :
  (test dateSuffixPattern s = false /\ stripDateSuffix s = s)
  \/ (exists p d, s = p ++ hyphen :: d /\ length d = 8
                  /\ forallb is_digit d = true /\ stripDateSuffix s = p).
Proof.
  unfold stripDateSuffix, test.
  destruct (exec dateSuffixPattern s) as [m|] eqn:Hm; [right|by left].
  apply replace_exec in Hm. destruct Hm as (pre & a & b & -> & -> & Hm).
  apply dateSuffix_inv in Hm. destruct Hm as (-> & d & -> & Hlen & Hd).
  exists pre, d. by rewrite !app_nil_r.
Qed.

Lemma stripBracketSuffix_length s :
  length (stripBracketSuffix s) <= length s
  /\ (test bracketSuffixPattern s = true ->
      length (stripBracketSuffix s) < length s).
Proof.
  destruct (stripBracketSuffix_cases s) as [[Ht ->]|(p & q & -> & _ & ->)].
  - split; [lia|congruence].
  - rewrite length_app. simpl. lia.
Qed.

Lemma stripDateSuffix_length s :
  length (stripDateSuffix s) <= length s
  /\ (test dateSuffixPattern s = true ->
      length (stripDateSuffix s) < length s).
Proof.
  destruct (stripDateSuffix_cases s) as [[Ht ->]|(p & d & -> & _ & _ & ->)].
  - split; [lia|congruence].
  - rewrite length_app. simpl. lia.
Qed.

Lemma convertHyphenMinor_length t :
  length (convertHyphenMinor t) = length t.
Proof.
  destruct (convertHyphenMinor_cases t)
    as [->|(p & d1 & d2 & (-> & _ & _) & _ & ->)]; [done|].
  rewrite !length_app. simpl. rewrite !length_app. reflexivity.
Qed.

(** A pass over a string that still carries one of the two suffixes makes
    it shorter: the hypotheses of the amended C2 cannot be dropped. *)
Lemma translateModelName_shortens r :
  test bracketSuffixPattern r = true \/ test dateSuffixPattern r = true ->
  length (translateModelName r) < length r.
Proof.
  intros H. unfold translateModelName. rewrite convertHyphenMinor_length.
  pose proof (stripBracketSuffix_length r) as [Hb Hb'].
  pose proof (stripDateSuffix_length (stripBracketSuffix r)) as [Hd Hd'].
  destruct H as [H|H]; [specialize (Hb' H); lia|].
  destruct (stripBracketSuffix_cases r) as [[_ Heq]|(p & q & Hr & _ & Hs)].
  - rewrite Heq in *. specialize (Hd' H). lia.
  - assert (length (stripBracketSuffix r) < length r); [|lia].
    rewrite Hs, Hr, length_app. simpl. lia.
Qed.

Lemma translateModelName_second_pass s :
  translateModelName (translateModelName s) = translateModelName s
  <-> test bracketSuffixPattern (translateModelName s) = false
      /\ test dateSuffixPattern (translateModelName s) = false.
Proof.
  split.
  - intros Heq.
    destruct (test bracketSuffixPattern (translateModelName s)) eqn:Hb;
      [|destruct (test dateSuffixPattern (translateModelName s)) eqn:Hd;
        [|done]].
    + pose proof (translateModelName_shortens _ (or_introl Hb)) as Hlt.
      rewrite Heq in Hlt. lia.
    + pose proof (translateModelName_shortens _ (or_intror Hd)) as Hlt.
      rewrite Heq in Hlt. lia.
  - intros [Hb Hd]. unfold translateModelName at 1.
    unfold stripBracketSuffix. rewrite Hb. unfold stripDateSuffix. rewrite Hd.
    unfold translateModelName. apply convertHyphenMinor_idempotent.
Qed.

End Stripping.

(** ** Claims on the model-name normalizer *)

Lemma has_hyphen_digitsb_complete p :
  has_hyphen_digits p -> has_hyphen_digitsb p = true.
Proof.
  intros (u & d & v & -> & Hd). induction u as [|x u IH].
  - simpl. by rewrite Hd.
  - change ((x :: u) ++ hyphen :: d :: v) with (x :: (u ++ hyphen :: d :: v)).
    cbn [has_hyphen_digitsb]. rewrite IH.
    destruct (u ++ hyphen :: d :: v) eqn:E; [by destruct u|].
    apply orb_true_r.
Qed.

(** C2, as the spec states it, fails: the steps run once each, so a date
    suffix that hides a bracket annotation is removed by the first pass and
    the annotation only by a second one. *)
Lemma translateModelName_second_pass_differs :
  translateModelName (lit "claude-opus-4[1m]-20250514") = lit "claude-opus-4[1m]"
  /\ translateModelName (translateModelName (lit "claude-opus-4[1m]-20250514"))
     = lit "claude-opus-4"
  /\ translateModelName (translateModelName (lit "claude-opus-4[1m]-20250514"))
     <> translateModelName (lit "claude-opus-4[1m]-20250514").
Proof. vm_compute. split_and!; [reflexivity..|discriminate]. Qed.

(** C2 (amended): normalizing twice is normalizing once whenever the first
    pass leaves neither a trailing bracket annotation nor a trailing
    eight-digit date suffix behind. *)
Theorem translateModelName_idempotent_on_stripped (s : list N) :
  test bracketSuffixPattern (translateModelName s) = false ->
  test dateSuffixPattern (translateModelName s) = false ->
  translateModelName (translateModelName s) = translateModelName s.
Proof.
  intros Hb Hd.
  assert (H : forall r, test bracketSuffixPattern r = false ->
                        test dateSuffixPattern r = false ->
                        translateModelName r = convertHyphenMinor r).
  { intros r Hb' Hd'. unfold translateModelName, stripBracketSuffix.
    rewrite Hb'. unfold stripDateSuffix. by rewrite Hd'. }
  rewrite (H _ Hb Hd). unfold translateModelName at 1 2.
  apply convertHyphenMinor_idempotent.
Qed.

Lemma translateModelName_idempotent_on_stripped_witness :
  test bracketSuffixPattern
    (translateModelName (lit "claude-haiku-4-5-20251001[1m]")) = false
  /\ test dateSuffixPattern
       (translateModelName (lit "claude-haiku-4-5-20251001[1m]")) = false
  /\ translateModelName (translateModelName (lit "claude-haiku-4-5-20251001[1m]"))
     = translateModelName (lit "claude-haiku-4-5-20251001[1m]").
Proof.
  split; [vm_compute; reflexivity|]. split; [vm_compute; reflexivity|].
  apply (translateModelName_idempotent_on_stripped
           (lit "claude-haiku-4-5-20251001[1m]")); vm_compute; reflexivity.
Defined.

(** C6, as the spec states it, fails: "claude-haiku-4-5" ends in
    [-<digits>-<digits>], nothing in front of that pair is a [-<digits>]
    segment, and yet the rewrite is applied. *)
Lemma hyphen_rewrite_needs_no_earlier_segment :
  stripped (lit "claude-haiku-4-5") = lit "claude-haiku-4-5"
  /\ hyphen_pair (lit "claude-haiku-4-5") (lit "claude-haiku") (lit "4") (lit "5")
  /\ ~ has_hyphen_digits (lit "claude-haiku")
  /\ translateModelName (lit "claude-haiku-4-5") = lit "claude-haiku-4.5"
  /\ translateModelName (lit "claude-haiku-4-5") <> lit "claude-haiku-4-5".
Proof.
  split_and!.
  - vm_compute. reflexivity.
  - split_and!; [vm_compute; reflexivity|split; [discriminate|reflexivity]..].
  - intros H. apply has_hyphen_digitsb_complete in H. vm_compute in H.
    discriminate H.
  - vm_compute. reflexivity.
  - vm_compute. discriminate.
Qed.

(** C6 (amended): the rewrite is applied exactly when the stripped string
    is a single line that ends in [-<digits>-<digits>]; no earlier
    [-<digits>] segment is needed. It turns the last hyphen into a dot and
    keeps everything else; any other string passes through unchanged. *)
Theorem translateModelName_hyphen_minor (s : list N) :
  (forall p d1 d2,
        hyphen_pair (stripped s) p d1 d2 -> one_line p ->
        translateModelName s = p ++ hyphen :: d1 ++ dot :: d2)
  /\ (~ (exists p d1 d2, hyphen_pair (stripped s) p d1 d2 /\ one_line p) ->
      translateModelName s = stripped s).
Proof.
  split.
  - intros p d1 d2 Hpair Hp. by apply convertHyphenMinor_pair.
  - intros Hno. by apply convertHyphenMinor_other.
Qed.

Lemma translateModelName_hyphen_minor_witness :
  hyphen_pair (stripped (lit "claude-haiku-4-5-20251001"))
    (lit "claude-haiku") (lit "4") (lit "5")
  /\ one_line (lit "claude-haiku")
  /\ translateModelName (lit "claude-haiku-4-5-20251001")
     = lit "claude-haiku" ++ hyphen :: lit "4" ++ dot :: lit "5".
Proof.
  assert (Hpair : hyphen_pair (stripped (lit "claude-haiku-4-5-20251001"))
                    (lit "claude-haiku") (lit "4") (lit "5")).
  { split_and!; [vm_compute; reflexivity|split; [discriminate|reflexivity]..]. }
  assert (Hline : one_line (lit "claude-haiku")) by reflexivity.
  split_and!; [exact Hpair|exact Hline|].
  exact (proj1 (translateModelName_hyphen_minor
                  (lit "claude-haiku-4-5-20251001"))
           (lit "claude-haiku") (lit "4") (lit "5") Hpair Hline).
Defined.

(** ** The non-streaming response translator *)

Section ResponseTranslation.

Variable json : Type.
Variable JSON_parse : list N -> option json.

Lemma mergeChoice_stopReason acc choice acc' :
  mergeChoice JSON_parse acc choice = inr acc' ->
  stopReason acc'
  = nextStopReason (stopReason acc) (choice_finish_reason choice).
Proof.
  unfold mergeChoice, bind.
  destruct (getAnthropicToolUseBlocks _ _); [discriminate|].
  intros [= <-]. reflexivity.
Qed.

Lemma foldM_mergeChoice_stopReason choices : forall acc merged,
  foldM (mergeChoice JSON_parse) choices acc = inr merged ->
  stopReason merged
  = fold_left nextStopReason (map choice_finish_reason choices)
      (stopReason acc).
Proof.
  induction choices as [|choice choices IH]; intros acc merged H; simpl in H.
  - by injection H as <-.
  - unfold bind in H at 1.
    destruct (mergeChoice _ acc choice) as [|acc'] eqn:E; [discriminate|].
    apply IH in H. rewrite H. simpl. by rewrite (mergeChoice_stopReason _ _ _ E).
Qed.

Lemma mapM_total {A B} (f : A -> Exn + B) (l : list A) :
  Forall (fun x => exists y, f x = inr y) l -> exists ys, mapM f l = inr ys.
Proof.
  induction 1 as [|x l [y Hy] _ [ys Hys]]; simpl; [by eexists|].
  rewrite Hy. simpl. rewrite Hys. simpl. by eexists.
Qed.

Lemma foldM_total {A S} (f : S -> A -> Exn + S) (l : list A) :
  Forall (fun x => forall s, exists s', f s x = inr s') l ->
  forall s, exists s', foldM f l s = inr s'.
Proof.
  induction 1 as [|x l Hx _ IH]; intros s; simpl; [by eexists|].
  destruct (Hx s) as [s' ->]. simpl. apply IH.
Qed.

(** The translator returns a response as soon as the arguments of every
    tool call parse. *)
Lemma translateToAnthropic_total response :
  arguments_parse JSON_parse response ->
  exists r, translateToAnthropic JSON_parse response = inr r.
Proof.
  intros Hparse. unfold translateToAnthropic, mergeChoices.
  destruct (foldM_total (mergeChoice JSON_parse) (resp_choices response))
    with (s := @mkMerged json [] []
                 match resp_choices response with
                 | [] => None
                 | choice :: _ => Some (choice_finish_reason choice)
                 end) as [merged Hm].
  - eapply Forall_impl; [exact Hparse|]. intros choice Hc acc.
    unfold mergeChoice, getAnthropicToolUseBlocks. cbv beta in Hc.
    destruct (rm_tool_calls (choice_message choice)) as [calls|];
      simpl in *; [|by eexists].
    destruct (mapM_total
                (fun toolCall =>
                   match JSON_parse (tc_arguments toolCall) with
                   | Some input =>
                       ret (ToolUseBlock (tc_id toolCall) (tc_name toolCall) input)
                   | None => throw (SyntaxError (tc_arguments toolCall))
                   end) calls) as [blocks Hb].
    + eapply Forall_impl; [exact Hc|]. intros toolCall [input ->]. by eexists.
    + rewrite Hb. simpl. by eexists.
  - rewrite Hm. simpl. by eexists.
Qed.

(** A choice that reports [tool_calls] decides the stop reason ... *)
Lemma fold_nextStopReason_tool_calls reasons : forall acc,
  In FinishToolCalls reasons \/ acc = Some FinishToolCalls ->
  fold_left nextStopReason reasons acc = Some FinishToolCalls.
Proof.
  induction reasons as [|r reasons IH]; intros acc H; simpl.
  - destruct H as [[]|H]; done.
  - apply IH. destruct H as [[ -> | H ]| -> ]; [by right|by left|].
    right. unfold nextStopReason. by destruct r.
Qed.

(** ... and otherwise a first reason other than [stop] stays. *)
Lemma fold_nextStopReason_keeps reasons : forall first,
  ~ In FinishToolCalls reasons -> first <> FinishStop ->
  fold_left nextStopReason reasons (Some first) = Some first.
Proof.
  induction reasons as [|r reasons IH]; intros first Hn Hf; simpl; [done|].
  unfold nextStopReason at 2.
  destruct r, first; simpl in *; try tauto; apply IH; tauto.
Qed.

(** The stop reason among choices none of which reports [tool_calls]:
    the first reason that is not [stop], if there is one. *)
Lemma fold_nextStopReason_stop reasons :
  ~ In FinishToolCalls reasons ->
  fold_left nextStopReason reasons (Some FinishStop)
  = Some (hd FinishStop
            (List.filter (fun r => negb (isStop (Some r))) reasons)).
Proof.
  induction reasons as [|r reasons IH]; intros Hn; [done|].
  destruct r; cbn in *.
  - apply IH. tauto.
  - apply fold_nextStopReason_keeps; [tauto|done].
  - tauto.
  - apply fold_nextStopReason_keeps; [tauto|done].
Qed.

(** The stop reason of any response, before it is mapped: what the loop
    leaves in [stopReason]. *)
Lemma mergeChoices_stopReason response merged :
  mergeChoices JSON_parse response = inr merged ->
  stopReason merged
  = fold_left nextStopReason (map choice_finish_reason (resp_choices response))
      (hd_error (map choice_finish_reason (resp_choices response))).
Proof.
  unfold mergeChoices. intros H. apply foldM_mergeChoice_stopReason in H.
  rewrite H. simpl. by destruct (resp_choices response).
Qed.

(** A choice that reports [tool_calls] takes priority, as C1 says. *)
Lemma stopReason_tool_calls_priority response merged :
  mergeChoices JSON_parse response = inr merged ->
  In FinishToolCalls (map choice_finish_reason (resp_choices response)) ->
  stopReason merged = Some FinishToolCalls.
Proof.
  intros H Hin. rewrite (mergeChoices_stopReason _ _ H).
  apply fold_nextStopReason_tool_calls. by left.
Qed.

(** Without [tool_calls], the first choice decides when its reason is not
    [stop] ... *)
Lemma stopReason_first_choice response merged first rest :
  mergeChoices JSON_parse response = inr merged ->
  resp_choices response = first :: rest ->
  ~ In FinishToolCalls (map choice_finish_reason (resp_choices response)) ->
  choice_finish_reason first <> FinishStop ->
  stopReason merged = Some (choice_finish_reason first).
Proof.
  intros H Hc Hn Hf. rewrite (mergeChoices_stopReason _ _ H). rewrite Hc in *.
  cbn [map hd_error] in *. by apply fold_nextStopReason_keeps.
Qed.

(** ... and when it is [stop], the first later reason that is not [stop]
    replaces it. *)
Lemma stopReason_after_stop response merged first rest :
  mergeChoices JSON_parse response = inr merged ->
  resp_choices response = first :: rest ->
  ~ In FinishToolCalls (map choice_finish_reason (resp_choices response)) ->
  choice_finish_reason first = FinishStop ->
  stopReason merged
  = Some (hd FinishStop
            (List.filter (fun r => negb (isStop (Some r)))
               (map choice_finish_reason rest))).
Proof.
  intros H Hc Hn Hf. rewrite (mergeChoices_stopReason _ _ H). rewrite Hc in *.
  cbn [map hd_error] in *. rewrite Hf in *.
  by rewrite fold_nextStopReason_stop.
Qed.

(** C1: on a response whose first choice reports [stop] and whose second
    choice reports [length], with no [tool_calls] anywhere, the loop leaves
    [length] in [stopReason], not the first choice's [stop]; the response
    carries [max_tokens]. *)
Lemma stop_reason_of_stop_then_length :
  (exists merged,
     mergeChoices JSON_parse stop_then_length = inr merged
     /\ stopReason merged = Some FinishLength)
  /\ (exists r,
       translateToAnthropic JSON_parse stop_then_length = inr r
       /\ ar_stop_reason r = Some MaxTokens)
  /\ hd_error (map choice_finish_reason (resp_choices stop_then_length))
     = Some FinishStop
  /\ ~ In FinishToolCalls
        (map choice_finish_reason (resp_choices stop_then_length)).
Proof.
  split_and!.
  - eexists. split; reflexivity.
  - eexists. split; reflexivity.
  - reflexivity.
  - simpl. intros [|[|[]]]; discriminate.
Qed.

(** On doubles the difference of two integers is exact as long as it is a
    safe integer. *)
Lemma subtract_exact (a b : Z) :
  isSafeInteger (a - b) = true -> subtract a b = (a - b)%Z.
Proof.
  unfold subtract, toDouble, isSafeInteger. cbv zeta. by intros ->.
Qed.

(** Beyond the safe integers it is not: 2^54 less 1 is 2^54. *)
Lemma subtract_rounds :
  subtract (2 ^ 54) 1 = (2 ^ 54)%Z /\ isSafeInteger (2 ^ 54) = false.
Proof. split; reflexivity. Qed.

(** C7: the usage of the translated response, for token counts that are
    safe integers, as is their difference (below 2^53 in magnitude, where
    the subtraction on doubles is exact): the prompt tokens less the
    cached ones (none when the detail is absent), the completion tokens,
    and the cache-read counter exactly when the cached-token detail is
    there. Without any usage upstream the counters are zero. *)
Theorem translateToAnthropic_usage response r :
  translateToAnthropic JSON_parse response = inr r ->
  (forall usage, resp_usage response = Some usage -> safe_counts usage) ->
  match resp_usage response with
  | Some usage =>
      input_tokens (ar_usage r)
      = (prompt_tokens usage
         - match prompt_tokens_details usage with
           | Some details => cached_tokens details
           | None => 0
           end)%Z
      /\ output_tokens (ar_usage r) = completion_tokens usage
      /\ cache_read_input_tokens (ar_usage r)
         = match prompt_tokens_details usage with
           | Some details => Some (cached_tokens details)
           | None => None
           end
      /\ (is_Some (cache_read_input_tokens (ar_usage r))
          <-> is_Some (prompt_tokens_details usage))
  | None => ar_usage r = mkAnthropicUsage 0 0 None
  end.
Proof.
  unfold translateToAnthropic, bind.
  destruct (mergeChoices _ _) as [|merged]; [discriminate|].
  intros [= <-] Hsafe. cbn [ar_usage].
  destruct (resp_usage response) as [usage|]; [|reflexivity].
  destruct (Hsafe usage eq_refl) as (_ & _ & _ & Hdiff).
  unfold cached_or_zero in Hdiff. cbn.
  destruct (prompt_tokens_details usage) as [details|]; cbn.
  - rewrite subtract_exact by done.
    split_and!; try reflexivity. split; eauto.
  - rewrite subtract_exact by done.
    split_and!; try reflexivity. split; intros [? [=]].
Qed.

End ResponseTranslation.

Lemma translateToAnthropic_usage_witness :
  exists r,
    translateToAnthropic (fun _ => Some tt) cached_response = inr r
    /\ input_tokens (ar_usage r) = 70%Z
    /\ output_tokens (ar_usage r) = 20%Z
    /\ cache_read_input_tokens (ar_usage r) = Some 30%Z.
Proof.
  eexists. split; [reflexivity|].
  assert (Hsafe : forall usage,
            resp_usage cached_response = Some usage -> safe_counts usage).
  { intros usage [= <-]. repeat split. }
  pose proof (translateToAnthropic_usage unit (fun _ => Some tt)
                cached_response _ eq_refl Hsafe) as H.
  cbn in H. destruct H as (H1 & H2 & H3 & _). split_and!; assumption.
Defined.

(** ** The request translator: content mapping and message splitting *)

Section RequestTranslation.

Variable json : Type.
Variable JSON_stringify : json -> list N.

Implicit Types (blocks : list (AnthropicBlock json)).

Lemma fold_left_push {A B} (f : A -> B) (l : list A) : forall acc,
  fold_left (fun acc x => acc ++ [f x]) l acc = acc ++ map f l.
Proof.
  induction l as [|x l IH]; intros acc; simpl; [by rewrite app_nil_r|].
  by rewrite IH, <- app_assoc.
Qed.

(** The filter-then-map of [mapContent] collects the texts in order. *)
Lemma texts_in_order_filter blocks :
  map textOrThinking (List.filter isTextOrThinking blocks)
  = texts_in_order blocks.
Proof.
  induction blocks as [|[] blocks IH]; simpl; congruence.
Qed.

Lemma mapContent_no_image blocks :
  existsb isImage blocks = false ->
  mapContent (BlockList blocks) = ContentString (collapsed blocks).
Proof.
  intros H. unfold mapContent, collapsed. rewrite H. simpl.
  by rewrite texts_in_order_filter.
Qed.

(** Tool results carry neither text nor images of the turn itself. *)
Lemma texts_in_order_others blocks :
  texts_in_order (List.filter (fun block => negb (isToolResult block)) blocks)
  = texts_in_order blocks.
Proof.
  induction blocks as [|[] blocks IH]; simpl; congruence.
Qed.

Lemma isImage_others blocks :
  existsb isImage (List.filter (fun block => negb (isToolResult block)) blocks)
  = existsb isImage blocks.
Proof.
  induction blocks as [|[] blocks IH]; simpl; congruence.
Qed.

(** The two filters of the tool-use branch collect the same texts as
    [mapContent], up to their order ... *)
Lemma texts_permutation blocks :
  Permutation (textBlocksOf blocks ++ thinkingBlocksOf blocks)
    (texts_in_order blocks).
Proof.
  induction blocks as [|[] blocks IH]; simpl; try done.
  - by constructor.
  - rewrite <- Permutation_middle. by constructor.
Qed.

Lemma textBlocksOf_nil blocks :
  (forall j text, blocks !! j <> Some (TextBlock text)) ->
  textBlocksOf blocks = [].
Proof.
  induction blocks as [|b blocks IH]; intros H; [done|].
  destruct b as [t| | | |]; simpl;
    try (apply IH; intros j text'; apply (H (S j) text')).
  by destruct (H 0 t).
Qed.

(** ... and in their order when no thinking block comes before a text
    block. *)
Lemma texts_in_order_grouped blocks :
  text_before_thinking blocks ->
  textBlocksOf blocks ++ thinkingBlocksOf blocks = texts_in_order blocks.
Proof.
  induction blocks as [|b blocks IH]; intros H; [done|].
  assert (Htail : text_before_thinking blocks).
  { intros i j thinking text Hi Hj.
    specialize (H (S i) (S j) thinking text Hi Hj). lia. }
  destruct b as [t|th| | |]; simpl; try (by apply IH).
  - f_equal. by apply IH.
  - rewrite <- (IH Htail). rewrite textBlocksOf_nil; [done|].
    intros j text' Hj. specialize (H 0 (S j) th text' eq_refl Hj). lia.
Qed.

(** When [join] is empty. *)
Lemma join_nil sep (parts : list (list N)) :
  sep <> [] ->
  join sep parts = [] <-> length parts <= 1 /\ Forall (fun x => x = []) parts.
Proof.
  intros Hsep. destruct parts as [|x [|y parts]]; simpl.
  - split; [split; [lia|constructor]|done].
  - split.
    + intros ->. split; [lia|by repeat constructor].
    + intros [_ H]. by inversion H.
  - split.
    + intros H. apply app_eq_nil in H. destruct H as [_ H].
      apply app_eq_nil in H. by destruct H.
    + intros [H _]. lia.
Qed.

Lemma join_nil_permutation sep (l1 l2 : list (list N)) :
  sep <> [] -> Permutation l1 l2 -> join sep l1 = [] -> join sep l2 = [].
Proof.
  intros Hsep Hp H. apply join_nil in H; [|done]. apply join_nil; [done|].
  destruct H as [Hlen Hall]. split.
  - by rewrite <- (Permutation_length Hp).
  - by rewrite <- Hp.
Qed.

Lemma toolUseBlocksOf_length blocks :
  toolUseBlocksOf blocks <> [] ->
  (0 <? length (toolUseBlocksOf blocks)) = true.
Proof. destruct (toolUseBlocksOf blocks); [done|]. by intros _. Qed.

Lemma tool_messages_fold (l : list (list N * ToolResultContent)) : forall acc,
  fold_left
    (fun newMessages '(tool_use_id, c) =>
       newMessages
         ++ [mkMessage RoleTool (mapToolResultContent c) None (Some tool_use_id)])
    l acc
  = acc ++ map (fun '(tool_use_id, c) =>
                  mkMessage RoleTool (mapToolResultContent c) None
                    (Some tool_use_id)) l.
Proof.
  induction l as [|[id c] l IH]; intros acc; simpl; [by rewrite app_nil_r|].
  by rewrite IH, <- app_assoc.
Qed.

(** The messages built from the tool results answer the [tool_result]
    blocks one by one, in order. *)
Lemma tool_messages_answer blocks :
  Forall2
    (fun m block =>
       msg_role m = RoleTool
       /\ match block with
          | ToolResultBlock tool_use_id c =>
              msg_tool_call_id m = Some tool_use_id
              /\ msg_content m = mapToolResultContent c
          | _ => False
          end)
    (map (fun '(tool_use_id, c) =>
            mkMessage RoleTool (mapToolResultContent c) None (Some tool_use_id))
       (toolResultBlocksOf blocks))
    (List.filter isToolResult blocks).
Proof.
  induction blocks as [|[] blocks IH]; simpl; try done.
  constructor; [done|exact IH].
Qed.

Lemma toolUseBlocksOf_In blocks :
  toolUseBlocksOf blocks <> []
  <-> exists id name input, In (ToolUseBlock id name input) blocks.
Proof.
  induction blocks as [|b blocks IH]; simpl.
  - split; [done|]. by intros (? & ? & ? & []).
  - destruct b as [| | |id name input|]; simpl;
      try (rewrite IH; split;
           [intros (i & n & x & H); by eauto 6
           |intros (i & n & x & [H|H]); [discriminate H|by eauto]]).
    split; [by eauto 6|done].
Qed.

Lemma others_In blocks :
  List.filter (fun block => negb (isToolResult block)) blocks <> []
  <-> exists block, In block blocks /\ isToolResult block = false.
Proof.
  split.
  - destruct (List.filter _ blocks) as [|b l] eqn:E; [done|]. intros _.
    assert (Hin : In b (List.filter
                          (fun block => negb (isToolResult block)) blocks))
      by (rewrite E; by left).
    apply filter_In in Hin. destruct Hin as [Hin Hb].
    exists b. split; [done|]. by apply negb_true_iff.
  - intros (b & Hin & Hb) E.
    assert (Hf : In b (List.filter
                         (fun block => negb (isToolResult block)) blocks)).
    { apply filter_In. split; [done|]. by rewrite Hb. }
    by rewrite E in Hf.
Qed.

(** The loop of [handleUserMessage] and what follows it, in one piece. *)
Lemma handleUserMessage_blocks blocks :
  handleUserMessage (BlockList blocks)
  = map (fun '(tool_use_id, c) =>
           mkMessage RoleTool (mapToolResultContent c) None (Some tool_use_id))
      (toolResultBlocksOf blocks)
    ++ match List.filter (fun block => negb (isToolResult block)) blocks with
       | [] => []
       | _ :: _ =>
           [mkMessage RoleUser
              (mapContent
                 (BlockList
                    (List.filter (fun block => negb (isToolResult block))
                       blocks)))
              None None]
       end.
Proof.
  unfold handleUserMessage. rewrite tool_messages_fold. cbn [app].
  destruct (List.filter _ blocks); cbn [length Nat.ltb Nat.leb];
    [by rewrite app_nil_r|done].
Qed.

Lemma tool_messages_roles (l : list (list N * ToolResultContent)) :
  Forall (fun m => msg_role m = RoleTool)
    (map (fun '(tool_use_id, c) =>
            mkMessage RoleTool (mapToolResultContent c) None (Some tool_use_id))
       l).
Proof. induction l as [|[id c] l IH]; constructor; done. Qed.

(** C5: a user turn given as a block list becomes the tool-role messages,
    one per [tool_result] block in order and each answering its block's
    [tool_use_id], followed by exactly one user-role message for the
    remaining blocks, or by nothing when no block remains. *)
Theorem handleUserMessage_tool_results_first blocks :
  let otherBlocks :=
    List.filter (fun block => negb (isToolResult block)) blocks in
  exists toolMessages rest,
    handleUserMessage (BlockList blocks) = toolMessages ++ rest
    /\ Forall2
         (fun m block =>
            msg_role m = RoleTool
            /\ match block with
               | ToolResultBlock tool_use_id c =>
                   msg_tool_call_id m = Some tool_use_id
                   /\ msg_content m = mapToolResultContent c
               | _ => False
               end)
         toolMessages (List.filter isToolResult blocks)
    /\ rest = match otherBlocks with
              | [] => []
              | _ :: _ =>
                  [mkMessage RoleUser (mapContent (BlockList otherBlocks))
                     None None]
              end.
Proof.
  intros otherBlocks. rewrite handleUserMessage_blocks.
  eexists _, _. split_and!; [reflexivity|apply tool_messages_answer|reflexivity].
Qed.

(** C3 (amended): an assistant turn that carries a [tool_use] block never
    gets the empty string as its content: when its text and thinking
    blocks collapse to the empty string, the content is null. *)
Theorem tool_use_content_null_when_empty blocks :
  (exists id name input, In (ToolUseBlock id name input) blocks) ->
  exists m,
    handleAssistantMessage JSON_stringify (BlockList blocks) = [m]
    /\ msg_role m = RoleAssistant
    /\ (collapsed blocks = [] -> msg_content m = ContentNull)
    /\ msg_content m <> ContentString [].
Proof.
  intros Htool. apply toolUseBlocksOf_In in Htool.
  unfold handleAssistantMessage. rewrite (toolUseBlocksOf_length _ Htool).
  eexists. split; [reflexivity|]. cbn [msg_role msg_content].
  split; [done|].
  destruct (join blank_line (textBlocksOf blocks ++ thinkingBlocksOf blocks))
    as [|c t] eqn:E; cbn [truthy].
  - split; done.
  - split; [|done]. intros Hc.
    apply (join_nil_permutation blank_line _ _ ltac:(done)
             (Permutation_sym (texts_permutation blocks))) in Hc.
    congruence.
Qed.

(** C4 (amended): for a block list without image blocks the content
    mapping yields the texts of the text and thinking blocks, in their
    original order, joined by blank lines: as the result of [mapContent],
    as the content of the user-role message of a user turn that has blocks
    besides tool results, and as the content of an assistant turn without
    [tool_use] blocks. An assistant turn with [tool_use] blocks in which no
    thinking block comes before a text block gets the same string, or null
    when that string is empty. *)
Theorem content_mapping_joins_in_order blocks :
  existsb isImage blocks = false ->
  mapContent (BlockList blocks) = ContentString (collapsed blocks)
  /\ ((exists block, In block blocks /\ isToolResult block = false) ->
      exists toolMessages,
        handleUserMessage (BlockList blocks)
        = toolMessages
            ++ [mkMessage RoleUser (ContentString (collapsed blocks)) None None]
        /\ Forall (fun m => msg_role m = RoleTool) toolMessages)
  /\ (~ (exists id name input, In (ToolUseBlock id name input) blocks) ->
      handleAssistantMessage JSON_stringify (BlockList blocks)
      = [mkMessage RoleAssistant (ContentString (collapsed blocks)) None None])
  /\ ((exists id name input, In (ToolUseBlock id name input) blocks) ->
      text_before_thinking blocks ->
      exists m,
        handleAssistantMessage JSON_stringify (BlockList blocks) = [m]
        /\ msg_role m = RoleAssistant
        /\ msg_content m
           = if truthy (collapsed blocks)
             then ContentString (collapsed blocks)
             else ContentNull).
Proof.
  intros Himg. split_and!.
  - by apply mapContent_no_image.
  - intros Hrest. apply others_In in Hrest.
    rewrite handleUserMessage_blocks. eexists. split; [|apply tool_messages_roles].
    destruct (List.filter _ blocks) as [|b l] eqn:E; [done|].
    rewrite <- E, mapContent_no_image by (by rewrite isImage_others).
    unfold collapsed. by rewrite texts_in_order_others.
  - intros Hnone. unfold handleAssistantMessage.
    destruct (toolUseBlocksOf blocks) eqn:E.
    + cbn [length Nat.ltb Nat.leb]. by rewrite mapContent_no_image.
    + destruct Hnone. apply toolUseBlocksOf_In. by rewrite E.
  - intros Htool Horder. apply toolUseBlocksOf_In in Htool.
    unfold handleAssistantMessage. rewrite (toolUseBlocksOf_length _ Htool).
    eexists. split; [reflexivity|]. cbn [msg_role msg_content].
    split; [done|]. unfold collapsed.
    by rewrite (texts_in_order_grouped _ Horder).
Qed.

End RequestTranslation.

(** C3, as the spec states it, fails: outside the tool-use branch of
    [handleAssistantMessage] an empty result of the mapping is sent as the
    empty string: for an assistant turn with an empty block list, for a
    user turn whose only block is an empty text, and for a turn whose
    content is the empty string itself. *)
Lemma empty_mapping_stays_empty_string :
  translateMessage sample_stringify (AssistantMessage (BlockList []))
  = [mkMessage RoleAssistant (ContentString []) None None]
  /\ translateMessage sample_stringify (UserMessage (BlockList [TextBlock []]))
     = [mkMessage RoleUser (ContentString []) None None]
  /\ translateMessage sample_stringify (UserMessage (PlainText []))
     = [mkMessage RoleUser (ContentString []) None None]
  /\ ContentString [] <> ContentNull.
Proof. split_and!; [reflexivity..|discriminate]. Qed.

Lemma tool_use_content_null_when_empty_witness :
  (exists id name input, In (ToolUseBlock id name input) call_only)
  /\ exists m,
       handleAssistantMessage sample_stringify (BlockList call_only) = [m]
       /\ msg_role m = RoleAssistant
       /\ (collapsed call_only = [] -> msg_content m = ContentNull)
       /\ msg_content m <> ContentString [].
Proof.
  assert (H : exists id name input,
                In (@ToolUseBlock unit id name input) call_only).
  { exists (lit "toolu_1"), (lit "get_weather"), tt. by left. }
  split; [exact H|].
  exact (tool_use_content_null_when_empty unit sample_stringify call_only H).
Defined.

(** C4, as the spec states it, fails on assistant turns that carry a
    [tool_use] block: with no text at all the content is null, not the
    (empty) joined string; and the content lists the text blocks before the
    thinking blocks, whatever their order in the turn. *)
Lemma tool_use_branch_content_differs :
  (map msg_content
     (handleAssistantMessage sample_stringify (BlockList call_only))
   = [ContentNull]
   /\ collapsed call_only = [])
  /\ (map msg_content
        (handleAssistantMessage sample_stringify (BlockList think_speak_call))
      = [ContentString (lit "A" ++ blank_line ++ lit "T")]
      /\ collapsed think_speak_call = lit "T" ++ blank_line ++ lit "A"
      /\ lit "A" ++ blank_line ++ lit "T" <> lit "T" ++ blank_line ++ lit "A").
Proof. split_and!; [reflexivity..|discriminate]. Qed.

Lemma content_mapping_joins_in_order_witness :
  existsb isImage speak_think_call = false
  /\ mapContent (BlockList speak_think_call)
     = ContentString (lit "A" ++ blank_line ++ lit "T")
  /\ exists m,
       handleAssistantMessage sample_stringify (BlockList speak_think_call)
       = [m]
       /\ msg_role m = RoleAssistant
       /\ msg_content m = ContentString (lit "A" ++ blank_line ++ lit "T").
Proof.
  pose proof (content_mapping_joins_in_order unit sample_stringify
                speak_think_call eq_refl) as (Hmap & _ & _ & Htool).
  split; [reflexivity|]. split; [exact Hmap|].
  apply Htool.
  - exists (lit "toolu_1"), (lit "get_weather"), tt. right. right. by left.
  - intros i j thinking text Hi Hj.
    destruct i as [|[|[|i]]]; try discriminate Hi.
    destruct j as [|[|[|j]]]; try discriminate Hj. lia.
Defined.

(** ** [create-chat-completions.ts]: external images and the initiator *)

Section UpstreamCall.

Variable fetch : list N -> Exn + HttpResponse.
Variable base64 : list N -> list N.

Lemma mapM_Forall2 {A B} (f : A -> Exn + B) (l : list A) : forall l',
  mapM f l = inr l' -> Forall2 (fun x y => f x = inr y) l l'.
Proof.
  induction l as [|x l IH]; intros l' H; simpl in H.
  - injection H as <-. constructor.
  - destruct (f x) as [|y] eqn:Hx; [discriminate|]. simpl in H.
    destruct (mapM f l) as [|ys]; [discriminate|]. simpl in H.
    injection H as <-. constructor; [done|by apply IH].
Qed.

(** The callback never throws: the [catch] branch absorbs what the fetch
    throws. *)
Lemma resolvePart_total part :
  exists part', resolvePart fetch base64 part = inr part'.
Proof.
  destruct part as [t|image_url]; simpl; [by eexists|].
  destruct (startsWith _ _); [by eexists|].
  destruct (fetchImageAsBase64 fetch base64 (url image_url)); simpl; by eexists.
Qed.

Lemma resolvePart_failed image_url e :
  startsWith (url image_url) (lit "data:") = false ->
  fetchImageAsBase64 fetch base64 (url image_url) = inl e ->
  resolvePart fetch base64 (ImagePart image_url) = inr (ImagePart image_url).
Proof. intros Hext Hf. simpl. by rewrite Hext, Hf. Qed.

Lemma resolveMessage_total msg :
  exists msg', resolveMessage fetch base64 msg = inr msg'.
Proof.
  unfold resolveMessage. destruct (msg_content msg) as [|parts|];
    [by eexists| |by eexists].
  destruct (mapM_total (resolvePart fetch base64) parts) as [parts' ->].
  - apply Forall_forall. intros part _. apply resolvePart_total.
  - simpl. by eexists.
Qed.

Lemma resolveMessage_role msg msg' :
  resolveMessage fetch base64 msg = inr msg' -> msg_role msg' = msg_role msg.
Proof.
  unfold resolveMessage. destruct (msg_content msg) as [|parts|];
    try (by intros [= <-]).
  destruct (mapM _ parts); simpl; [discriminate|]. by intros [= <-].
Qed.

Lemma resolveExternalImages_total payload :
  exists resolved, resolveExternalImages fetch base64 payload = inr resolved.
Proof.
  unfold resolveExternalImages. destruct (negb _); [by eexists|].
  destruct (mapM_total (resolveMessage fetch base64) (pl_messages payload))
    as [msgs ->].
  - apply Forall_forall. intros msg _. apply resolveMessage_total.
  - simpl. by eexists.
Qed.

Lemma resolveExternalImages_roles payload resolved :
  resolveExternalImages fetch base64 payload = inr resolved ->
  map msg_role (pl_messages resolved) = map msg_role (pl_messages payload).
Proof.
  unfold resolveExternalImages. destruct (negb _); [by intros [= <-]|].
  destruct (mapM _ _) as [|msgs] eqn:E; simpl; [discriminate|].
  intros [= <-]. simpl. apply mapM_Forall2 in E.
  induction E as [|msg msg' l l' H _ IH]; simpl; [done|].
  by rewrite IH, (resolveMessage_role _ _ H).
Qed.

(** C9: resolving the external images of a payload never throws, and an
    external image reference whose fetch fails is still there afterwards,
    unchanged and at its place in the content of its message. *)
Theorem resolveExternalImages_keeps_unreachable payload :
  exists resolved,
    resolveExternalImages fetch base64 payload = inr resolved
    /\ forall i msg parts j image_url e,
         pl_messages payload !! i = Some msg ->
         msg_content msg = ContentParts parts ->
         parts !! j = Some (ImagePart image_url) ->
         startsWith (url image_url) (lit "data:") = false ->
         fetchImageAsBase64 fetch base64 (url image_url) = inl e ->
         exists msg' parts',
           pl_messages resolved !! i = Some msg'
           /\ msg_role msg' = msg_role msg
           /\ msg_content msg' = ContentParts parts'
           /\ parts' !! j = Some (ImagePart image_url).
Proof.
  destruct (resolveExternalImages_total payload) as [resolved Hr].
  exists resolved. split; [done|].
  intros i msg parts j image_url e Hi Hc Hj Hext Hfail.
  unfold resolveExternalImages in Hr.
  destruct (existsb _ (pl_messages payload)) eqn:Hany; simpl in Hr.
  - destruct (mapM _ _) as [|msgs] eqn:E; simpl in Hr; [discriminate|].
    injection Hr as <-. simpl. apply mapM_Forall2 in E.
    destruct (Forall2_lookup_l _ _ _ _ _ E Hi) as (msg' & Hi' & Hmsg).
    unfold resolveMessage in Hmsg. rewrite Hc in Hmsg.
    destruct (mapM _ parts) as [|parts'] eqn:Ep; simpl in Hmsg; [discriminate|].
    injection Hmsg as <-. apply mapM_Forall2 in Ep.
    destruct (Forall2_lookup_l _ _ _ _ _ Ep Hj) as (part' & Hj' & Hpart).
    rewrite (resolvePart_failed _ _ Hext Hfail) in Hpart. injection Hpart as <-.
    exists (mkMessage (msg_role msg) (ContentParts parts')
              (msg_tool_calls msg) (msg_tool_call_id msg)), parts'. done.
  - injection Hr as <-. exists msg, parts. done.
Qed.

Variable State : Type.
Variable copilotToken : State -> option (list N).
Variable copilotHeaders : State -> bool -> gmap (list N) (list N).
Variable copilotBaseUrl : State -> list N.

Lemma existsb_isAgentRole (messages : list Message) :
  existsb (fun msg => isAgentRole (msg_role msg)) messages = true
  <-> exists msg, In msg messages
        /\ (msg_role msg = RoleAssistant \/ msg_role msg = RoleTool).
Proof.
  rewrite existsb_exists. split; intros (msg & Hin & H); exists msg;
    (split; [done|]).
  - destruct (msg_role msg); try discriminate H; auto.
  - by destruct H as [-> | ->].
Qed.

Lemma isAgentRole_roles (l1 l2 : list Message) :
  map msg_role l1 = map msg_role l2 ->
  existsb (fun msg => isAgentRole (msg_role msg)) l1
  = existsb (fun msg => isAgentRole (msg_role msg)) l2.
Proof.
  revert l2. induction l1 as [|m1 l1 IH]; intros [|m2 l2] H; simpl in *;
    try discriminate H; [done|].
  injection H as -> H. by rewrite (IH l2).
Qed.

(** C10: the request [createChatCompletions] sends upstream carries
    [X-Initiator: agent] when some message of the payload has the role
    assistant or tool, and [X-Initiator: user] otherwise. *)
Theorem createChatCompletions_initiator state payload request :
  upstreamRequest fetch base64 State copilotToken copilotHeaders
    copilotBaseUrl state payload = inr request ->
  ((exists msg, In msg (pl_messages payload)
      /\ (msg_role msg = RoleAssistant \/ msg_role msg = RoleTool)) ->
   req_headers request !! X_Initiator = Some (lit "agent"))
  /\ (~ (exists msg, In msg (pl_messages payload)
           /\ (msg_role msg = RoleAssistant \/ msg_role msg = RoleTool)) ->
      req_headers request !! X_Initiator = Some (lit "user"))
  /\ (req_headers request !! X_Initiator = Some (lit "agent") <->
      exists msg, In msg (pl_messages payload)
        /\ (msg_role msg = RoleAssistant \/ msg_role msg = RoleTool)).
Proof.
  unfold upstreamRequest. destruct (negb _); [discriminate|].
  destruct (resolveExternalImages fetch base64 payload) as [|resolved] eqn:E;
    simpl; [discriminate|].
  intros [= <-]. cbn [req_headers]. rewrite lookup_insert_eq.
  rewrite (isAgentRole_roles _ _ (resolveExternalImages_roles _ _ E)).
  destruct (existsb _ (pl_messages payload)) eqn:Hagent.
  - apply existsb_isAgentRole in Hagent. split_and!; [done|done|done].
  - assert (Hno : ~ exists msg, In msg (pl_messages payload)
                      /\ (msg_role msg = RoleAssistant \/ msg_role msg = RoleTool)).
    { intros H. apply existsb_isAgentRole in H. congruence. }
    split_and!; [done|done|]. split; [|done].
    intros H. vm_compute in H. discriminate H.
Qed.

(** The request is sent as soon as there is a token. *)
Lemma upstreamRequest_total state payload c t :
  copilotToken state = Some (c :: t) ->
  exists request,
    upstreamRequest fetch base64 State copilotToken copilotHeaders
      copilotBaseUrl state payload = inr request.
Proof.
  intros Htok. unfold upstreamRequest. rewrite Htok. simpl.
  destruct (resolveExternalImages_total payload) as [resolved ->]. simpl.
  by eexists.
Qed.

End UpstreamCall.

Lemma resolveExternalImages_keeps_unreachable_witness :
  exists resolved msg' parts',
    resolveExternalImages unreachable id remote_image_payload = inr resolved
    /\ pl_messages resolved !! 0 = Some msg'
    /\ msg_role msg' = RoleUser
    /\ msg_content msg' = ContentParts parts'
    /\ parts' !! 1 = Some remote_image.
Proof.
  destruct (resolveExternalImages_keeps_unreachable unreachable id
              remote_image_payload) as (resolved & Hr & H).
  destruct (H 0 _ _ 1 _ NetworkError eq_refl eq_refl eq_refl eq_refl eq_refl)
    as (msg' & parts' & H0 & Hrole & Hc & H1).
  exists resolved, msg', parts'. done.
Defined.

Lemma createChatCompletions_initiator_witness :
  exists request,
    upstreamRequest unreachable id unit sample_token sample_headers
      sample_base_url tt agent_payload = inr request
    /\ req_headers request !! X_Initiator = Some (lit "agent").
Proof.
  eexists. split; [reflexivity|].
  apply (proj1 (createChatCompletions_initiator unreachable id unit
                  sample_token sample_headers sample_base_url tt agent_payload
                  _ eq_refl)).
  eexists. split; [right; left; reflexivity|]. by left.
Defined.

(** ** The stream of [handleCompletion] *)

Section StreamOrder.

Variable JSON_parse : list N -> option ChatCompletionChunk.

Abbreviation quiet events :=
  (Forall (fun event => isMessageStart event = false) events).

Lemma closeBlock_quiet st events st' :
  closeBlock st = (events, st') ->
  quiet events /\ messageStartSent st' = messageStartSent st.
Proof.
  unfold closeBlock. destruct (contentBlockOpen st); intros [= <- <-];
    split; repeat constructor.
Qed.

Lemma stepContent_quiet delta st events st' :
  stepContent delta st = (events, st') ->
  quiet events /\ messageStartSent st' = messageStartSent st.
Proof.
  unfold stepContent. destruct (delta_content delta) as [[|c text]|];
    try (intros [= <- <-]; split; by constructor).
  destruct (negb (contentBlockOpen st) || isToolBlockOpen st).
  - destruct (closeBlock st) as [closing st0] eqn:E.
    apply closeBlock_quiet in E. destruct E as [Hq Hs].
    intros [= <- <-]. split; [|done].
    rewrite !Forall_app. split_and!; [done|by repeat constructor..].
  - intros [= <- <-]. split; [by repeat constructor|done].
Qed.

Lemma stepToolCall_quiet events st toolCall events' st' :
  stepToolCall (events, st) toolCall = inr (events', st') ->
  quiet events ->
  quiet events' /\ messageStartSent st' = messageStartSent st.
Proof.
  unfold stepToolCall. intros H Hq.
  assert (Hargs : forall events1 st1,
            quiet events1 -> messageStartSent st1 = messageStartSent st ->
            match tcd_arguments toolCall, toolCalls st1 !! tcd_index toolCall with
            | Some arguments, Some info =>
                ret (events1
                       ++ [ContentBlockDelta (block_index info)
                             (InputJsonDelta arguments)],
                     mkStreamState (messageStartSent st1) (contentBlockIndex st1)
                       (contentBlockOpen st1)
                       (<[tcd_index toolCall :=
                            mkToolCallInfo (source_id info) (tool_name info)
                              (block_index info)
                              (arguments_emitted_so_far info ++ arguments)]>
                          (toolCalls st1)))
            | _, _ => ret (events1, st1)
            end = inr (events', st') ->
            quiet events' /\ messageStartSent st' = messageStartSent st).
  { intros events1 st1 Hq1 Hs1.
    destruct (tcd_arguments toolCall), (toolCalls st1 !! tcd_index toolCall);
      intros [= <- <-]; cbn [messageStartSent]; split; try done.
    rewrite Forall_app. split; [done|by repeat constructor]. }
  destruct (toolCalls st !! tcd_index toolCall) eqn:Hknown.
  - cbn [bind ret] in H. by apply Hargs in H.
  - destruct (closeBlock st) as [closing st0] eqn:E.
    apply closeBlock_quiet in E. destruct E as [Hc Hs].
    destruct (tcd_id toolCall), (tcd_name toolCall); try discriminate H.
    cbn [bind ret] in H. apply Hargs in H; [done| |done].
    rewrite !Forall_app. split_and!; [done..|by repeat constructor].
Qed.

Lemma foldM_stepToolCall_quiet calls : forall events st events' st',
  foldM stepToolCall calls (events, st) = inr (events', st') ->
  quiet events ->
  quiet events' /\ messageStartSent st' = messageStartSent st.
Proof.
  induction calls as [|call calls IH]; intros events st events' st' H Hq;
    cbn [foldM] in H.
  - by injection H as <- <-.
  - destruct (stepToolCall (events, st) call) as [|[events1 st1]] eqn:E;
      cbn [bind] in H; [discriminate|].
    apply stepToolCall_quiet in E; [|done]. destruct E as [Hq1 Hs1].
    apply IH in H; [|done]. destruct H as [Hq' Hs'].
    split; [done|congruence].
Qed.

Lemma stepFinish_quiet reason usage st events st' :
  stepFinish reason usage st = (events, st') ->
  quiet events /\ messageStartSent st' = messageStartSent st.
Proof.
  unfold stepFinish. destruct reason as [reason|].
  - destruct (closeBlock st) as [closing st0] eqn:E.
    apply closeBlock_quiet in E. destruct E as [Hq Hs].
    intros [= <- <-]. split; [|done].
    rewrite Forall_app. split; [done|by repeat constructor].
  - intros [= <- <-]. split; [constructor|done].
Qed.

Lemma stepChoice_quiet chunk choice st events st' :
  stepChoice chunk choice st = inr (events, st') ->
  quiet events /\ messageStartSent st' = messageStartSent st.
Proof.
  unfold stepChoice.
  destruct (stepContent _ st) as [events2 st2] eqn:E2.
  apply stepContent_quiet in E2. destruct E2 as [Hq2 Hs2].
  destruct (foldM _ _ _) as [|[events3 st3]] eqn:E3; [discriminate|].
  apply foldM_stepToolCall_quiet in E3; [|constructor].
  destruct E3 as [Hq3 Hs3]. cbn [bind].
  destruct (stepFinish _ _ st3) as [events4 st4] eqn:E4.
  apply stepFinish_quiet in E4. destruct E4 as [Hq4 Hs4].
  intros [= <- <-]. rewrite !Forall_app. split; [done|congruence].
Qed.

(** The modelled translator starts the message with the first fragment it
    sees, and only then. *)
Lemma translateChunk_message_start chunk st events st' :
  translateChunkToAnthropicEvents chunk st = inr (events, st') ->
  messageStartSent st' = true
  /\ if messageStartSent st then quiet events
     else exists id model rest,
            events = MessageStart id model :: rest /\ quiet rest.
Proof.
  unfold translateChunkToAnthropicEvents, stepMessageStart.
  destruct (messageStartSent st) eqn:Hsent; cbn [negb];
    (destruct (chunk_choices chunk) as [|choice _];
     [intros [= <- <-]
     |destruct (stepChoice chunk choice _) as [|[events2 st2]] eqn:E;
      [discriminate|];
      apply stepChoice_quiet in E; destruct E as [Hq Hs];
      cbn [bind]; intros [= <- <-]]); cbn [messageStartSent app] in *.
  - split; [done|constructor].
  - split; [congruence|done].
  - split; [done|]. eexists _, _, _. split; [reflexivity|constructor].
  - split; [done|]. eexists _, _, _. split; [reflexivity|done].
Qed.

Lemma streamLoop_quiet response : forall st,
  messageStartSent st = true -> quiet (streamLoop JSON_parse response st).
Proof.
  induction response as [|rawEvent response IH]; intros st Hsent; simpl;
    [constructor|].
  case_bool_decide; [constructor|].
  destruct (data rawEvent) as [[|c rawData]|]; try by apply IH.
  unfold translateRaw. destruct (JSON_parse (c :: rawData)) as [chunk|];
    [|by repeat constructor].
  destruct (translateChunkToAnthropicEvents chunk st) as [|[events st']] eqn:E;
    [by repeat constructor|].
  apply translateChunk_message_start in E. rewrite Hsent in E.
  destruct E as [Hsent' Hq]. rewrite Forall_app. split; [done|by apply IH].
Qed.

(** From a state in which the message has not started, a fragment that
    is translated starts it, with its own id and model. *)
Lemma translateChunk_first chunk st events st' :
  messageStartSent st = false ->
  translateChunkToAnthropicEvents chunk st = inr (events, st') ->
  messageStartSent st' = true
  /\ exists rest,
       events = MessageStart (chunk_id chunk) (chunk_model chunk) :: rest
       /\ quiet rest.
Proof.
  unfold translateChunkToAnthropicEvents, stepMessageStart. intros ->.
  cbn [negb]. destruct (chunk_choices chunk) as [|choice _].
  - intros [= <- <-]. split; [done|]. eexists. split; [done|constructor].
  - destruct (stepChoice chunk choice _) as [|[events2 st2]] eqn:E;
      [discriminate|].
    apply stepChoice_quiet in E. destruct E as [Hq Hs].
    cbn [bind]. intros [= <- <-]. cbn [messageStartSent app] in *.
    split; [done|]. by eexists.
Qed.

(** The loop, from a state in which the message has not started, by what
    becomes of the first fragment. *)
Lemma streamLoop_first response : forall st,
  messageStartSent st = false ->
  match firstFragment response with
  | None => streamLoop JSON_parse response st = []
  | Some rawData =>
      match translateRaw JSON_parse rawData st, JSON_parse rawData with
      | inr _, Some chunk =>
          exists rest,
            streamLoop JSON_parse response st
            = MessageStart (chunk_id chunk) (chunk_model chunk) :: rest
            /\ quiet rest
      | _, _ => streamLoop JSON_parse response st = [ErrorEvent]
      end
  end.
Proof.
  induction response as [|rawEvent response IH]; intros st Hsent;
    cbn [firstFragment streamLoop]; [done|].
  destruct (data rawEvent) as [[|c rawData]|] eqn:Hdata.
  - rewrite bool_decide_eq_false_2 by discriminate. by apply IH.
  - destruct (bool_decide (c :: rawData = DONE)) eqn:Hdone.
    + apply bool_decide_eq_true_1 in Hdone. rewrite Hdone.
      by rewrite bool_decide_eq_true_2.
    + apply bool_decide_eq_false_1 in Hdone.
      rewrite bool_decide_eq_false_2 by congruence.
      unfold translateRaw.
      destruct (JSON_parse (c :: rawData)) as [chunk|]; [|done].
      destruct (translateChunkToAnthropicEvents chunk st)
        as [|[events st']] eqn:E; [done|].
      apply translateChunk_first in E; [|done].
      destruct E as (Hsent' & rest & -> & Hq).
      exists (rest ++ streamLoop JSON_parse response st'). split; [done|].
      rewrite Forall_app. split; [done|by apply streamLoop_quiet].
  - rewrite bool_decide_eq_false_2 by discriminate. by apply IH.
Qed.


End StreamOrder.



(* ===================================================================== *)
(** * Part III: further properties of the code                            *)
(* ===================================================================== *)

(** ** More on the model-name normalizer *)

Section NormalizerShape.

Implicit Types (r : regex) (i : nat) (s a b p q : list N).

(** [exec] returns the leftmost match: the pattern matches at no earlier
    position. *)
Lemma exec_from_leftmost r : forall s i m,
  exec_from r i s = Some m ->
  forall pre a b c,
    s = pre ++ a ++ b -> i + length pre < index m ->
    ~ Matches r (i + length pre) a b ∅ c.
Proof.
  induction s as [|x s IH]; intros i m H pre a b c Hs Hlt Hm;
    rewrite exec_from_unfold in H.
  - destruct (matcher r i [] ∅ _) as [[e caps]|] eqn:E; [|discriminate].
    injection H as <-. simpl in Hlt. lia.
  - destruct (matcher r i (x :: s) ∅ _) as [[e caps]|] eqn:E.
    + injection H as <-. simpl in Hlt. lia.
    + destruct pre as [|y pre]; simpl in Hs.
      * rewrite Nat.add_0_r in Hm.
        destruct (matcher_complete r i a b ∅ c (fun e _ caps => Some (e, caps))
                    Hm) as [res Hres]; [done|].
        rewrite <- Hs in Hres. congruence.
      * injection Hs as -> ->.
        apply (IH (S i) m H pre a b c eq_refl); [simpl in Hlt; lia|].
        by replace (S i + length pre) with (i + length (y :: pre))
          by (simpl; lia).
Qed.

Lemma exec_leftmost r s m pre a b c :
  exec r s = Some m -> s = pre ++ a ++ b -> length pre < index m ->
  ~ Matches r (length pre) a b ∅ c.
Proof. intros H Hs Hlt. by apply (exec_from_leftmost r s 0 m H pre a b c). Qed.

(** The first step cuts at the first bracket that opens a trailing
    annotation. *)
Lemma stripBracketSuffix_first s :
  test bracketSuffixPattern s = true ->
  exists p q,
    s = p ++ 91%N :: q ++ [93%N] /\ one_line q /\ stripBracketSuffix s = p
    /\ forall p1 q1,
         s = p1 ++ 91%N :: q1 ++ [93%N] -> one_line q1 ->
         length p <= length p1.
Proof.
  intros Ht. unfold stripBracketSuffix. rewrite Ht. unfold test in Ht.
  destruct (exec bracketSuffixPattern s) as [m|] eqn:Hm; [|discriminate].
  pose proof (fun pre a b => exec_leftmost _ _ _ pre a b ∅ Hm) as Hleft.
  unfold replace. rewrite Hm. apply exec_sound in Hm.
  destruct Hm as (pre & a & b & -> & Hi & He & Hmatch).
  apply bracketSuffix_inv in Hmatch. destruct Hmatch as (-> & q & -> & Hq).
  exists pre, q. rewrite !app_nil_r. split_and!; [done..| |].
  - rewrite Hi, He, firstn_app, firstn_all, Nat.sub_diag. cbn [firstn].
    rewrite skipn_all2 by (rewrite !length_app; simpl; lia).
    by rewrite !app_nil_r.
  - intros p1 q1 Hs Hq1. destruct (Nat.le_gt_cases (length pre) (length p1));
      [done|exfalso].
    apply (Hleft p1 (91%N :: q1 ++ [93%N]) []);
      [by rewrite !app_nil_r in *|rewrite Hi; lia|].
    by apply bracketSuffix_intro.
Qed.

Lemma one_line_app p q : one_line (p ++ q) <-> one_line p /\ one_line q.
Proof. unfold one_line. rewrite forallb_app. apply andb_true_iff. Qed.

Lemma test_bracketSuffix_false s :
  ~ In 91%N s -> test bracketSuffixPattern s = false.
Proof.
  intros Hno. destruct (test bracketSuffixPattern s) eqn:Ht; [|done].
  apply test_bracketSuffix in Ht. destruct Ht as (p & q & -> & _).
  destruct Hno. apply in_or_app. right. by left.
Qed.

Lemma test_dateSuffix_app s d :
  length d = 8 -> forallb is_digit d = true ->
  test dateSuffixPattern (s ++ hyphen :: d) = true
  /\ stripDateSuffix (s ++ hyphen :: d) = s.
Proof.
  intros Hlen Hd.
  assert (Ht : test dateSuffixPattern (s ++ hyphen :: d) = true).
  { apply test_dateSuffix. by exists s, d. }
  split; [done|].
  destruct (stripDateSuffix_cases (s ++ hyphen :: d))
    as [[Hf _]|(p & d' & Heq & Hlen' & Hd' & ->)]; [congruence|].
  apply (last_outside_unique is_digit) in Heq; try done.
  by destruct Heq as (-> & _ & _).
Qed.

End NormalizerShape.

(** X1: the names the normalizer leaves alone are exactly those none of
    its three patterns matches: no trailing bracket annotation, no trailing
    hyphen with eight digits, no one-line name ending in
    [-<digits>-<digits>]. *)
Theorem translateModelName_fixed_point (s : list N) :
  translateModelName s = s
  <-> ~ (exists p q, s = p ++ 91%N :: q ++ [93%N] /\ one_line q)
      /\ ~ (exists p d, s = p ++ hyphen :: d /\ length d = 8
                        /\ forallb is_digit d = true)
      /\ ~ (exists p d1 d2, hyphen_pair s p d1 d2 /\ one_line p).
Proof.
  rewrite <- test_bracketSuffix, <- test_dateSuffix. split.
  - intros Heq.
    destruct (test bracketSuffixPattern s) eqn:Hb.
    { pose proof (translateModelName_shortens s (or_introl Hb)) as Hlt.
      rewrite Heq in Hlt. lia. }
    destruct (test dateSuffixPattern s) eqn:Hd.
    { pose proof (translateModelName_shortens s (or_intror Hd)) as Hlt.
      rewrite Heq in Hlt. lia. }
    split_and!; [done..|].
    intros (p & d1 & d2 & Hpair & Hp).
    unfold translateModelName, stripBracketSuffix, stripDateSuffix in Heq.
    rewrite Hb, Hd in Heq.
    rewrite (convertHyphenMinor_pair _ _ _ _ Hpair Hp) in Heq.
    destruct Hpair as (-> & _ & _).
    apply app_inv_head in Heq. injection Heq as Heq.
    apply app_inv_head in Heq. discriminate Heq.
  - intros (Hb & Hd & Hm).
    apply not_true_is_false in Hb, Hd.
    unfold translateModelName, stripBracketSuffix, stripDateSuffix.
    rewrite Hb, Hd. by apply convertHyphenMinor_other.
Qed.

(** X2: the normalized name is a prefix of the given name in which at most
    one hyphen, the one in front of the final run of digits, has become a
    dot: the normalizer only cuts at the end and never changes any other
    character. *)
Theorem translateModelName_shape (s : list N) :
  exists kept dropped,
    s = kept ++ dropped
    /\ (translateModelName s = kept
        \/ exists u v,
             kept = u ++ hyphen :: v /\ digits v
             /\ translateModelName s = u ++ dot :: v).
Proof.
  unfold translateModelName.
  assert (H1 : exists r1, s = stripBracketSuffix s ++ r1).
  { destruct (stripBracketSuffix_cases s) as [[_ ->]|(p & q & -> & _ & ->)].
    - exists []. by rewrite app_nil_r.
    - by eexists. }
  destruct H1 as [r1 H1].
  assert (H2 : exists r2,
            stripBracketSuffix s = stripDateSuffix (stripBracketSuffix s) ++ r2).
  { destruct (stripDateSuffix_cases (stripBracketSuffix s))
      as [[_ ->]|(p & d & Heq & _ & _ & ->)].
    - exists []. by rewrite app_nil_r.
    - by eexists. }
  destruct H2 as [r2 H2].
  exists (stripDateSuffix (stripBracketSuffix s)), (r2 ++ r1).
  split; [by rewrite app_assoc, <- H2|].
  destruct (convertHyphenMinor_cases (stripDateSuffix (stripBracketSuffix s)))
    as [->|(p & d1 & d2 & (Heq & Hd1 & Hd2) & _ & ->)]; [by left|right].
  exists (p ++ hyphen :: d1), d2. rewrite Heq, <- !app_assoc. done.
Qed.

(** X3: a name that ends in a bracket annotation or in a hyphen with eight
    digits comes back strictly shorter: such a suffix is always removed. *)
Theorem translateModelName_removes_suffix (s : list N) :
  test bracketSuffixPattern s = true \/ test dateSuffixPattern s = true ->
  length (translateModelName s) < length s.
Proof. apply translateModelName_shortens. Qed.

Lemma translateModelName_removes_suffix_witness :
  test dateSuffixPattern (lit "claude-sonnet-4-20250514") = true
  /\ length (translateModelName (lit "claude-sonnet-4-20250514"))
     < length (lit "claude-sonnet-4-20250514").
Proof.
  split; [vm_compute; reflexivity|].
  apply (translateModelName_removes_suffix (lit "claude-sonnet-4-20250514")).
  right. vm_compute. reflexivity.
Defined.

(** X4: a date suffix does not change what a name normalizes to: a name
    that carries neither suffix, followed by a hyphen and eight digits,
    normalizes like the name itself. *)
Theorem translateModelName_date_suffix (s d : list N) :
  test bracketSuffixPattern s = false ->
  test dateSuffixPattern s = false ->
  length d = 8 -> forallb is_digit d = true ->
  translateModelName (s ++ hyphen :: d) = translateModelName s.
Proof.
  intros Hb Hd Hlen Hdig.
  assert (Hb' : test bracketSuffixPattern (s ++ hyphen :: d) = false).
  { destruct (test bracketSuffixPattern (s ++ hyphen :: d)) eqn:Ht; [|done].
    apply test_bracketSuffix in Ht. destruct Ht as (p & q & Heq & _).
    assert (Hlast : last (s ++ hyphen :: d) = Some 93%N).
    { rewrite Heq. change (p ++ 91%N :: q ++ [93%N])
        with (p ++ (91%N :: q) ++ [93%N]).
      rewrite app_assoc. apply last_snoc. }
    destruct (exists_last (l := d)) as (d' & x & ->);
      [by intros ->|].
    rewrite forallb_app in Hdig. apply andb_true_iff in Hdig.
    destruct Hdig as [_ Hx]. simpl in Hx. rewrite andb_true_r in Hx.
    replace (s ++ hyphen :: d' ++ [x]) with ((s ++ hyphen :: d') ++ [x])
      in Hlast by (by rewrite <- app_assoc).
    rewrite last_snoc in Hlast. injection Hlast as ->. discriminate Hx. }
  unfold translateModelName, stripBracketSuffix. rewrite Hb, Hb'.
  rewrite (proj2 (test_dateSuffix_app s d Hlen Hdig)).
  unfold stripDateSuffix. by rewrite Hd.
Qed.

Lemma translateModelName_date_suffix_witness :
  translateModelName (lit "claude-haiku-4-5" ++ hyphen :: lit "20251001")
  = translateModelName (lit "claude-haiku-4-5").
Proof.
  apply (translateModelName_date_suffix (lit "claude-haiku-4-5")
           (lit "20251001")); vm_compute; reflexivity.
Defined.

(** X5: a bracket annotation at the end of a name without an opening
    bracket does not change what the name normalizes to. *)
Theorem translateModelName_bracket_suffix (s q : list N) :
  ~ In 91%N s -> one_line q ->
  translateModelName (s ++ 91%N :: q ++ [93%N]) = translateModelName s.
Proof.
  intros Hno Hq.
  assert (Ht : test bracketSuffixPattern (s ++ 91%N :: q ++ [93%N]) = true).
  { apply test_bracketSuffix. by exists s, q. }
  destruct (stripBracketSuffix_first _ Ht) as (p & q' & Heq & Hq' & Hs & Hmin).
  assert (Hp : p = s).
  { pose proof (Hmin s q eq_refl Hq) as Hle.
    apply app_eq_inv in Heq. destruct Heq as [(k & -> & Hk)|(k & -> & Hk)].
    - destruct k as [|x k]; [by rewrite app_nil_r|].
      injection Hk as <- _. destruct Hno. apply in_or_app. right. by left.
    - destruct k as [|x k]; [by rewrite app_nil_r|].
      rewrite length_app in Hle. simpl in Hle. lia. }
  unfold translateModelName at 1. rewrite Hs, Hp.
  unfold translateModelName, stripBracketSuffix.
  by rewrite (test_bracketSuffix_false s Hno).
Qed.

Lemma translateModelName_bracket_suffix_witness :
  translateModelName (lit "claude-opus-4-6" ++ 91%N :: lit "1m" ++ [93%N])
  = translateModelName (lit "claude-opus-4-6").
Proof.
  apply (translateModelName_bracket_suffix (lit "claude-opus-4-6") (lit "1m")).
  - vm_compute. intuition discriminate.
  - reflexivity.
Defined.

(** ** More on the content mapping *)

Section ContentParts.

Variable json : Type.
Variable JSON_stringify : json -> list N.
Variable JSON_parse : list N -> option json.

Implicit Types (blocks : list (AnthropicBlock json)).

Lemma mapContent_parts_fold blocks : forall acc,
  fold_left
    (fun contentParts (block : AnthropicBlock json) =>
       match block with
       | TextBlock text => contentParts ++ [TextPart text]
       | ThinkingBlock thinking => contentParts ++ [TextPart thinking]
       | ImageBlock media_type data =>
           contentParts
             ++ [ImagePart
                   (mkImageUrl (NonStreamTranslation.dataUri media_type data)
                      None)]
       | _ => contentParts
       end) blocks acc
  = acc ++ fold_left
             (fun contentParts (block : AnthropicBlock json) =>
                match block with
                | TextBlock text => contentParts ++ [TextPart text]
                | ThinkingBlock thinking => contentParts ++ [TextPart thinking]
                | ImageBlock media_type data =>
                    contentParts
                      ++ [ImagePart
                            (mkImageUrl
                               (NonStreamTranslation.dataUri media_type data)
                               None)]
                | _ => contentParts
                end) blocks [].
Proof.
  induction blocks as [|b blocks IH]; intros acc; simpl;
    [by rewrite app_nil_r|].
  destruct b; rewrite ?(IH (acc ++ _)), ?(IH [_]), <- ?app_assoc; done.
Qed.

Lemma mapContent_parts blocks :
  existsb isImage blocks = true ->
  exists parts,
    mapContent (BlockList blocks) = ContentParts parts
    /\ Forall2 part_for parts (List.filter isPartBlock blocks)
    /\ part_texts parts = texts_in_order blocks.
Proof.
  intros Himg. unfold mapContent. rewrite Himg. cbn [negb].
  eexists. split; [reflexivity|]. clear Himg.
  induction blocks as [|b blocks [IH1 IH2]]; [split; [constructor|done]|].
  cbn [fold_left]. rewrite mapContent_parts_fold.
  destruct b; cbn [app List.filter isPartBlock].
  - split; [by constructor|]. unfold part_texts in *.
    cbn [flat_map app texts_in_order]. by rewrite IH2.
  - split; [by constructor|]. unfold part_texts in *.
    cbn [flat_map app texts_in_order]. by rewrite IH2.
  - split; [by constructor|]. unfold part_texts in *.
    cbn [flat_map app texts_in_order]. by rewrite IH2.
  - by split.
  - by split.
Qed.

(** X6: when a block list holds an image, [mapContent] yields one content
    part for each text, thinking and image block, in the blocks' order: a
    text part with the text or the thinking, an image part with the data
    URI of the image. Blocks of the other kinds leave no part, and no text
    is lost. *)
Theorem mapContent_with_image blocks :
  existsb isImage blocks = true ->
  exists parts,
    mapContent (BlockList blocks) = ContentParts parts
    /\ Forall2 part_for parts (List.filter isPartBlock blocks)
    /\ part_texts parts = texts_in_order blocks.
Proof. apply mapContent_parts. Qed.

(** X7: the content of a tool result: a string is handed on as it is; a
    list without images becomes the texts joined by blank lines; a list with
    an image becomes one content part per block, in order. *)
Theorem mapToolResultContent_cases (content : ToolResultContent) :
  match content with
  | ResultString s => mapToolResultContent content = ContentString s
  | ResultParts parts =>
      if existsb isResultImage parts then
        exists contentParts,
          mapToolResultContent content = ContentParts contentParts
          /\ Forall2 part_for_result contentParts parts
      else
        mapToolResultContent content
        = ContentString (join blank_line (result_texts parts))
        /\ length (result_texts parts) = length parts
  end.
Proof.
  destruct content as [s|parts]; [reflexivity|].
  unfold mapToolResultContent.
  change (existsb _ parts) with (existsb isResultImage parts).
  destruct (existsb isResultImage parts) eqn:Himg; cbn [negb].
  - eexists. split; [reflexivity|]. clear Himg.
    induction parts as [|[] parts IH]; constructor; done.
  - split; [reflexivity|].
    induction parts as [|[] parts IH]; simpl in *; [done| |discriminate].
    f_equal. by apply IH.
Qed.

Lemma startsWith_app (prefix rest : list N) :
  startsWith (prefix ++ rest) prefix = true.
Proof.
  induction prefix as [|c prefix IH]; simpl; [by destruct rest|].
  by rewrite N.eqb_refl.
Qed.

Lemma dataUri_internal media_type data detail :
  isExternalImage
    (ImagePart (mkImageUrl (NonStreamTranslation.dataUri media_type data) detail))
  = false.
Proof.
  unfold isExternalImage, NonStreamTranslation.dataUri. cbn [url].
  by rewrite startsWith_app.
Qed.

Lemma mapContent_internal (content : AnthropicContent json) :
  match mapContent content with
  | ContentParts parts => existsb isExternalImage parts = false
  | _ => True
  end.
Proof.
  destruct content as [s|blocks]; [done|]. unfold mapContent.
  destruct (negb _); [done|].
  assert (H : forall acc,
            existsb isExternalImage acc = false ->
            existsb isExternalImage
              (fold_left
                 (fun contentParts (block : AnthropicBlock json) =>
                    match block with
                    | TextBlock text => contentParts ++ [TextPart text]
                    | ThinkingBlock thinking =>
                        contentParts ++ [TextPart thinking]
                    | ImageBlock media_type data =>
                        contentParts
                          ++ [ImagePart
                                (mkImageUrl
                                   (NonStreamTranslation.dataUri media_type data)
                                   None)]
                    | _ => contentParts
                    end) blocks acc) = false); [|by apply H].
  induction blocks as [|b blocks IH]; intros acc Hacc; [done|].
  cbn [fold_left]. destruct b; apply IH; rewrite ?existsb_app, ?Hacc; try done.
  cbn [existsb]. by rewrite dataUri_internal.
Qed.

Lemma mapToolResultContent_internal (content : ToolResultContent) :
  match mapToolResultContent content with
  | ContentParts parts => existsb isExternalImage parts = false
  | _ => True
  end.
Proof.
  destruct content as [s|parts]; [done|]. unfold mapToolResultContent.
  destruct (negb _); [done|].
  induction parts as [|[] parts IH]; [done|exact IH|].
  cbn [map existsb]. by rewrite dataUri_internal.
Qed.

Lemma translateMessage_internal (message : AnthropicMessage json) :
  Forall no_external_image (translateMessage JSON_stringify message).
Proof.
  destruct message as [content|content]; cbn [translateMessage].
  - destruct content as [s|blocks]; [by repeat constructor|].
    rewrite handleUserMessage_blocks. apply Forall_app. split.
    + induction (toolResultBlocksOf blocks) as [|[id c] l IH]; constructor;
        [|exact IH].
      unfold no_external_image. cbn [msg_content].
      apply mapToolResultContent_internal.
    + destruct (List.filter _ blocks) eqn:E; [constructor|].
      rewrite <- E. repeat constructor. unfold no_external_image.
      cbn [msg_content]. apply mapContent_internal.
  - unfold handleAssistantMessage. destruct content as [s|blocks];
      [by repeat constructor|].
    destruct (0 <? _)%nat; repeat constructor; unfold no_external_image;
      cbn [msg_content].
    + by destruct (truthy _).
    + apply (mapContent_internal (BlockList blocks)).
Qed.

(** ** More on [handleAssistantMessage] *)

Lemma toolUseBlocksOf_calls blocks :
  Forall2 (call_for JSON_stringify)
    (map (fun '(id, name, input) => mkToolCall id name (JSON_stringify input))
       (toolUseBlocksOf blocks))
    (List.filter isToolUse blocks).
Proof.
  induction blocks as [|[] blocks IH]; simpl; try done.
  constructor; [reflexivity|exact IH].
Qed.

Lemma toolUseBlocksOf_none blocks :
  toolUseBlocksOf blocks = [] <-> List.filter isToolUse blocks = [].
Proof. induction blocks as [|[] blocks IH]; simpl; try done. Qed.

(** X8: an assistant turn always becomes exactly one assistant message,
    without a tool call id. It carries tool calls exactly when the turn has
    [tool_use] blocks, and then one call for each of them, in order, with
    the block's id and name and its input as JSON text. *)
Theorem handleAssistantMessage_tool_calls (content : AnthropicContent json) :
  exists m,
    handleAssistantMessage JSON_stringify content = [m]
    /\ msg_role m = RoleAssistant
    /\ msg_tool_call_id m = None
    /\ match content with
       | PlainText s =>
           msg_content m = ContentString s /\ msg_tool_calls m = None
       | BlockList blocks =>
           match List.filter isToolUse blocks with
           | [] => msg_tool_calls m = None
           | toolUses =>
               exists calls,
                 msg_tool_calls m = Some calls
                 /\ Forall2 (call_for JSON_stringify) calls toolUses
           end
       end.
Proof.
  destruct content as [s|blocks]; [by eexists|].
  unfold handleAssistantMessage.
  pose proof (toolUseBlocksOf_calls blocks) as Hcalls.
  pose proof (toolUseBlocksOf_none blocks) as Hnone.
  destruct (toolUseBlocksOf blocks) as [|u us] eqn:E.
  - rewrite (proj1 Hnone eq_refl). by eexists.
  - cbn [length Nat.ltb Nat.leb]. eexists. split_and!; [reflexivity..|].
    cbn [msg_tool_calls].
    destruct (List.filter isToolUse blocks) eqn:Ef;
      [by pose proof (proj2 Hnone eq_refl)|].
    eexists. split; [reflexivity|exact Hcalls].
Qed.

(** ** Round trips between the two translators *)

Hypothesis parse_stringify :
  forall input, JSON_parse (JSON_stringify input) = Some input.

(** X9: tool calls survive the round trip. When [JSON.parse] undoes
    [JSON.stringify], reading back the tool calls that an assistant turn
    was given returns the [tool_use] blocks of the turn, in order and
    unchanged. *)
Theorem tool_use_round_trip blocks :
  exists m,
    handleAssistantMessage JSON_stringify (BlockList blocks) = [m]
    /\ getAnthropicToolUseBlocks JSON_parse (msg_tool_calls m)
       = inr (List.filter isToolUse blocks).
Proof using parse_stringify.
  unfold handleAssistantMessage.
  destruct (toolUseBlocksOf blocks) as [|u us] eqn:E.
  - cbn [length Nat.ltb Nat.leb]. eexists. split; [reflexivity|].
    cbn. by rewrite (proj1 (toolUseBlocksOf_none blocks) E).
  - cbn [length Nat.ltb Nat.leb]. eexists. split; [reflexivity|].
    cbn [msg_tool_calls getAnthropicToolUseBlocks]. rewrite <- E. clear E.
    induction blocks as [|b blocks IH]; [done|].
    destruct b; cbn [toolUseBlocksOf flat_map app List.filter isToolUse map mapM]
      in *; try exact IH.
    cbn [tc_arguments tc_id tc_name]. rewrite parse_stringify.
    unfold toolUseBlocksOf in IH. cbn [bind ret]. rewrite IH. reflexivity.
Qed.

End ContentParts.

Lemma mapContent_with_image_witness :
  exists parts,
    mapContent
      (BlockList
         [ThinkingBlock (lit "hm"); ImageBlock (lit "image/png") (lit "AAAA");
          weather_call; TextBlock (lit "look")])
    = ContentParts parts
    /\ part_texts parts = [lit "hm"; lit "look"].
Proof.
  destruct (mapContent_with_image unit
              [ThinkingBlock (lit "hm");
               ImageBlock (lit "image/png") (lit "AAAA");
               weather_call; TextBlock (lit "look")] eq_refl)
    as (parts & H & _ & Ht).
  exists parts. split; [exact H|exact Ht].
Defined.

Lemma tool_use_round_trip_witness :
  exists m,
    handleAssistantMessage sample_stringify (BlockList think_speak_call) = [m]
    /\ getAnthropicToolUseBlocks sample_parse (msg_tool_calls m)
       = inr [weather_call].
Proof.
  apply (tool_use_round_trip unit sample_stringify sample_parse).
  by intros [].
Defined.

(** X10: text survives the round trip. Reading back what [mapContent]
    produced gives one text block with the string, for a string and for a
    block list without images (the joined text), and one text block for
    each text and thinking block of a list with an image. *)
Theorem text_round_trip {json} (content : AnthropicContent json) :
  getAnthropicTextBlocks (mapContent content)
  = match content with
    | PlainText s => [@TextBlock json s]
    | BlockList blocks =>
        if existsb isImage blocks
        then map TextBlock (texts_in_order blocks)
        else [TextBlock (collapsed blocks)]
    end.
Proof.
  destruct content as [s|blocks]; [reflexivity|].
  destruct (existsb isImage blocks) eqn:Himg.
  - destruct (mapContent_parts json blocks Himg) as (parts & -> & _ & <-).
    cbn [getAnthropicTextBlocks]. clear.
    induction parts as [|[] parts IH]; simpl; congruence.
  - by rewrite mapContent_no_image.
Qed.

(** ** More on [translateToAnthropic] *)

Section ResponseShape.

Variable json : Type.
Variable JSON_parse : list N -> option json.

Lemma mapM_inl {A B} (f : A -> Exn + B) (l : list A) e :
  mapM f l = inl e -> exists x, In x l /\ f x = inl e.
Proof.
  induction l as [|x l IH]; simpl; [discriminate|].
  destruct (f x) as [e'|y] eqn:Hx; simpl.
  - intros [= <-]. exists x. by split; [left|].
  - destruct (mapM f l) as [e'|ys]; simpl; [|discriminate].
    intros [= <-]. destruct (IH eq_refl) as (x' & Hin & Hx').
    exists x'. by split; [right|].
Qed.

Lemma getAnthropicToolUseBlocks_inl calls e :
  getAnthropicToolUseBlocks JSON_parse calls = inl e ->
  exists call,
    In call (default [] calls)
    /\ JSON_parse (tc_arguments call) = None
    /\ e = SyntaxError (tc_arguments call).
Proof.
  destruct calls as [calls|]; [|discriminate]. simpl. intros H.
  apply mapM_inl in H. destruct H as (call & Hin & H).
  exists call. destruct (JSON_parse (tc_arguments call)); [discriminate|].
  injection H as <-. done.
Qed.

Lemma getAnthropicToolUseBlocks_inr calls blocks :
  getAnthropicToolUseBlocks JSON_parse calls = inr blocks ->
  Forall2 (block_for JSON_parse) blocks (default [] calls).
Proof.
  destruct calls as [calls|]; simpl; [|intros [= <-]; constructor].
  intros H. apply mapM_Forall2 in H.
  induction H as [|call block calls blocks H _ IH]; constructor; [|exact IH].
  destruct (JSON_parse (tc_arguments call)) as [input|] eqn:E; [|discriminate].
  injection H as <-. by exists input.
Qed.

(** What the loop over the choices has collected when it ends. *)
Lemma foldM_mergeChoice_blocks choices : forall acc merged,
  foldM (mergeChoice JSON_parse) choices acc = inr merged ->
  allTextBlocks merged
  = allTextBlocks acc
      ++ flat_map (fun choice =>
                     getAnthropicTextBlocks (rm_content (choice_message choice)))
           choices
  /\ exists toolUses,
       allToolUseBlocks merged = allToolUseBlocks acc ++ toolUses
       /\ Forall2 (block_for JSON_parse) toolUses
            (flat_map (fun choice =>
                         default [] (rm_tool_calls (choice_message choice)))
               choices).
Proof.
  induction choices as [|choice choices IH]; intros acc merged H;
    cbn [foldM] in H.
  - injection H as <-. rewrite app_nil_r. split; [done|].
    exists []. by rewrite app_nil_r.
  - unfold mergeChoice in H at 1.
    destruct (getAnthropicToolUseBlocks JSON_parse _) as [|blocks] eqn:E;
      [discriminate|].
    cbn [bind ret] in H. apply IH in H. cbn [allTextBlocks allToolUseBlocks] in H.
    destruct H as (Ht & toolUses & Hu & Hall).
    apply getAnthropicToolUseBlocks_inr in E.
    split; [by rewrite Ht, <- app_assoc|].
    exists (blocks ++ toolUses). rewrite Hu, <- app_assoc. split; [done|].
    cbn [flat_map]. by apply Forall2_app.
Qed.

Lemma foldM_mergeChoice_inl choices : forall acc e,
  foldM (mergeChoice JSON_parse) choices acc = inl e ->
  exists call,
    In call (flat_map (fun choice =>
                         default [] (rm_tool_calls (choice_message choice)))
               choices)
    /\ JSON_parse (tc_arguments call) = None
    /\ e = SyntaxError (tc_arguments call).
Proof.
  induction choices as [|choice choices IH]; intros acc e H;
    cbn [foldM] in H; [discriminate|].
  unfold mergeChoice in H at 1.
  destruct (getAnthropicToolUseBlocks JSON_parse _) as [e'|blocks] eqn:E.
  - cbn [bind] in H. injection H as <-.
    apply getAnthropicToolUseBlocks_inl in E.
    destruct E as (call & Hin & Hp & ->). exists call.
    split; [|done]. cbn [flat_map]. apply in_or_app. by left.
  - cbn [bind ret] in H. apply IH in H.
    destruct H as (call & Hin & Hp & ->). exists call.
    split; [|done]. cbn [flat_map]. apply in_or_app. by right.
Qed.

(** X11: the translator fails exactly when the arguments of some tool call
    are not JSON, and what it throws then is the syntax error of such
    arguments; nothing else makes it fail. *)
Theorem translateToAnthropic_fails response :
  ((exists r, translateToAnthropic JSON_parse response = inr r)
   <-> Forall (fun call => is_Some (JSON_parse (tc_arguments call)))
         (all_tool_calls response))
  /\ forall e,
       translateToAnthropic JSON_parse response = inl e ->
       exists call,
         In call (all_tool_calls response)
         /\ JSON_parse (tc_arguments call) = None
         /\ e = SyntaxError (tc_arguments call).
Proof.
  assert (Hfail : forall e,
            translateToAnthropic JSON_parse response = inl e ->
            exists call,
              In call (all_tool_calls response)
              /\ JSON_parse (tc_arguments call) = None
              /\ e = SyntaxError (tc_arguments call)).
  { intros e. unfold translateToAnthropic, mergeChoices.
    destruct (foldM _ _ _) as [e'|merged] eqn:E; cbn [bind ret];
      [|discriminate].
    intros [= <-]. by apply foldM_mergeChoice_inl in E. }
  split; [|exact Hfail]. split.
  - intros [r Hr]. unfold translateToAnthropic, mergeChoices in Hr.
    destruct (foldM _ _ _) as [|merged] eqn:E; [discriminate|].
    apply foldM_mergeChoice_blocks in E. destruct E as (_ & toolUses & _ & Hall).
    unfold all_tool_calls. clear -Hall.
    induction Hall as [|block call blocks calls (input & Hp & _) _ IH];
      constructor; [by rewrite Hp|exact IH].
  - intros Hall.
    destruct (translateToAnthropic JSON_parse response) as [e|r] eqn:E;
      [|by eexists].
    destruct (Hfail e eq_refl) as (call & Hin & Hp & _).
    rewrite List.Forall_forall in Hall. apply Hall in Hin. rewrite Hp in Hin.
    by destruct Hin.
Qed.

(** X12: the content of the translated response: first the text blocks of
    all choices, choice after choice, then the [tool_use] blocks of all
    choices, one for each tool call, with the call's id and name and its
    parsed arguments. The id and the model of the response are handed on,
    and no stop sequence is reported. *)
Theorem translateToAnthropic_content response r :
  translateToAnthropic JSON_parse response = inr r ->
  ar_id r = resp_id response
  /\ ar_model r = resp_model response
  /\ ar_stop_sequence r = None
  /\ exists toolUses,
       ar_content r
       = flat_map (fun choice =>
                     getAnthropicTextBlocks (rm_content (choice_message choice)))
           (resp_choices response)
         ++ toolUses
       /\ Forall2 (block_for JSON_parse) toolUses (all_tool_calls response).
Proof.
  unfold translateToAnthropic, mergeChoices.
  destruct (foldM _ _ _) as [|merged] eqn:E; [discriminate|].
  cbn [bind ret]. intros [= <-]. split_and!; [reflexivity..|].
  apply foldM_mergeChoice_blocks in E. destruct E as (Ht & toolUses & Hu & Hall).
  exists toolUses. cbn [ar_content allTextBlocks allToolUseBlocks app] in *.
  by rewrite Ht, Hu.
Qed.

(** X13: the stop reason in the usual cases. A response with one choice
    reports that choice's finish reason, a response without choices reports
    none, and a response in which some choice finished with [tool_calls]
    reports [tool_calls]; each of them mapped by
    [mapOpenAIStopReasonToAnthropic]. *)
Theorem translateToAnthropic_stop_reason response r :
  translateToAnthropic JSON_parse response = inr r ->
  (resp_choices response = [] ->
   ar_stop_reason r = mapOpenAIStopReasonToAnthropic None)
  /\ (forall choice,
        resp_choices response = [choice] ->
        ar_stop_reason r
        = mapOpenAIStopReasonToAnthropic (Some (choice_finish_reason choice)))
  /\ (In FinishToolCalls (map choice_finish_reason (resp_choices response)) ->
      ar_stop_reason r = mapOpenAIStopReasonToAnthropic (Some FinishToolCalls)).
Proof.
  unfold translateToAnthropic.
  destruct (mergeChoices JSON_parse response) as [|merged] eqn:E;
    [discriminate|].
  cbn [bind ret]. intros [= <-]. cbn [ar_stop_reason].
  pose proof (mergeChoices_stopReason json JSON_parse response merged E) as Hs.
  split_and!.
  - intros Hc. rewrite Hs, Hc. reflexivity.
  - intros choice Hc. rewrite Hs, Hc. cbn.
    unfold nextStopReason. by destruct (choice_finish_reason choice).
  - intros Hin. rewrite Hs. f_equal.
    apply fold_nextStopReason_tool_calls. by left.
Qed.

End ResponseShape.

Lemma translateToAnthropic_content_witness :
  exists r,
    translateToAnthropic sample_parse cached_response = inr r
    /\ ar_id r = lit "chatcmpl-2"
    /\ ar_content r = [TextBlock (lit "hello")].
Proof.
  eexists. split; [reflexivity|].
  destruct (translateToAnthropic_content unit sample_parse cached_response _
              eq_refl) as (Hid & _ & _ & toolUses & Hc & Hall).
  split; [exact Hid|]. inversion Hall; subst. exact Hc.
Defined.

Lemma translateToAnthropic_stop_reason_witness :
  exists r,
    translateToAnthropic sample_parse cached_response = inr r
    /\ ar_stop_reason r = mapOpenAIStopReasonToAnthropic (Some FinishStop).
Proof.
  eexists. split; [reflexivity|].
  exact (proj1 (proj2 (translateToAnthropic_stop_reason unit sample_parse
                         cached_response _ eq_refl)) _ eq_refl).
Defined.

(** ** The system prompt *)

Section SystemPromptLines.

Lemma split_lines_cons s : exists line lines, split_lines s = line :: lines.
Proof.
  induction s as [|c s (line & lines & IH)]; cbn [split_lines];
    [by eexists _, _|].
  destruct (c =? 10)%N; [by eexists _, _|]. rewrite IH. by eexists _, _.
Qed.

(** Splitting at the line feeds and joining with line feeds gives the text
    back. *)
Lemma join_split_lines s : join [10%N] (split_lines s) = s.
Proof.
  induction s as [|c s IH]; [done|]. cbn [split_lines].
  destruct (split_lines_cons s) as (line & lines & Hs). rewrite Hs in *.
  destruct (c =? 10)%N eqn:Hc.
  - apply N.eqb_eq in Hc. subst c.
    destruct lines; cbn [join app] in *; by rewrite IH.
  - destruct lines; cbn [join app] in *; by rewrite IH.
Qed.

Lemma split_lines_no_newline s :
  Forall (fun line => ~ In 10%N line) (split_lines s).
Proof.
  induction s as [|c s IH]; cbn [split_lines].
  - constructor; [by intros []|constructor].
  - destruct (c =? 10)%N eqn:Hc; [constructor; [by intros []|done]|].
    destruct (split_lines s) as [|line lines]; [repeat constructor|].
    + intros [ -> | []]. by rewrite N.eqb_refl in Hc.
    + inversion IH as [|? ? Hline Hlines]; subst. constructor; [|done].
      intros [ -> | Hin]; [by rewrite N.eqb_refl in Hc|by apply Hline].
Qed.

Lemma split_lines_app line rest :
  ~ In 10%N line ->
  split_lines (line ++ 10%N :: rest) = line :: split_lines rest.
Proof.
  induction line as [|c line IH]; intros Hno; cbn [app split_lines].
  - by rewrite N.eqb_refl.
  - destruct (c =? 10)%N eqn:Hc.
    + apply N.eqb_eq in Hc. subst c. destruct Hno. by left.
    + rewrite IH; [done|]. intros Hin. apply Hno. by right.
Qed.

Lemma split_lines_line line : ~ In 10%N line -> split_lines line = [line].
Proof.
  induction line as [|c line IH]; intros Hno; cbn [split_lines]; [done|].
  destruct (c =? 10)%N eqn:Hc.
  - apply N.eqb_eq in Hc. subst c. destruct Hno. by left.
  - rewrite IH; [done|]. intros Hin. apply Hno. by right.
Qed.

Lemma split_lines_join line lines :
  Forall (fun line => ~ In 10%N line) (line :: lines) ->
  split_lines (join [10%N] (line :: lines)) = line :: lines.
Proof.
  revert line. induction lines as [|line' lines IH]; intros line Hall;
    inversion Hall as [|? ? Hline Hlines]; subst.
  - by apply split_lines_line.
  - change (join [10%N] (line :: line' :: lines))
      with (line ++ 10%N :: join [10%N] (line' :: lines)).
    by rewrite split_lines_app, IH.
Qed.

Lemma filter_all {A} (f : A -> bool) (l : list A) :
  (forall x, In x l -> f x = true) -> List.filter f l = l.
Proof.
  induction l as [|x l IH]; intros H; cbn [List.filter]; [done|].
  rewrite (H x) by (by left). rewrite IH; [done|].
  intros y Hy. apply H. by right.
Qed.

Lemma trimStart_cases s :
  trimStart s = []
  \/ exists c rest, trimStart s = c :: rest /\ is_whitespace c = false.
Proof.
  induction s as [|c s IH]; cbn [trimStart]; [by left|].
  destruct (is_whitespace c) eqn:Hc; [done|]. right. by exists c, s.
Qed.

Lemma trimStart_idempotent s : trimStart (trimStart s) = trimStart s.
Proof.
  destruct (trimStart_cases s) as [-> | (c & rest & -> & Hc)]; [done|].
  cbn [trimStart]. by rewrite Hc.
Qed.

Lemma trimStart_snoc s c :
  is_whitespace c = false -> exists kept, trimStart (s ++ [c]) = kept ++ [c].
Proof.
  intros Hc. induction s as [|d s IH]; cbn [app trimStart].
  - rewrite Hc. by exists [].
  - destruct (is_whitespace d); [exact IH|]. by exists (d :: s).
Qed.

Lemma trimEnd_idempotent s : trimEnd (trimEnd s) = trimEnd s.
Proof.
  unfold trimEnd. by rewrite rev_involutive, trimStart_idempotent.
Qed.

Lemma trimStart_trimEnd s :
  trimStart s = s -> trimStart (trimEnd s) = trimEnd s.
Proof.
  intros Hs. destruct (trimStart_cases s) as [H | (c & rest & H & Hc)];
    rewrite Hs in H; subst s; [done|].
  unfold trimEnd. cbn [rev].
  destruct (trimStart_snoc (rev rest) c Hc) as [kept ->].
  rewrite rev_app_distr. cbn [rev app trimStart]. by rewrite Hc.
Qed.

Lemma trim_idempotent s : trim (trim s) = trim s.
Proof.
  unfold trim.
  rewrite (trimStart_trimEnd (trimStart s)) by apply trimStart_idempotent.
  apply trimEnd_idempotent.
Qed.

Variable toLowerCase : list N -> list N.

(** X14: a system prompt none of whose lines names a reserved keyword is
    handed on as it is, but for the white space around it. *)
Theorem sanitizeSystemPrompt_plain text :
  (forall line,
     In line (split_lines text) -> isReservedLine toLowerCase line = false) ->
  sanitizeSystemPrompt toLowerCase text = trim text.
Proof.
  intros Hplain. unfold sanitizeSystemPrompt. cbv zeta.
  rewrite filter_all; [by rewrite join_split_lines|].
  intros line Hin. by rewrite (Hplain line Hin).
Qed.

(** X15: a line that names a reserved keyword leaves no trace: the prompt
    is sanitized to what the prompt without that line is sanitized to. *)
Theorem sanitizeSystemPrompt_drops_line text before line after :
  split_lines text = before ++ line :: after ->
  isReservedLine toLowerCase line = true ->
  sanitizeSystemPrompt toLowerCase text
  = sanitizeSystemPrompt toLowerCase (join [10%N] (before ++ after)).
Proof.
  intros Hs Hline. unfold sanitizeSystemPrompt. cbv zeta.
  pose proof (split_lines_no_newline text) as Hno. rewrite Hs in *.
  rewrite List.filter_app. cbn [List.filter]. rewrite Hline. cbn [negb].
  rewrite <- List.filter_app.
  apply Forall_app in Hno. destruct Hno as [Hb Ha].
  inversion Ha as [|? ? _ Ha']; subst.
  assert (Hrest : Forall (fun line => ~ In 10%N line) (before ++ after))
    by (by apply Forall_app).
  destruct (before ++ after) as [|first others] eqn:E.
  - cbn [join split_lines List.filter].
    by destruct (negb (isReservedLine toLowerCase [])).
  - by rewrite split_lines_join.
Qed.

(** X16: the system prompt gives no message or one: a system message whose
    content is a string that is not empty and has no white space around
    it. No system prompt, and an empty one, give no message. *)
Theorem handleSystemPrompt_result system :
  (handleSystemPrompt toLowerCase system = []
   \/ exists content,
        handleSystemPrompt toLowerCase system
        = [mkMessage RoleSystem (ContentString content) None None]
        /\ content <> []
        /\ trim content = content)
  /\ (system = None \/ system = Some (SystemString []) ->
      handleSystemPrompt toLowerCase system = []).
Proof.
  split; [|by intros [-> | ->]].
  assert (Hs : forall text,
            sanitizeSystemPrompt toLowerCase text <> [] ->
            trim (sanitizeSystemPrompt toLowerCase text)
            = sanitizeSystemPrompt toLowerCase text).
  { intros text _. unfold sanitizeSystemPrompt. cbv zeta.
    apply trim_idempotent. }
  destruct system as [[s|blocks]|]; cbn [handleSystemPrompt]; [| |by left].
  - destruct (truthy s); cbn [negb]; [|by left]. cbv zeta.
    destruct (sanitizeSystemPrompt toLowerCase s) as [|c content] eqn:E;
      cbn [truthy negb]; [by left|].
    right. eexists. split; [done|]. split; [done|].
    rewrite <- E. apply Hs. by rewrite E.
  - cbv zeta.
    destruct (sanitizeSystemPrompt toLowerCase _) as [|c content] eqn:E;
      cbn [truthy negb]; [by left|].
    right. eexists. split; [done|]. split; [done|].
    rewrite <- E. apply Hs. by rewrite E.
Qed.

End SystemPromptLines.

Lemma sanitizeSystemPrompt_plain_witness :
  sanitizeSystemPrompt ascii_lower
    (lit " Be brief." ++ [10%N] ++ lit "Use tools. ")
  = lit "Be brief." ++ [10%N] ++ lit "Use tools.".
Proof.
  rewrite (sanitizeSystemPrompt_plain ascii_lower); [reflexivity|].
  intros line [<- | [<- | []]]; reflexivity.
Defined.

Lemma sanitizeSystemPrompt_drops_line_witness :
  sanitizeSystemPrompt ascii_lower
    (lit "Be brief." ++ [10%N] ++ lit "X-Anthropic-Billing-Header: 7"
       ++ [10%N] ++ lit "Use tools.")
  = sanitizeSystemPrompt ascii_lower
      (lit "Be brief." ++ [10%N] ++ lit "Use tools.").
Proof.
  apply (sanitizeSystemPrompt_drops_line ascii_lower
           (lit "Be brief." ++ [10%N] ++ lit "X-Anthropic-Billing-Header: 7"
              ++ [10%N] ++ lit "Use tools.")
           [lit "Be brief."] (lit "X-Anthropic-Billing-Header: 7")
           [lit "Use tools."]); reflexivity.
Defined.

(** ** The whole conversation *)

Section Conversation.

Variable json : Type.
Variable JSON_stringify : json -> list N.
Variable toLowerCase : list N -> list N.

Lemma handleSystemPrompt_cases system :
  handleSystemPrompt toLowerCase system = []
  \/ exists content,
       handleSystemPrompt toLowerCase system
       = [mkMessage RoleSystem (ContentString content) None None].
Proof.
  destruct system as [[s|blocks]|]; cbn [handleSystemPrompt]; cbv zeta;
    [| |by left].
  - destruct (negb (truthy s)); [by left|].
    destruct (negb _); [by left|right; by eexists].
  - destruct (negb _); [by left|right; by eexists].
Qed.

Lemma handleAssistantMessage_single (content : AnthropicContent json) :
  exists content' calls,
    handleAssistantMessage JSON_stringify content
    = [mkMessage RoleAssistant content' calls None].
Proof.
  destruct content as [s|blocks]; cbn [handleAssistantMessage]; cbv zeta;
    [by eexists _, _|].
  destruct (0 <? _)%nat; by eexists _, _.
Qed.

Lemma tool_messages_ids (blocks : list (AnthropicBlock json)) :
  tool_call_ids
    (map (fun '(tool_use_id, c) =>
            mkMessage RoleTool (mapToolResultContent c) None (Some tool_use_id))
       (toolResultBlocksOf blocks))
  = flat_map (fun block =>
                match block with
                | ToolResultBlock tool_use_id _ => [tool_use_id]
                | _ => []
                end) blocks.
Proof.
  unfold tool_call_ids, toolResultBlocksOf.
  induction blocks as [|block blocks IH]; [done|].
  cbn [flat_map]. rewrite map_app, flat_map_app, IH.
  by destruct block.
Qed.

(** What one turn contributes. *)
Lemma translateMessage_profile (message : AnthropicMessage json) :
  let out := translateMessage JSON_stringify message in
  Forall (fun msg =>
            msg_role msg <> RoleSystem /\ msg_role msg <> RoleDeveloper
            /\ (is_Some (msg_tool_call_id msg) <-> msg_role msg = RoleTool)
            /\ (is_Some (msg_tool_calls msg) -> msg_role msg = RoleAssistant))
    out
  /\ tool_call_ids out = tool_result_ids [message]
  /\ length (List.filter (hasRole RoleAssistant) out)
     = (if isAssistantTurn message then 1 else 0)%nat
  /\ (length (List.filter (hasRole RoleUser) out)
      <= (if isAssistantTurn message then 0 else 1))%nat
  /\ existsb (fun msg => isAgentRole (msg_role msg)) out
     = isAgentTurn message.
Proof.
  assert (Hopt : forall (id : list N), is_Some (Some id)) by (by eexists).
  assert (Hnone : forall A, ~ is_Some (@None A)) by (by intros A [? ?]).
  destruct message as [content|content]; cbn [translateMessage]; cbv zeta.
  - destruct content as [s|blocks].
    + cbn. split_and!; try done.
      repeat constructor; try done; by intros [? ?].
    + rewrite handleUserMessage_blocks.
      set (tools := map _ (toolResultBlocksOf blocks)).
      assert (Htools : Forall (fun msg =>
                          msg_role msg = RoleTool
                          /\ is_Some (msg_tool_call_id msg)
                          /\ msg_tool_calls msg = None) tools).
      { subst tools. induction (toolResultBlocksOf blocks) as [|[id c] l IH];
          constructor; [|exact IH]. cbn. by split_and!. }
      assert (Hhas : existsb (fun msg => isAgentRole (msg_role msg)) tools
                     = existsb isToolResult blocks).
      { subst tools. clear. unfold toolResultBlocksOf.
        induction blocks as [|block blocks IH]; [done|].
        cbn [flat_map existsb]. rewrite map_app, existsb_app, IH.
        by destruct block. }
      assert (Hids : tool_call_ids tools = tool_result_ids
                       [UserMessage (BlockList blocks)]).
      { subst tools. rewrite tool_messages_ids. cbn. by rewrite app_nil_r. }
      assert (Hnot : forall role,
                role <> RoleTool ->
                List.filter (hasRole role) tools = []).
      { intros role Hrole. clear -Htools Hrole.
        induction Htools as [|msg l (Hr & _) _ IH]; [done|].
        cbn [List.filter]. unfold hasRole at 1. rewrite Hr, IH.
        by destruct role. }
      destruct (List.filter _ blocks) as [|other others] eqn:E.
      * rewrite app_nil_r. rewrite !Hnot by done. cbn [length].
        split_and!; [|done|done|lia|by rewrite Hhas].
        eapply Forall_impl; [exact Htools|].
        intros msg (Hr & Hid & Hcalls). rewrite Hr, Hcalls.
        split_and!; try done; by intros [? ?].
      * rewrite <- E. split_and!.
        -- apply Forall_app. split.
           ++ eapply Forall_impl; [exact Htools|].
              intros msg (Hr & Hid & Hcalls). rewrite Hr, Hcalls.
              split_and!; try done; by intros [? ?].
           ++ repeat constructor; cbn; try done; by intros [? ?].
        -- unfold tool_call_ids in *. rewrite flat_map_app, Hids. cbn.
           by rewrite !app_nil_r.
        -- rewrite List.filter_app, Hnot by done. done.
        -- rewrite List.filter_app, Hnot by done. cbn. lia.
        -- rewrite existsb_app, Hhas. cbn. by rewrite !orb_false_r.
  - destruct (handleAssistantMessage_single content) as (content' & calls & ->).
    cbn. split_and!; try done.
    repeat constructor; cbn; try done; by intros [? ?].
Qed.

Lemma translateMessages_profile
    (messages : list (AnthropicMessage json)) :
  let out := flat_map (translateMessage JSON_stringify) messages in
  Forall (fun msg =>
            msg_role msg <> RoleSystem /\ msg_role msg <> RoleDeveloper
            /\ (is_Some (msg_tool_call_id msg) <-> msg_role msg = RoleTool)
            /\ (is_Some (msg_tool_calls msg) -> msg_role msg = RoleAssistant))
    out
  /\ tool_call_ids out = tool_result_ids messages
  /\ length (List.filter (hasRole RoleAssistant) out)
     = length (List.filter isAssistantTurn messages)
  /\ (length (List.filter (hasRole RoleUser) out)
      <= length (List.filter (fun message => negb (isAssistantTurn message))
                   messages))%nat
  /\ existsb (fun msg => isAgentRole (msg_role msg)) out
     = existsb isAgentTurn messages.
Proof.
  induction messages as [|message messages IH]; cbv zeta.
  - cbn. split_and!; try done.
  - destruct IH as (Hall & Hids & Ha & Hu & Hagent).
    destruct (translateMessage_profile message)
      as (Hall1 & Hids1 & Ha1 & Hu1 & Hagent1).
    cbn [flat_map]. split_and!.
    + by apply Forall_app.
    + unfold tool_call_ids, tool_result_ids in *. rewrite flat_map_app.
      cbn [flat_map] in *. rewrite app_nil_r in Hids1. by rewrite Hids1, Hids.
    + rewrite List.filter_app, length_app, Ha1, Ha. cbn [List.filter].
      by destruct (isAssistantTurn message).
    + rewrite List.filter_app, length_app. cbn [List.filter].
      destruct (isAssistantTurn message); cbn [negb length] in *; lia.
    + rewrite existsb_app, Hagent1, Hagent. done.
Qed.

(** X17: the translated conversation has a system message only as its
    first message, and then it is the one message the system prompt gives;
    no message has the role developer. *)
Theorem translateAnthropicMessagesToOpenAI_system messages system i msg :
  translateAnthropicMessagesToOpenAI JSON_stringify toLowerCase messages system
    !! i = Some msg ->
  msg_role msg <> RoleDeveloper
  /\ (msg_role msg = RoleSystem ->
      i = 0%nat /\ handleSystemPrompt toLowerCase system = [msg]).
Proof.
  unfold translateAnthropicMessagesToOpenAI. cbv zeta. intros Hi.
  destruct (translateMessages_profile messages) as (Hall & _).
  cbv zeta in Hall. rewrite Forall_lookup in Hall.
  destruct (handleSystemPrompt_cases system) as [Hs | (content & Hs)];
    rewrite Hs in *.
  - cbn [app] in Hi. destruct (Hall i msg Hi) as (Hsys & Hdev & _). done.
  - destruct i as [|i]; cbn in Hi.
    + injection Hi as <-. cbn. done.
    + destruct (Hall i msg Hi) as (Hsys & Hdev & _). done.
Qed.

(** X18: the tool messages of the translated conversation answer the
    [tool_result] blocks of the user turns, one for one and in order: the
    ids the messages carry are the ids of those blocks, and a message
    carries an id exactly when its role is tool. *)
Theorem translateAnthropicMessagesToOpenAI_tool_ids messages system :
  let out :=
    translateAnthropicMessagesToOpenAI JSON_stringify toLowerCase messages
      system in
  tool_call_ids out = tool_result_ids messages
  /\ Forall (fun msg =>
               is_Some (msg_tool_call_id msg) <-> msg_role msg = RoleTool) out.
Proof.
  cbv zeta. unfold translateAnthropicMessagesToOpenAI. cbv zeta.
  destruct (translateMessages_profile messages) as (Hall & Hids & _).
  cbv zeta in *. unfold tool_call_ids in *. rewrite flat_map_app, Hids.
  split.
  - by destruct (handleSystemPrompt_cases system) as [-> | (content & ->)].
  - apply Forall_app. split.
    + destruct (handleSystemPrompt_cases system) as [-> | (content & ->)];
        repeat constructor; cbn; try done; by intros [? ?].
    + eapply Forall_impl; [exact Hall|]. by intros msg (_ & _ & H & _).
Qed.

(** X19: every assistant turn gives exactly one assistant message, a user
    turn gives at most one user message, and only assistant messages carry
    tool calls. *)
Theorem translateAnthropicMessagesToOpenAI_turns messages system :
  let out :=
    translateAnthropicMessagesToOpenAI JSON_stringify toLowerCase messages
      system in
  length (List.filter (hasRole RoleAssistant) out)
  = length (List.filter isAssistantTurn messages)
  /\ (length (List.filter (hasRole RoleUser) out)
      <= length (List.filter (fun message => negb (isAssistantTurn message))
                   messages))%nat
  /\ Forall (fun msg =>
               is_Some (msg_tool_calls msg) -> msg_role msg = RoleAssistant)
       out.
Proof.
  cbv zeta. unfold translateAnthropicMessagesToOpenAI. cbv zeta.
  destruct (translateMessages_profile messages) as (Hall & _ & Ha & Hu & _).
  cbv zeta in *. rewrite !List.filter_app, !length_app, Ha.
  destruct (handleSystemPrompt_cases system) as [-> | (content & ->)];
    cbn [List.filter length hasRole msg_role role_eqb]; (split_and!; [done| |]).
  - cbn. lia.
  - eapply Forall_impl; [exact Hall|]. by intros msg (_ & _ & _ & H).
  - cbn. lia.
  - constructor; [by intros [? ?]|].
    eapply Forall_impl; [exact Hall|]. by intros msg (_ & _ & _ & H).
Qed.

End Conversation.

Lemma translateAnthropicMessagesToOpenAI_system_witness :
  handleSystemPrompt ascii_lower (Some (SystemString (lit "Be brief.")))
  = [mkMessage RoleSystem (ContentString (lit "Be brief.")) None None].
Proof.
  apply (translateAnthropicMessagesToOpenAI_system unit sample_stringify
           ascii_lower weather_conversation
           (Some (SystemString (lit "Be brief."))) 0 _ eq_refl).
  reflexivity.
Defined.

(** ** The upstream call *)

Section UpstreamShape.

Variable fetch : list N -> Exn + HttpResponse.
Variable base64 : list N -> list N.

Lemma mapM_map {A B} (f : A -> Exn + B) (g : A -> B) (l : list A) :
  (forall x, In x l -> f x = inr (g x)) -> mapM f l = inr (map g l).
Proof.
  induction l as [|x l IH]; intros H; cbn [mapM map]; [done|].
  rewrite (H x) by (by left). cbn [bind].
  rewrite IH by (intros y Hy; apply H; by right). done.
Qed.

Lemma resolvePart_resolved part :
  resolvePart fetch base64 part = inr (resolved_part fetch base64 part).
Proof.
  destruct part as [text|image_url]; cbn [resolvePart resolved_part]; [done|].
  cbn [isExternalImage].
  destruct (startsWith (url image_url) (lit "data:")); cbn [negb]; [done|].
  by destruct (fetchImageAsBase64 fetch base64 (url image_url)).
Qed.

Lemma resolveMessage_resolved msg :
  resolveMessage fetch base64 msg = inr (resolved_message fetch base64 msg).
Proof.
  unfold resolveMessage, resolved_message.
  destruct (msg_content msg) as [s|parts|]; [done| |done].
  rewrite (mapM_map _ (resolved_part fetch base64)); [done|].
  intros part _. apply resolvePart_resolved.
Qed.

Lemma resolved_part_internal part :
  isExternalImage part = false -> resolved_part fetch base64 part = part.
Proof.
  destruct part as [text|image_url]; [done|].
  cbn [resolved_part]. by intros ->.
Qed.

Lemma map_resolved_part_internal parts :
  existsb isExternalImage parts = false ->
  map (resolved_part fetch base64) parts = parts.
Proof.
  induction parts as [|part parts IH]; [done|]. cbn [existsb map].
  intros H. apply orb_false_iff in H. destruct H as [Hp Hps].
  by rewrite resolved_part_internal, IH.
Qed.

Lemma map_resolved_message_internal messages :
  existsb (fun msg =>
             match msg_content msg with
             | ContentParts parts => existsb isExternalImage parts
             | _ => false
             end) messages = false ->
  map (resolved_message fetch base64) messages = messages.
Proof.
  induction messages as [|msg messages IH]; [done|]. cbn [existsb map].
  intros H. apply orb_false_iff in H. destruct H as [Hm Hms].
  rewrite IH by done. f_equal. unfold resolved_message.
  destruct msg as [role [s|parts|] calls id]; cbn in *; [done| |done].
  by rewrite map_resolved_part_internal.
Qed.

(** A data URI is never taken for an external address. *)
Lemma fetchImageAsBase64_data (address uri : list N) :
  fetchImageAsBase64 fetch base64 address = inr uri ->
  startsWith uri (lit "data:") = true.
Proof.
  unfold fetchImageAsBase64. destruct (fetch address) as [|response];
    cbn [bind]; [discriminate|].
  destruct (negb (ok response)); [discriminate|].
  destruct (arrayBuffer response); cbn [bind ret]; [discriminate|].
  intros [= <-]. apply (startsWith_app (lit "data:")).
Qed.

Lemma isImagePart_resolved part :
  isImagePart (resolved_part fetch base64 part) = isImagePart part.
Proof.
  destruct part as [text|image_url]; [done|]. cbn [resolved_part].
  destruct (isExternalImage _); [|done].
  by destruct (fetchImageAsBase64 fetch base64 (url image_url)).
Qed.

Lemma hasImage_resolved messages :
  hasImage (map (resolved_message fetch base64) messages) = hasImage messages.
Proof.
  unfold hasImage. induction messages as [|msg messages IH]; [done|].
  cbn [map existsb]. rewrite IH. f_equal. unfold resolved_message.
  destruct (msg_content msg) as [s|parts|] eqn:E; rewrite ?E; [done| |done].
  cbn [msg_content]. clear. induction parts as [|part parts IH]; [done|].
  cbn [map existsb]. by rewrite IH, isImagePart_resolved.
Qed.

Lemma resolveExternalImages_resolved payload :
  resolveExternalImages fetch base64 payload
  = inr (mkPayload (map (resolved_message fetch base64) (pl_messages payload))
           (pl_model payload) (pl_stream payload)).
Proof.
  unfold resolveExternalImages. cbv zeta.
  destruct (existsb _ (pl_messages payload)) eqn:Hany; cbn [negb].
  - rewrite (mapM_map _ (resolved_message fetch base64)); [done|].
    intros msg _. apply resolveMessage_resolved.
  - rewrite map_resolved_message_internal by done. by destruct payload.
Qed.

(** X20: resolving the images of a payload is a map over its content
    parts: it never fails, it keeps the model, the stream flag and every
    message with its role, tool calls and tool call id, and it replaces
    exactly the external images whose fetch succeeds. The test for external
    addresses in front of it only saves the work. *)
Theorem resolveExternalImages_as_map payload :
  resolveExternalImages fetch base64 payload
  = inr (mkPayload (map (resolved_message fetch base64) (pl_messages payload))
           (pl_model payload) (pl_stream payload)).
Proof. apply resolveExternalImages_resolved. Qed.

(** X21: what resolving does to one content part: the part stays as it
    is, or it is an external image whose fetch succeeded and is replaced by
    an image with the fetched data URI and the same detail; the new address
    starts with [data:], so it is not fetched again. *)
Theorem resolvePart_cases part part' :
  resolvePart fetch base64 part = inr part' ->
  part' = part
  \/ exists image_url uri,
       part = ImagePart image_url
       /\ isExternalImage part = true
       /\ fetchImageAsBase64 fetch base64 (url image_url) = inr uri
       /\ startsWith uri (lit "data:") = true
       /\ part' = ImagePart (mkImageUrl uri (detail image_url))
       /\ isExternalImage part' = false.
Proof.
  rewrite resolvePart_resolved. intros [= <-].
  destruct part as [text|image_url]; [by left|]. cbn [resolved_part].
  destruct (isExternalImage (ImagePart image_url)) eqn:Hext; [|by left].
  destruct (fetchImageAsBase64 fetch base64 (url image_url)) as [|uri] eqn:Hf;
    [by left|].
  right. exists image_url, uri.
  pose proof (fetchImageAsBase64_data _ _ Hf) as Hdata.
  split_and!; try done. cbn [isExternalImage url]. by rewrite Hdata.
Qed.

(** X22: when every external image of a payload can be fetched, no
    external image is left in the resolved payload, and resolving it again
    changes nothing. *)
Theorem resolveExternalImages_all_fetched payload resolved :
  (forall msg parts image_url,
     In msg (pl_messages payload) ->
     msg_content msg = ContentParts parts ->
     In (ImagePart image_url) parts ->
     isExternalImage (ImagePart image_url) = true ->
     exists uri, fetchImageAsBase64 fetch base64 (url image_url) = inr uri) ->
  resolveExternalImages fetch base64 payload = inr resolved ->
  Forall no_external_image (pl_messages resolved)
  /\ resolveExternalImages fetch base64 resolved = inr resolved.
Proof.
  intros Hfetch. rewrite resolveExternalImages_resolved. intros [= <-].
  assert (Hall : Forall no_external_image
                   (map (resolved_message fetch base64) (pl_messages payload))).
  { apply Forall_forall. intros msg' Hin.
    apply list_elem_of_In, in_map_iff in Hin.
    destruct Hin as (msg & <- & Hin).
    unfold no_external_image, resolved_message.
    destruct (msg_content msg) as [s|parts|] eqn:Hc; rewrite ?Hc; [done| |done].
    cbn [msg_content]. apply not_true_is_false. intros Hex.
    apply existsb_exists in Hex. destruct Hex as (part' & Hin' & Hext').
    apply in_map_iff in Hin'. destruct Hin' as (part & <- & Hpart).
    destruct part as [text|image_url]; [done|]. cbn [resolved_part] in Hext'.
    destruct (isExternalImage (ImagePart image_url)) eqn:Hext;
      [|congruence].
    destruct (Hfetch msg parts image_url Hin Hc Hpart Hext) as [uri Hf].
    rewrite Hf in Hext'. cbn [isExternalImage url] in Hext'.
    by rewrite (fetchImageAsBase64_data _ _ Hf) in Hext'. }
  split; [exact Hall|].
  rewrite resolveExternalImages_resolved. cbn [pl_messages pl_model pl_stream].
  rewrite map_resolved_message_internal; [done|].
  apply not_true_is_false. intros Hex. apply existsb_exists in Hex.
  destruct Hex as (msg & Hin & Hext). apply list_elem_of_In in Hin.
  rewrite Forall_forall in Hall. apply Hall in Hin.
  unfold no_external_image in Hin.
  destruct (msg_content msg); [done| |done]. congruence.
Qed.

Variable State : Type.
Variable copilotToken : State -> option (list N).
Variable copilotHeaders : State -> bool -> gmap (list N) (list N).
Variable copilotBaseUrl : State -> list N.

Lemma upstreamRequest_value state payload c t :
  copilotToken state = Some (c :: t) ->
  upstreamRequest fetch base64 State copilotToken copilotHeaders
    copilotBaseUrl state payload
  = inr (mkRequest (copilotBaseUrl state ++ lit "/chat/completions")
           (<[X_Initiator :=
                if existsb (fun msg => isAgentRole (msg_role msg))
                     (pl_messages payload)
                then lit "agent" else lit "user"]>
              (copilotHeaders state (hasImage (pl_messages payload))))
           (mkPayload
              (map (resolved_message fetch base64) (pl_messages payload))
              (pl_model payload) (pl_stream payload))).
Proof.
  intros Htok. unfold upstreamRequest. rewrite Htok. cbn [from_option truthy negb].
  rewrite resolveExternalImages_resolved. cbn [bind ret pl_messages].
  fold (hasImage (map (resolved_message fetch base64) (pl_messages payload))).
  rewrite hasImage_resolved.
  rewrite (isAgentRole_roles
             (map (resolved_message fetch base64) (pl_messages payload))
             (pl_messages payload)); [done|].
  rewrite map_map. apply map_ext.
  intros msg. unfold resolved_message. by destruct (msg_content msg).
Qed.

Lemma upstreamRequest_token state payload request :
  upstreamRequest fetch base64 State copilotToken copilotHeaders
    copilotBaseUrl state payload = inr request ->
  exists c t, copilotToken state = Some (c :: t).
Proof.
  unfold upstreamRequest. destruct (copilotToken state) as [[|c t]|];
    cbn [from_option truthy negb]; try discriminate. by eexists _, _.
Qed.

(** X23: the request that goes upstream: it is sent to the chat
    completions path of the base address, and apart from [X-Initiator] its
    headers are the ones [copilotHeaders] gives, with vision switched on
    exactly when some message of the payload, as it came in, shows an
    image. *)
Theorem upstreamRequest_headers state payload request :
  upstreamRequest fetch base64 State copilotToken copilotHeaders
    copilotBaseUrl state payload = inr request ->
  req_url request = copilotBaseUrl state ++ lit "/chat/completions"
  /\ forall name,
       name <> X_Initiator ->
       req_headers request !! name
       = copilotHeaders state (hasImage (pl_messages payload)) !! name.
Proof.
  intros Hreq. destruct (upstreamRequest_token _ _ _ Hreq) as (c & t & Htok).
  rewrite (upstreamRequest_value _ _ _ _ Htok) in Hreq. injection Hreq as <-.
  split; [done|]. intros name Hname. cbn [req_headers].
  by rewrite lookup_insert_ne.
Qed.

Variable post : Request -> Exn + HttpResponse.

(** X24: the ways the upstream call fails: there is no token; or the
    request is rejected by the network; or the answer is not ok, and then
    the error carries the text of the answer, unless reading that text
    fails, which is then the error; or the answer is ok, no stream was
    asked for, and the body cannot be read as JSON. A failed image fetch
    is not among them. *)
Theorem createChatCompletions_errors state payload e :
  createChatCompletions fetch base64 State copilotToken copilotHeaders
    copilotBaseUrl post state payload = inl e ->
  (from_option truthy false (copilotToken state) = false
   /\ e = Error (lit "Copilot token not found"))
  \/ exists request,
       upstreamRequest fetch base64 State copilotToken copilotHeaders
         copilotBaseUrl state payload = inr request
       /\ (post request = inl e
           \/ exists response,
                post request = inr response
                /\ ((ok response = false
                     /\ (response_text response = inl e
                         \/ exists body,
                              response_text response = inr body
                              /\ e = HTTPError
                                       (lit "Failed to create chat completions")
                                       body))
                    \/ (ok response = true
                        /\ from_option id false (pl_stream payload) = false
                        /\ response_json response = inl e))).
Proof.
  unfold createChatCompletions.
  destruct (copilotToken state) as [[|c t]|] eqn:Htok.
  - unfold upstreamRequest. rewrite Htok. cbn. intros [= <-]. by left.
  - rewrite (upstreamRequest_value _ _ _ _ Htok). cbn [bind req_body pl_stream].
    intros H. right. eexists. split; [reflexivity|].
    destruct (post _) as [e'|response]; cbn [bind] in H.
    + injection H as <-. by left.
    + right. exists response. split; [done|].
      destruct (ok response); cbn [negb] in H.
      * right. split; [done|].
        destruct (from_option id false (pl_stream payload)); [discriminate|].
        split; [done|].
        destruct (response_json response); [|discriminate].
        by injection H as <-.
      * left. split; [done|].
        destruct (response_text response) as [e'|body]; cbn [bind] in H;
          injection H as <-; [by left|right; by exists body].
  - unfold upstreamRequest. rewrite Htok. cbn. intros [= <-]. by left.
Qed.

(** X25: the upstream call succeeds exactly when a request is built and
    answered ok and, unless a stream was asked for, the body of the answer
    can be read as JSON. The result is the event stream of the answer when
    the payload, as it came in, asks for a stream, and the body read as
    JSON otherwise. *)
Theorem createChatCompletions_result state payload completion :
  createChatCompletions fetch base64 State copilotToken copilotHeaders
    copilotBaseUrl post state payload = inr completion
  <-> exists request response,
        upstreamRequest fetch base64 State copilotToken copilotHeaders
          copilotBaseUrl state payload = inr request
        /\ post request = inr response
        /\ ok response = true
        /\ if from_option id false (pl_stream payload)
           then completion = EventStream response
           else exists body,
                  response_json response = inr body
                  /\ completion = Json body.
Proof.
  unfold createChatCompletions. split.
  - destruct (upstreamRequest _ _ _ _ _ _ _ _) as [|request] eqn:Hreq;
      cbn [bind]; [discriminate|].
    destruct (post request) as [|response] eqn:Hpost; cbn [bind];
      [discriminate|].
    destruct (ok response) eqn:Hok; cbn [negb];
      [|by destruct (response_text response)].
    intros H. exists request, response. split_and!; try done.
    destruct (upstreamRequest_token _ _ _ Hreq) as (c & t & Htok).
    rewrite (upstreamRequest_value _ _ _ _ Htok) in Hreq.
    injection Hreq as <-. cbn [req_body pl_stream] in H.
    destruct (from_option id false (pl_stream payload)); [by injection H|].
    destruct (response_json response) as [|body]; [discriminate|].
    injection H as <-. by exists body.
  - intros (request & response & Hreq & Hpost & Hok & H).
    rewrite Hreq. cbn [bind]. rewrite Hpost. cbn [bind]. rewrite Hok.
    cbn [negb]. destruct (upstreamRequest_token _ _ _ Hreq) as (c & t & Htok).
    rewrite (upstreamRequest_value _ _ _ _ Htok) in Hreq.
    injection Hreq as <-. cbn [req_body pl_stream].
    destruct (from_option id false (pl_stream payload)); [by rewrite H|].
    destruct H as (body & -> & ->). done.
Qed.

End UpstreamShape.

Lemma resolvePart_cases_witness :
  resolved_part reachable id remote_image
  = ImagePart (mkImageUrl (lit "data:image/png;base64,abc") None).
Proof.
  destruct (resolvePart_cases reachable id remote_image _ eq_refl)
    as [H | (image_url & uri & _ & _ & _ & _ & H & _)]; [discriminate H|].
  reflexivity.
Defined.

Lemma resolveExternalImages_all_fetched_witness :
  exists resolved,
    resolveExternalImages reachable id remote_image_payload = inr resolved
    /\ Forall no_external_image (pl_messages resolved).
Proof.
  eexists. split; [reflexivity|].
  apply (resolveExternalImages_all_fetched reachable id remote_image_payload);
    [|reflexivity].
  intros msg parts image_url _ _ _ _. by eexists.
Defined.

Lemma upstreamRequest_headers_witness :
  exists request,
    upstreamRequest unreachable id unit sample_token sample_headers
      sample_base_url tt remote_image_payload = inr request
    /\ req_url request = lit "https://api.githubcopilot.com/chat/completions".
Proof.
  eexists. split; [reflexivity|].
  exact (proj1 (upstreamRequest_headers unreachable id unit sample_token
                  sample_headers sample_base_url tt remote_image_payload _
                  eq_refl)).
Defined.

Lemma createChatCompletions_errors_witness :
  createChatCompletions unreachable id unit sample_token sample_headers
    sample_base_url answers_html tt remote_image_payload
  = inl (SyntaxError (lit "<html>"))
  /\ createChatCompletions unreachable id unit sample_token sample_headers
       sample_base_url rejects tt remote_image_payload
     = inl (HTTPError (lit "Failed to create chat completions")
              (lit "quota exceeded"))
  /\ exists request,
       upstreamRequest unreachable id unit sample_token sample_headers
         sample_base_url tt remote_image_payload = inr request.
Proof.
  split; [reflexivity|]. split; [reflexivity|].
  destruct (createChatCompletions_errors unreachable id unit sample_token
              sample_headers sample_base_url answers_html tt
              remote_image_payload _ eq_refl)
    as [[H _] | (request & Hreq & _)]; [discriminate H|].
  by exists request.
Defined.

(** ** From the request to the upstream call *)

Section RequestToUpstream.

Variable json : Type.
Variable JSON_stringify : json -> list N.
Variable toLowerCase : list N -> list N.
Variable number : Type.

Variable fetch : list N -> Exn + HttpResponse.
Variable base64 : list N -> list N.

Lemma translateAnthropicMessagesToOpenAI_internal
    (messages : list (AnthropicMessage json)) system :
  existsb (fun msg =>
             match msg_content msg with
             | ContentParts parts => existsb isExternalImage parts
             | _ => false
             end)
    (translateAnthropicMessagesToOpenAI JSON_stringify toLowerCase messages
       system)
  = false.
Proof.
  apply not_true_is_false. intros Hex. apply existsb_exists in Hex.
  destruct Hex as (msg & Hin & Hext).
  unfold translateAnthropicMessagesToOpenAI in Hin. cbv zeta in Hin.
  apply in_app_or in Hin. destruct Hin as [Hin | Hin].
  - destruct (handleSystemPrompt_cases toLowerCase system)
      as [Hs | (content & Hs)]; rewrite Hs in Hin; [done|].
    destruct Hin as [<- | []]. discriminate Hext.
  - apply in_flat_map in Hin. destruct Hin as (message & _ & Hin).
    pose proof (translateMessage_internal json JSON_stringify message) as Hall.
    rewrite List.Forall_forall in Hall. apply Hall in Hin.
    unfold no_external_image in Hin.
    destruct (msg_content msg); [done| |done]. congruence.
Qed.

(** X26: a payload that comes out of [translateToOpenAI] shows no image
    from an external address, so the upstream call sends it as it is and
    fetches nothing, whatever the network does. *)
Theorem translateToOpenAI_no_fetch
    (payload : AnthropicMessagesPayload json number) :
  resolveExternalImages fetch base64
    (fst (translateToOpenAI JSON_stringify toLowerCase payload))
  = inr (fst (translateToOpenAI JSON_stringify toLowerCase payload)).
Proof.
  unfold resolveExternalImages. cbv zeta. cbn [translateToOpenAI fst pl_messages].
  by rewrite translateAnthropicMessagesToOpenAI_internal.
Qed.

Variable State : Type.
Variable copilotToken : State -> option (list N).
Variable copilotHeaders : State -> bool -> gmap (list N) (list N).
Variable copilotBaseUrl : State -> list N.

(** X27: the request sent upstream for a translated payload carries that
    payload unchanged, with the normalised model name, and says
    [X-Initiator: agent] exactly when the conversation has an assistant
    turn or a user turn with a tool result; a system prompt does not
    count. *)
Theorem translateToOpenAI_initiator state
    (payload : AnthropicMessagesPayload json number) request :
  upstreamRequest fetch base64 State copilotToken copilotHeaders
    copilotBaseUrl state
    (fst (translateToOpenAI JSON_stringify toLowerCase payload))
  = inr request ->
  req_body request = fst (translateToOpenAI JSON_stringify toLowerCase payload)
  /\ pl_model (req_body request) = translateModelName (amp_model payload)
  /\ req_headers request !! X_Initiator
     = Some (if existsb isAgentTurn (amp_messages payload)
             then lit "agent" else lit "user").
Proof.
  unfold upstreamRequest. destruct (negb _); [discriminate|].
  unfold resolveExternalImages. cbv zeta.
  cbn [translateToOpenAI fst pl_messages].
  rewrite translateAnthropicMessagesToOpenAI_internal. cbn [negb bind ret].
  intros [= <-].
  cbn [req_body req_headers]. rewrite lookup_insert_eq.
  split_and!; [done|done|]. do 2 f_equal.
  cbn [translateToOpenAI fst pl_messages].
  unfold translateAnthropicMessagesToOpenAI. cbv zeta.
  rewrite existsb_app.
  destruct (translateMessages_profile json JSON_stringify (amp_messages payload))
    as (_ & _ & _ & _ & Hagent).
  cbv zeta in Hagent. rewrite Hagent.
  by destruct (handleSystemPrompt_cases toLowerCase (amp_system payload))
    as [-> | (content & ->)].
Qed.

End RequestToUpstream.

Lemma translateToOpenAI_initiator_witness :
  exists request,
    upstreamRequest unreachable id unit sample_token sample_headers
      sample_base_url tt
      (fst (translateToOpenAI sample_stringify ascii_lower weather_request))
    = inr request
    /\ pl_model (req_body request) = lit "claude-sonnet-4.5"
    /\ req_headers request !! X_Initiator = Some (lit "agent").
Proof.
  eexists. split; [reflexivity|].
  destruct (translateToOpenAI_initiator unit sample_stringify ascii_lower N
              unreachable id unit sample_token sample_headers sample_base_url
              tt weather_request _ eq_refl) as (_ & Hmodel & Hinit).
  split; [exact Hmodel|exact Hinit].
Defined.

(** ** The loop over the upstream events *)

Section StreamLoop.

Variable JSON_parse : list N -> option ChatCompletionChunk.

Lemma streamLoop_done before after : forall streamState,
  streamLoop JSON_parse (before ++ mkRawEvent (Some DONE) :: after) streamState
  = streamLoop JSON_parse before streamState.
Proof.
  induction before as [|rawEvent before IH]; intros streamState.
  - cbn [app streamLoop data]. by rewrite bool_decide_eq_true_2.
  - cbn [app streamLoop].
    destruct (bool_decide (data rawEvent = Some DONE)); [done|].
    destruct (data rawEvent) as [[|c rawData]|]; [by rewrite IH| |by rewrite IH].
    destruct (translateRaw JSON_parse (c :: rawData) streamState)
      as [|[events streamState']]; [done|].
    by rewrite IH.
Qed.

Lemma streamLoop_hasData response : forall streamState,
  streamLoop JSON_parse (List.filter hasData response) streamState
  = streamLoop JSON_parse response streamState.
Proof.
  induction response as [|rawEvent response IH]; intros streamState; [done|].
  cbn [List.filter]. unfold hasData at 1.
  destruct rawEvent as [[[|c rawData]|]]; cbn [data from_option truthy].
  - rewrite IH. cbn [streamLoop data]. by rewrite bool_decide_eq_false_2.
  - cbn [streamLoop data]. destruct (bool_decide _); [done|].
    destruct (translateRaw JSON_parse (c :: rawData) streamState)
      as [|[events streamState']]; [done|].
    by rewrite IH.
  - rewrite IH. cbn [streamLoop data]. by rewrite bool_decide_eq_false_2.
Qed.

Lemma streamLoop_error before rawData after : forall streamState,
  rawData <> [] ->
  rawData <> DONE ->
  JSON_parse rawData = None ->
  streamLoop JSON_parse (before ++ mkRawEvent (Some rawData) :: after)
    streamState
  = streamLoop JSON_parse (before ++ [mkRawEvent (Some rawData)]) streamState.
Proof.
  intros streamState Hdata Hdone Hparse. revert streamState.
  induction before as [|rawEvent before IH]; intros streamState.
  - cbn [app streamLoop data].
    rewrite bool_decide_eq_false_2 by congruence.
    destruct rawData as [|c rawData]; [done|].
    unfold translateRaw. by rewrite Hparse.
  - cbn [app streamLoop].
    destruct (bool_decide (data rawEvent = Some DONE)); [done|].
    destruct (data rawEvent) as [[|c' rawData']|]; [by rewrite IH| |by rewrite IH].
    destruct (translateRaw JSON_parse (c' :: rawData') streamState)
      as [|[events streamState']]; [done|].
    by rewrite IH.
Qed.

(** X28: the terminator [[DONE]] ends the stream: whatever the upstream
    sends after it is neither read nor answered, and the terminator itself
    writes nothing. *)
Theorem streamCompletion_done before after :
  streamCompletion JSON_parse (before ++ mkRawEvent (Some DONE) :: after)
  = streamCompletion JSON_parse before.
Proof. unfold streamCompletion. cbv zeta. by rewrite streamLoop_done. Qed.

(** X29: events without data, or with empty data, are passed over: the
    stream written is the one written for the events that bring data. *)
Theorem streamCompletion_skips_empty response :
  streamCompletion JSON_parse response
  = streamCompletion JSON_parse (List.filter hasData response).
Proof. unfold streamCompletion. cbv zeta. by rewrite streamLoop_hasData. Qed.

(** X30: a fragment that is not JSON ends the stream: nothing that comes
    after it is read; and when it is the first event, the stream is the
    ping followed by the error event. *)
Theorem streamCompletion_stops_at_error before rawData after :
  rawData <> [] ->
  rawData <> DONE ->
  JSON_parse rawData = None ->
  streamCompletion JSON_parse (before ++ mkRawEvent (Some rawData) :: after)
  = streamCompletion JSON_parse (before ++ [mkRawEvent (Some rawData)])
  /\ (before = [] ->
      streamCompletion JSON_parse (before ++ mkRawEvent (Some rawData) :: after)
      = [Ping; translateErrorToAnthropicErrorEvent]).
Proof.
  intros Hdata Hdone Hparse. unfold streamCompletion. cbv zeta.
  rewrite streamLoop_error by done. split; [done|]. intros ->.
  cbn [app streamLoop data]. rewrite bool_decide_eq_false_2 by congruence.
  destruct rawData as [|c rawData]; [done|].
  unfold translateRaw. by rewrite Hparse.
Qed.

End StreamLoop.

Lemma streamCompletion_stops_at_error_witness :
  streamCompletion never_parses
    [mkRawEvent (Some (lit "{")); mkRawEvent (Some (lit "1"))]
  = [Ping; translateErrorToAnthropicErrorEvent].
Proof.
  apply (proj2 (streamCompletion_stops_at_error never_parses [] (lit "{")
                  [mkRawEvent (Some (lit "1"))]
                  ltac:(discriminate) ltac:(discriminate) eq_refl)).
  reflexivity.
Defined.
